(** * Dynamic context pruning: the match engine, the distill tool and the
      Anthropic request format

    A shallow embedding of [lib/tools/distill.ts] (content extraction,
    exact-then-fuzzy string resolution, argument validation of the distill
    tool) and of the Anthropic format descriptor documented in the
    implementation notes (detection, system injection, tool-output
    replacement, the detection chain of the fetch wrapper).

    Conventions of the embedding:
    - a JavaScript string is a [string] (a list of 8-bit characters, standing
      for the UTF-16 code units of the source);
    - a JavaScript number is an integer [Z] (every number the modelled code
      computes with is a score, an index or a length);
    - a dynamically typed value is a [JsVal]; an object is the list of its own
      properties in insertion order, with distinct keys;
    - [Set<string>] is a [gset string];
    - a function that throws returns a [Result] whose [Throw] side is the
      error;
    - a function that logs returns the log lines next to its result. *)

From stdpp Require Import base gmap strings list pretty.
From Stdlib Require Import ZArith Ascii Lia Sorted.

Local Open Scope string_scope.
Local Open Scope list_scope.
Local Open Scope Z_scope.

(** ** JavaScript values *)

#[warnings="-register-all"]
Inductive JsVal : Type :=
  | JUndefined
  | JNull
  | JBool (b : bool)
  | JNum (n : Z)
  | JStr (s : string)
  | JArr (items : list JsVal)
  | JObj (props : list (string * JsVal)).

(** The own properties of an object. *)
Definition JsObject : Type := list (string * JsVal).

(** [o[k]] on an object: the first binding of the key, [undefined] when the
    object has none. *)
Fixpoint field (o : JsObject) (k : string) : JsVal :=
  match o with
  | [] => JUndefined
  | (k', v) :: o' => if String.eqb k' k then v else field o' k
  end.

(** [v.k] on a value that is neither [null] nor [undefined]: primitives and
    arrays have none of the property names the modelled code reads. *)
Definition getProp (v : JsVal) (k : string) : JsVal :=
  match v with
  | JObj o => field o k
  | _ => JUndefined
  end.

(** [o.k = v]: an existing key keeps its place, a new key goes last. *)
Fixpoint setField (o : JsObject) (k : string) (v : JsVal) : JsObject :=
  match o with
  | [] => [(k, v)]
  | (k', v') :: o' =>
      if String.eqb k' k then (k', v) :: o' else (k', v') :: setField o' k v
  end.

(** ToBoolean: what [if (v)] and [!v] test. *)
Definition truthy (v : JsVal) : bool :=
  match v with
  | JUndefined | JNull => false
  | JBool b => b
  | JNum n => negb (n =? 0)
  | JStr s => negb (String.eqb s EmptyString)
  | JArr _ | JObj _ => true
  end.

(** [typeof v === "string"], with the string when it holds. *)
Definition asString (v : JsVal) : option string :=
  match v with
  | JStr s => Some s
  | _ => None
  end.

(** [v === "lit"] for a string literal. *)
Definition isStr (v : JsVal) (lit : string) : bool :=
  match v with
  | JStr s => String.eqb s lit
  | _ => false
  end.

(** [Array.isArray(v)], with the elements when it holds. *)
Definition asArray (v : JsVal) : option (list JsVal) :=
  match v with
  | JArr items => Some items
  | _ => None
  end.

(** ** String primitives *)

(** [s.includes(sub)]. *)
Fixpoint includes (s sub : string) : bool :=
  if String.prefix sub s then true
  else match s with
       | EmptyString => false
       | String _ s' => includes s' sub
       end.

(** White space that [trim] removes, among the first 256 code units: tab,
    line feed, vertical tab, form feed, carriage return, space and the
    no-break space. *)
Definition isWhiteSpace (c : ascii) : bool :=
  let n := nat_of_ascii c in
  ((9 <=? n) && (n <=? 13))%nat || (n =? 32)%nat || (n =? 160)%nat.

Fixpoint trimStart (s : string) : string :=
  match s with
  | EmptyString => EmptyString
  | String c s' => if isWhiteSpace c then trimStart s' else s
  end.

Fixpoint trimEnd (s : string) : string :=
  match s with
  | EmptyString => EmptyString
  | String c s' =>
      match trimEnd s' with
      | EmptyString => if isWhiteSpace c then EmptyString else String c EmptyString
      | rest => String c rest
      end
  end.

(** [s.trim()]. *)
Definition trim (s : string) : string := trimEnd (trimStart s).

(** [c.toLowerCase()] on one of the first 256 code units: the letters A to Z
    and the Latin-1 capitals (192 to 222, without the multiplication sign). *)
Definition lowerChar (c : ascii) : ascii :=
  let n := nat_of_ascii c in
  if ((65 <=? n) && (n <=? 90))%nat
     || ((192 <=? n) && (n <=? 222) && negb (n =? 215))%nat
  then ascii_of_nat (n + 32) else c.

(** [s.toLowerCase()]. *)
Fixpoint toLowerCase (s : string) : string :=
  match s with
  | EmptyString => EmptyString
  | String c s' => String (lowerChar c) (toLowerCase s')
  end.

(** ** External collaborators *)

(** [JSON.stringify], applied by the modelled code to truthy values and to the
    argument object of a tool call, where it returns a string. *)
Class JSONBuiltin := { JSON_stringify : JsVal → string }.

(** [partial_ratio] of the fuzzball package: a similarity score of the search
    string against a text. *)
Class Fuzzball := { partial_ratio : string → string → Z }.

(** ** Conversation data (lib/state) *)

Record MessageInfo := { id : string }.

(** A part is an object with a [type] tag. *)
Definition Part : Type := JsObject.

(** [parts] is [None] when [msg.parts] is not an array. *)
Record WithParts := { info : MessageInfo; parts : option (list Part) }.

Record CompressSummary := { anchorMessageId : string; summary : string }.

(** ** lib/tools/distill.ts: the match engine *)

Record FuzzyConfig := { minScore : Z; minGap : Z }.

Definition DEFAULT_FUZZY_CONFIG : FuzzyConfig :=
  {| minScore := 85; minGap := 15 |}.

Inductive MatchType := exact | fuzzy.

Record MatchResult := {
  messageId : string;
  messageIndex : Z;
  score : Z;
  matchType : MatchType
}.

(** One iteration of the loop over the parts of a message: the [switch] on
    [part.type], appending to [content]. *)
Definition extractPart `{JSONBuiltin} (content : string) (part : Part) : string :=
  let type := field part "type" in
  if isStr type "text" || isStr type "reasoning" then
    match asString (field part "text") with
    | Some text => content +:+ " " +:+ text
    | None => content
    end
  else if isStr type "tool" then
    let state := field part "state" in
    if negb (truthy state) then content
    else
      let output :=
        if isStr (getProp state "status") "completed"
        then asString (getProp state "output") else None in
      let error :=
        if isStr (getProp state "status") "error"
        then asString (getProp state "error") else None in
      let content :=
        match output, error with
        | Some output, _ => content +:+ " " +:+ output
        | None, Some error => content +:+ " " +:+ error
        | None, None => content
        end in
      let input := getProp state "input" in
      if truthy input then
        content +:+ " " +:+
          match asString input with
          | Some s => s
          | None => JSON_stringify input
          end
      else content
  else if isStr type "compaction" then
    match asString (field part "summary") with
    | Some s => content +:+ " " +:+ s
    | None => content
    end
  else if isStr type "subtask" then
    let content :=
      match asString (field part "summary") with
      | Some s => content +:+ " " +:+ s
      | None => content
      end in
    match asString (field part "result") with
    | Some r => content +:+ " " +:+ r
    | None => content
    end
  else content.

Definition extractMessageContent `{JSONBuiltin} (msg : WithParts) : string :=
  let parts := match parts msg with Some ps => ps | None => [] end in
  fold_left extractPart parts EmptyString.

(** [arr.findIndex(p)]: the index of the first element that satisfies [p],
    [-1] when there is none. *)
Fixpoint findIndexFrom {A} (p : A → bool) (l : list A) (i : Z) : Z :=
  match l with
  | [] => -1
  | x :: l' => if p x then i else findIndexFrom p l' (i + 1)
  end.

Definition findIndex {A} (p : A → bool) (l : list A) : Z := findIndexFrom p l 0.

(** The two locals of the match finders: [matches] and [seenMessageIds]. *)
Definition MatchAcc : Type := list MatchResult * gset string.

(** Body of the loop over the compress summaries in [findExactMatches]. *)
Definition exactSummaryStep (messages : list WithParts) (searchString : string)
    (acc : MatchAcc) (s : CompressSummary) : MatchAcc :=
  if includes (summary s) searchString then
    let anchorIndex :=
      findIndex (λ m, String.eqb (id (info m)) (anchorMessageId s)) messages in
    if negb (anchorIndex =? -1) && negb (bool_decide (anchorMessageId s ∈ acc.2)) then
      (acc.1 ++ [ {| messageId := anchorMessageId s; messageIndex := anchorIndex;
                     score := 100; matchType := exact |} ],
       {[ anchorMessageId s ]} ∪ acc.2)
    else acc
  else acc.

(** The loop [for (let i = 0; i < messages.length; i++)] of
    [findExactMatches], from index [i] on. *)
Fixpoint exactMessageLoop `{JSONBuiltin} (searchString : string) (i : Z)
    (rest : list WithParts) (acc : MatchAcc) : MatchAcc :=
  match rest with
  | [] => acc
  | msg :: rest' =>
      let acc' :=
        if bool_decide (id (info msg) ∈ acc.2) then acc
        else
          let content := extractMessageContent msg in
          if includes content searchString then
            (acc.1 ++ [ {| messageId := id (info msg); messageIndex := i;
                           score := 100; matchType := exact |} ],
             {[ id (info msg) ]} ∪ acc.2)
          else acc in
      exactMessageLoop searchString (i + 1) rest' acc'
  end.

Definition findExactMatches `{JSONBuiltin} (messages : list WithParts)
    (searchString : string) (compressSummaries : list CompressSummary)
    : list MatchResult :=
  let acc := fold_left (exactSummaryStep messages searchString) compressSummaries ([], ∅) in
  (exactMessageLoop searchString 0 messages acc).1.

(** Body of the loop over the compress summaries in [findFuzzyMatches]. *)
Definition fuzzySummaryStep `{Fuzzball} (messages : list WithParts)
    (searchString : string) (minScore : Z)
    (acc : MatchAcc) (s : CompressSummary) : MatchAcc :=
  let score := partial_ratio searchString (summary s) in
  if minScore <=? score then
    let anchorIndex :=
      findIndex (λ m, String.eqb (id (info m)) (anchorMessageId s)) messages in
    if negb (anchorIndex =? -1) && negb (bool_decide (anchorMessageId s ∈ acc.2)) then
      (acc.1 ++ [ {| messageId := anchorMessageId s; messageIndex := anchorIndex;
                     score := score; matchType := fuzzy |} ],
       {[ anchorMessageId s ]} ∪ acc.2)
    else acc
  else acc.

(** The loop over the raw messages of [findFuzzyMatches], from index [i] on. *)
Fixpoint fuzzyMessageLoop `{JSONBuiltin} `{Fuzzball} (searchString : string)
    (minScore : Z) (i : Z) (rest : list WithParts) (acc : MatchAcc) : MatchAcc :=
  match rest with
  | [] => acc
  | msg :: rest' =>
      let acc' :=
        if bool_decide (id (info msg) ∈ acc.2) then acc
        else
          let content := extractMessageContent msg in
          let score := partial_ratio searchString content in
          if minScore <=? score then
            (acc.1 ++ [ {| messageId := id (info msg); messageIndex := i;
                           score := score; matchType := fuzzy |} ],
             {[ id (info msg) ]} ∪ acc.2)
          else acc in
      fuzzyMessageLoop searchString minScore (i + 1) rest' acc'
  end.

Definition findFuzzyMatches `{JSONBuiltin} `{Fuzzball} (messages : list WithParts)
    (searchString : string) (compressSummaries : list CompressSummary)
    (minScore : Z) : list MatchResult :=
  let acc :=
    fold_left (fuzzySummaryStep messages searchString minScore) compressSummaries ([], ∅) in
  (fuzzyMessageLoop searchString minScore 0 messages acc).1.

(** [Array.prototype.sort] is stable; with the comparator
    [(a, b) => b.score - a.score] it orders by score, highest first, and keeps
    candidates of equal score in their order of discovery. *)
Fixpoint insertByScore (x : MatchResult) (sorted : list MatchResult) : list MatchResult :=
  match sorted with
  | [] => [x]
  | y :: sorted' =>
      if score y <=? score x then x :: y :: sorted' else y :: insertByScore x sorted'
  end.

Definition sortByScoreDesc (l : list MatchResult) : list MatchResult :=
  foldr insertByScore [] l.

Inductive StringType := startString | endString.

Definition stringTypeName (t : StringType) : string :=
  match t with startString => "startString" | endString => "endString" end.

(** Template-literal rendering of an integer (decimal digits, a minus sign
    when negative), as for every integer below ten to the 21st. *)
Definition numberToString (n : Z) : string :=
  pretty n.

(** The three [throw new Error(...)] of [findStringInMessages]. *)
Inductive MatchError :=
  | MultipleExactMatches (stringType : StringType)
  | NotFoundInConversation (stringType : StringType)
  | AmbiguousFuzzyMatch (stringType : StringType) (bestScore secondScore : Z).

Definition errorMessage (e : MatchError) : string :=
  match e with
  | MultipleExactMatches t =>
      "Found multiple exact matches for " +:+ stringTypeName t +:+ ". " +:+
      "Provide more surrounding context to uniquely identify the intended match."
  | NotFoundInConversation t =>
      stringTypeName t +:+ " not found in conversation (exact or fuzzy). " +:+
      "Make sure the string exists and is spelled correctly."
  | AmbiguousFuzzyMatch t best second =>
      "Ambiguous fuzzy match for " +:+ stringTypeName t +:+ ": " +:+
      "two candidates scored similarly (" +:+ numberToString best +:+ "% vs " +:+
      numberToString second +:+ "%). " +:+
      "Provide more unique text to disambiguate."
  end.

(** The error taxonomy of the specification. *)
Inductive ErrorKind := AmbiguousMatch | NotFound.

Definition errorKind (e : MatchError) : ErrorKind :=
  match e with
  | MultipleExactMatches _ | AmbiguousFuzzyMatch _ _ _ => AmbiguousMatch
  | NotFoundInConversation _ => NotFound
  end.

Inductive Result (E A : Type) : Type :=
  | Ok (a : A)
  | Throw (e : E).
Arguments Ok {E A} a.
Arguments Throw {E A} e.

(** A line handed to the logger. *)
Inductive LogLine := LogInfo (msg : string) | LogDebug (msg : string).

(** The object [{ messageId, messageIndex }] that [findStringInMessages]
    returns. *)
Record Locator := { loc_messageId : string; loc_messageIndex : Z }.

Definition fuzzyLogLine (stringType : StringType) (best : MatchResult) : LogLine :=
  LogInfo ("Fuzzy matched " +:+ stringTypeName stringType +:+ " with " +:+
           numberToString (score best) +:+ "% confidence at message index " +:+
           numberToString (messageIndex best)).

(** The result of a search, next to the lines it logs. The callers pass the
    summaries and the thresholds; the source defaults them to no summary and
    to [DEFAULT_FUZZY_CONFIG]. *)
Definition findStringInMessages `{JSONBuiltin} `{Fuzzball}
    (messages : list WithParts) (searchString : string)
    (compressSummaries : list CompressSummary) (stringType : StringType)
    (fuzzyConfig : FuzzyConfig) : list LogLine * Result MatchError Locator :=
  (* PHASE 1: exact match *)
  let exactMatches := findExactMatches messages searchString compressSummaries in
  match exactMatches with
  | [m] => ([], Ok {| loc_messageId := messageId m; loc_messageIndex := messageIndex m |})
  | _ :: _ :: _ => ([], Throw (MultipleExactMatches stringType))
  | [] =>
      (* PHASE 2: fuzzy match *)
      let fuzzyMatches :=
        findFuzzyMatches messages searchString compressSummaries (minScore fuzzyConfig) in
      match fuzzyMatches with
      | [] => ([], Throw (NotFoundInConversation stringType))
      | _ :: _ =>
          match sortByScoreDesc fuzzyMatches with
          | [] =>
              (* not reached: sorting keeps the candidates
                 ([sortByScoreDesc_perm]) *)
              ([], Throw (NotFoundInConversation stringType))
          | best :: tail =>
              let accept :=
                ([fuzzyLogLine stringType best],
                 Ok {| loc_messageId := messageId best;
                       loc_messageIndex := messageIndex best |}) in
              match tail with
              | secondBest :: _ =>
                  if score best - score secondBest <? minGap fuzzyConfig
                  then ([], Throw (AmbiguousFuzzyMatch stringType (score best) (score secondBest)))
                  else accept
              | [] => accept
              end
          end
      end
  end.

(** ** lib/tools/distill.ts: the distill tool *)

(** The double-quote character, for the messages that contain one. *)
Definition dq : string := String (ascii_of_nat 34) EmptyString.

(** [v.length] on an array; [arrayItems] is [[]] on anything else. *)
Definition isArray (v : JsVal) : bool :=
  match v with JArr _ => true | _ => false end.

Definition arrayItems (v : JsVal) : list JsVal :=
  match v with JArr items => items | _ => [] end.

(** The call [executePruneOperation(ctx, toolCtx, ids, reason, toolName,
    distillation)] that [execute] ends with; the operation itself lives in
    [prune-shared]. *)
Record PruneCall := {
  call_ids : list JsVal;
  call_reason : string;
  call_toolName : string;
  call_distillation : list JsVal
}.

Definition MISSING_IDS : string :=
  "Missing ids. You must provide at least one ID to distill.".

Definition INVALID_IDS : string :=
  "Invalid ids. All IDs must be numeric strings (e.g., " +:+ dq +:+ "1" +:+ dq +:+
  ", " +:+ dq +:+ "23" +:+ dq +:+ ") from the <prunable-tools> list.".

Definition MISSING_DISTILLATION : string :=
  "Missing distillation. You must provide an array of strings (e.g., [" +:+
  dq +:+ "summary 1" +:+ dq +:+ ", " +:+ dq +:+ "summary 2" +:+ dq +:+ "]).".

Definition INVALID_DISTILLATION : string :=
  "Invalid distillation. All distillation entries must be strings.".

(** [typeof id === "string" && id.trim() !== ""]. *)
Definition validId (v : JsVal) : bool :=
  match asString v with
  | Some s => negb (String.eqb (trim s) EmptyString)
  | None => false
  end.

(** [typeof d === "string"]. *)
Definition validDistillation (v : JsVal) : bool :=
  match asString v with Some _ => true | None => false end.

(** [execute(args, toolCtx)] of the tool built by [createDistillTool]: the
    debug lines it logs, and either the error it throws or the prune call it
    delegates to. *)
Definition execute `{JSONBuiltin} (args : JsObject)
    : list LogLine * Result string PruneCall :=
  let ids := field args "ids" in
  let distillation := field args "distillation" in
  if negb (truthy ids) || negb (isArray ids) || (length (arrayItems ids) =? 0)%nat then
    ([LogDebug ("Distill tool called without ids: " +:+ JSON_stringify (JObj args))],
     Throw MISSING_IDS)
  else if negb (forallb validId (arrayItems ids)) then
    ([LogDebug ("Distill tool called with invalid ids: " +:+ JSON_stringify (JObj args))],
     Throw INVALID_IDS)
  else if negb (truthy distillation) || negb (isArray distillation)
          || (length (arrayItems distillation) =? 0)%nat then
    ([LogDebug ("Distill tool called without distillation: " +:+ JSON_stringify (JObj args))],
     Throw MISSING_DISTILLATION)
  else if negb (forallb validDistillation (arrayItems distillation)) then
    ([LogDebug ("Distill tool called with non-string distillation: " +:+
                JSON_stringify (JObj args))],
     Throw INVALID_DISTILLATION)
  else
    ([], Ok {| call_ids := arrayItems ids; call_reason := "extraction";
               call_toolName := "Distill";
               call_distillation := arrayItems distillation |}).

(** ** lib/fetch-wrapper/formats: the Anthropic descriptor *)

(** A text block [{ type: 'text', text }] of the system channel. *)
Definition textBlock (text : string) : JsVal :=
  JObj [("type", JStr "text"); ("text", JStr text)].

Definition isUndefined (v : JsVal) : bool :=
  match v with JUndefined => true | _ => false end.

Module anthropicFormat.

Definition detect (body : JsObject) : bool :=
  negb (isUndefined (field body "system")) && isArray (field body "messages").

(** The body is changed in place; the embedding returns the changed body
    next to the result. *)
Definition injectSystemMessage (body : JsObject) (injection : string)
    : JsObject * bool :=
  let body :=
    match field body "system" with
    | JStr s => setField body "system" (JArr [textBlock s])
    | JArr _ => body
    | _ => setField body "system" (JArr [])
    end in
  let body :=
    setField body "system"
      (JArr (arrayItems (field body "system") ++ [textBlock injection])) in
  (body, true).

(** [block.type === 'tool_result'] with a [tool_use_id] equal, once both are
    in lower case, to the identifier asked for. *)
Definition matchesToolResult (toolIdLower : string) (block : JsVal) : bool :=
  isStr (getProp block "type") "tool_result" &&
  match asString (getProp block "tool_use_id") with
  | Some i => String.eqb (toLowerCase i) toolIdLower
  | None => false
  end.

(** [{ ...block, content: prunedMessage }]. *)
Definition prunedBlock (prunedMessage : string) (block : JsVal) : JsVal :=
  match block with
  | JObj props => JObj (setField props "content" (JStr prunedMessage))
  | _ => block
  end.

Definition replaceInBlocks (toolIdLower prunedMessage : string)
    (blocks : list JsVal) : list JsVal :=
  map (λ block, if matchesToolResult toolIdLower block
                then prunedBlock prunedMessage block else block) blocks.

(** One message of the request: a user message whose content is a list of
    blocks gets its matching tool results rewritten. *)
Definition replaceInMessage (toolIdLower prunedMessage : string)
    (m : JsVal) : JsVal * bool :=
  match m with
  | JObj props =>
      match isStr (field props "role") "user", field props "content" with
      | true, JArr blocks =>
          if existsb (matchesToolResult toolIdLower) blocks then
            (JObj (setField props "content"
                     (JArr (replaceInBlocks toolIdLower prunedMessage blocks))),
             true)
          else (m, false)
      | _, _ => (m, false)
      end
  | _ => (m, false)
  end.

(** Modelled from the spec: the body of [replaceToolOutput] in
    [lib/fetch-wrapper/formats/anthropic.ts] is missing; the notes keep its
    signature, the object it builds for a matching block
    ([{ ...block, content: prunedMessage }]) and its description: it looks
    in user messages for [tool_result] blocks, compares [tool_use_id] in
    lower case, replaces the content field of each matching block, keeps
    the other properties of the block and answers whether it replaced
    anything. The message list is changed in place; the embedding returns
    the changed list next to the result. *)
Definition replaceToolOutput (data : list JsVal) (toolId prunedMessage : string)
    : list JsVal * bool :=
  let toolIdLower := toLowerCase toolId in
  let results := map (replaceInMessage toolIdLower prunedMessage) data in
  (map fst results, existsb snd results).

End anthropicFormat.

(** ** lib/fetch-wrapper: the detection chain *)

(** The notes comment each predicate of the chain with the fields it asks
    for. Only the Anthropic predicate has its source in the notes; its four
    siblings are modelled from their comments. *)

Module openaiResponsesFormat.
(** Modelled from the spec: [openaiResponsesFormat.detect] is missing; the
    notes describe it as [has body.input (not body.messages)], the
    specification as a distinguishing field unique to the flat input shape:
    a top-level [input], and no messages array. *)
Definition detect (body : JsObject) : bool :=
  negb (isUndefined (field body "input")) && negb (isArray (field body "messages")).
End openaiResponsesFormat.

Module bedrockFormat.
(** Modelled from the spec: [bedrockFormat.detect] is missing; the notes
    describe it as [has body.system + body.inferenceConfig + body.messages]. *)
Definition detect (body : JsObject) : bool :=
  negb (isUndefined (field body "system")) &&
  negb (isUndefined (field body "inferenceConfig")) &&
  isArray (field body "messages").
End bedrockFormat.

Module openaiChatFormat.
(** Modelled from the spec: [openaiChatFormat.detect] is missing; the notes
    describe it as [has body.messages (no top-level system)], the
    specification as a shape carrying a messages array. It holds of Anthropic
    bodies too: the notes place the Anthropic predicate before it for that
    reason. *)
Definition detect (body : JsObject) : bool := isArray (field body "messages").
End openaiChatFormat.

Module geminiFormat.
(** Modelled from the spec: [geminiFormat.detect] is missing; the notes
    describe it as [has body.contents], the specification as a top-level
    contents array. *)
Definition detect (body : JsObject) : bool := isArray (field body "contents").
End geminiFormat.






(** ** Instances of the external collaborators, for running the model *)

Definition hexDigit (n : nat) : ascii :=
  ascii_of_nat (if (n <? 10)%nat then 48 + n else 87 + n).

(** The escape of one character inside a JSON string. *)
Definition jsonEscapeChar (c : ascii) : string :=
  let n := nat_of_ascii c in
  let bs := String (ascii_of_nat 92) EmptyString in
  if (n =? 34)%nat then bs +:+ dq
  else if (n =? 92)%nat then bs +:+ bs
  else if (n =? 8)%nat then bs +:+ "b"
  else if (n =? 9)%nat then bs +:+ "t"
  else if (n =? 10)%nat then bs +:+ "n"
  else if (n =? 12)%nat then bs +:+ "f"
  else if (n =? 13)%nat then bs +:+ "r"
  else if (n <? 32)%nat then
    bs +:+ "u00" +:+ String (hexDigit (n / 16)) (String (hexDigit (n mod 16)) EmptyString)
  else String c EmptyString.

Fixpoint jsonEscape (s : string) : string :=
  match s with
  | EmptyString => EmptyString
  | String c s' => jsonEscapeChar c +:+ jsonEscape s'
  end.

Definition jsonQuote (s : string) : string := dq +:+ jsonEscape s +:+ dq.

Fixpoint joinWith (sep : string) (l : list string) : string :=
  match l with
  | [] => EmptyString
  | [x] => x
  | x :: l' => x +:+ sep +:+ joinWith sep l'
  end.

(** [JSON.stringify(v)] without indentation; [None] is [undefined]. Inside an
    array [undefined] prints as [null]; a property whose value is
    [undefined] is left out. *)
Fixpoint jsonText (v : JsVal) : option string :=
  match v with
  | JUndefined => None
  | JNull => Some "null"
  | JBool b => Some (if b then "true" else "false")
  | JNum n => Some (numberToString n)
  | JStr s => Some (jsonQuote s)
  | JArr items =>
      Some ("[" +:+ joinWith "," (List.map (λ x, default "null" (jsonText x)) items) +:+ "]")
  | JObj props =>
      let member (kv : string * JsVal) : list string :=
        match jsonText (snd kv) with
        | Some t => [jsonQuote (fst kv) +:+ ":" +:+ t]
        | None => []
        end in
      Some ("{" +:+ joinWith "," (List.flat_map member props) +:+ "}")
  end.

(** [JSON.stringify] as the modelled code uses it, inside a string
    concatenation. *)
Definition standardJSON : JSONBuiltin :=
  {| JSON_stringify := λ v, default "undefined" (jsonText v) |}.

(** The length of the longest prefix of [s] that [t] starts with. *)
Fixpoint commonPrefixLength (s t : string) : nat :=
  match s, t with
  | String a s', String b t' =>
      if Ascii.eqb a b then S (commonPrefixLength s' t') else 0%nat
  | _, _ => 0%nat
  end.

(** The longest prefix of [s] found at some position of [t]. *)
Fixpoint bestPrefixLength (s t : string) : nat :=
  match t with
  | EmptyString => 0%nat
  | String _ t' => Nat.max (commonPrefixLength s t) (bestPrefixLength s t')
  end.

(** A scorer for running the engine on examples: the share of the search
    string, in percent, that reads as a prefix somewhere in the text. It stands
    in for fuzzball's [partial_ratio] in the examples only; every theorem
    below holds for all scorers. *)
Definition prefixRatio : Fuzzball :=
  {| partial_ratio := λ s t,
       if (String.length s =? 0)%nat then 100
       else Z.of_nat (100 * bestPrefixLength s t / String.length s) |}.

(** ** The content extractor as the specification words it *)

(** The text fragments of one part, in the order the specification lists
    them: the text of a text or reasoning part; for a tool part the output
    when the status is completed or the error when the status is error, then
    the input (as it is when a string, as JSON otherwise); the summary of a
    compaction part; the summary then the result of a subtask part. A field
    that is absent, or not a string where a string is asked for, gives no
    fragment. Here an absent input is [undefined] or [null]. *)
Definition specFragments `{JSONBuiltin} (part : Part) : list string :=
  let text (v : JsVal) : list string :=
    match v with JStr s => [s] | _ => [] end in
  if isStr (field part "type") "text" || isStr (field part "type") "reasoning" then
    text (field part "text")
  else if isStr (field part "type") "tool" then
    let state := field part "state" in
    (if isStr (getProp state "status") "completed" then text (getProp state "output")
     else if isStr (getProp state "status") "error" then text (getProp state "error")
     else []) ++
    match getProp state "input" with
    | JUndefined | JNull => []
    | JStr s => [s]
    | input => [JSON_stringify input]
    end
  else if isStr (field part "type") "compaction" then
    text (field part "summary")
  else if isStr (field part "type") "subtask" then
    text (field part "summary") ++ text (field part "result")
  else [].

(** The fragments the source keeps: as above, but the input of a tool part
    counts only when it is truthy. *)
Definition keptFragments `{JSONBuiltin} (part : Part) : list string :=
  let text (v : JsVal) : list string :=
    match v with JStr s => [s] | _ => [] end in
  if isStr (field part "type") "text" || isStr (field part "type") "reasoning" then
    text (field part "text")
  else if isStr (field part "type") "tool" then
    let state := field part "state" in
    (if isStr (getProp state "status") "completed" then text (getProp state "output")
     else if isStr (getProp state "status") "error" then text (getProp state "error")
     else []) ++
    (if truthy (getProp state "input") then
       match getProp state "input" with
       | JStr s => [s]
       | input => [JSON_stringify input]
       end
     else [])
  else if isStr (field part "type") "compaction" then
    text (field part "summary")
  else if isStr (field part "type") "subtask" then
    text (field part "summary") ++ text (field part "result")
  else [].

(** Space-separated concatenation, every fragment led by one space. *)
Fixpoint spaced (fragments : list string) : string :=
  match fragments with
  | [] => EmptyString
  | f :: fs => " " +:+ f +:+ spaced fs
  end.

Definition partsOf (msg : WithParts) : list Part :=
  match parts msg with Some ps => ps | None => [] end.

Definition specExtract `{JSONBuiltin} (msg : WithParts) : string :=
  spaced (List.flat_map specFragments (partsOf msg)).

(** ** The common shape of the two match finders *)

(** [findExactMatches] and [findFuzzyMatches] are the same two loops around
    different tests. [scan] is that shape, with the test on a summary and the
    test on a message as parameters: each answers the score and the match type
    of the candidate it accepts. The finders are shown equal to instances of
    it, and the facts about candidates are proved once, on [scan]. *)

Definition anchorIndexOf (messages : list WithParts) (s : CompressSummary) : Z :=
  findIndex (λ m, String.eqb (id (info m)) (anchorMessageId s)) messages.

Definition push (acc : MatchAcc) (m : MatchResult) : MatchAcc :=
  (acc.1 ++ [m], {[ messageId m ]} ∪ acc.2).

Section Scan.
Context (sumHit : CompressSummary → option (Z * MatchType)).
Context (msgHit : WithParts → option (Z * MatchType)).

Definition scanSummaryStep (messages : list WithParts)
    (acc : MatchAcc) (s : CompressSummary) : MatchAcc :=
  match sumHit s with
  | Some (sc, ty) =>
      if negb (anchorIndexOf messages s =? -1)
         && negb (bool_decide (anchorMessageId s ∈ acc.2))
      then push acc {| messageId := anchorMessageId s;
                       messageIndex := anchorIndexOf messages s;
                       score := sc; matchType := ty |}
      else acc
  | None => acc
  end.

Fixpoint scanMessageLoop (i : Z) (rest : list WithParts) (acc : MatchAcc) : MatchAcc :=
  match rest with
  | [] => acc
  | msg :: rest' =>
      scanMessageLoop (i + 1) rest'
        (if bool_decide (id (info msg) ∈ acc.2) then acc
         else match msgHit msg with
              | Some (sc, ty) =>
                  push acc {| messageId := id (info msg); messageIndex := i;
                              score := sc; matchType := ty |}
              | None => acc
              end)
  end.

Definition scanSummaries (messages : list WithParts)
    (compressSummaries : list CompressSummary) : MatchAcc :=
  fold_left (scanSummaryStep messages) compressSummaries ([], ∅).

Definition scan (messages : list WithParts)
    (compressSummaries : list CompressSummary) : list MatchResult :=
  (scanMessageLoop 0 messages (scanSummaries messages compressSummaries)).1.
End Scan.

Definition exactSummaryHit (searchString : string) (s : CompressSummary)
    : option (Z * MatchType) :=
  if includes (summary s) searchString then Some (100, exact) else None.

Definition exactMessageHit `{JSONBuiltin} (searchString : string) (msg : WithParts)
    : option (Z * MatchType) :=
  if includes (extractMessageContent msg) searchString then Some (100, exact) else None.

Definition fuzzySummaryHit `{Fuzzball} (searchString : string) (minScore : Z)
    (s : CompressSummary) : option (Z * MatchType) :=
  if minScore <=? partial_ratio searchString (summary s)
  then Some (partial_ratio searchString (summary s), fuzzy) else None.

Definition fuzzyMessageHit `{JSONBuiltin} `{Fuzzball} (searchString : string)
    (minScore : Z) (msg : WithParts) : option (Z * MatchType) :=
  if minScore <=? partial_ratio searchString (extractMessageContent msg)
  then Some (partial_ratio searchString (extractMessageContent msg), fuzzy) else None.

(** The candidates of the exact phase that come from compress summaries. *)
Definition exactSummaryMatches (messages : list WithParts) (searchString : string)
    (compressSummaries : list CompressSummary) : list MatchResult :=
  (fold_left (exactSummaryStep messages searchString) compressSummaries ([], ∅)).1.

(** A summary is anchored when some message carries its [anchorMessageId]. *)
Definition anchored (messages : list WithParts) (s : CompressSummary) : bool :=
  existsb (λ m, String.eqb (id (info m)) (anchorMessageId s)) messages.

(** Highest score first. *)
Definition descending (l : list MatchResult) : Prop :=
  StronglySorted (λ a b, score b ≤ score a) l.

(** ** Invariant and provenance of the candidates *)

(** [seenMessageIds] holds exactly the identifiers of [matches], and no two
    candidates share an identifier. *)
Definition accOk (acc : MatchAcc) : Prop :=
  (∀ x, x ∈ acc.2 ↔ x ∈ map messageId acc.1) ∧ NoDup (map messageId acc.1).

(** The candidate stands for a summary of the list: it carries the score and
    type the test gave, the summary's anchor and the index [findIndex] found
    for it. *)
Definition fromSummary (sumHit : CompressSummary → option (Z * MatchType))
    (messages : list WithParts) (compressSummaries : list CompressSummary)
    (c : MatchResult) : Prop :=
  ∃ s, s ∈ compressSummaries ∧ sumHit s = Some (score c, matchType c) ∧
       messageId c = anchorMessageId s ∧
       messageIndex c = anchorIndexOf messages s ∧ anchorIndexOf messages s ≠ (-1).

(** The candidate stands for the message at its index. *)
Definition fromMessage (msgHit : WithParts → option (Z * MatchType))
    (messages : list WithParts) (c : MatchResult) : Prop :=
  ∃ msg, 0 ≤ messageIndex c ∧ messages !! Z.to_nat (messageIndex c) = Some msg ∧
         id (info msg) = messageId c ∧ msgHit msg = Some (score c, matchType c).

(** The index of a candidate points at a message with the candidate's
    identifier. *)
Definition locates (messages : list WithParts) (mid : string) (idx : Z) : Prop :=
  ∃ msg, 0 ≤ idx ∧ messages !! Z.to_nat idx = Some msg ∧ id (info msg) = mid.

(** ** Sample conversations *)

Definition textMessage (mid text : string) : WithParts :=
  {| info := {| id := mid |};
     parts := Some [ [("type", JStr "text"); ("text", JStr text)] ] |}.

(** The conversation of the specification's example. *)
Definition sampleConversation : list WithParts :=
  [textMessage "m1" "alpha beta"; textMessage "m2" "gamma"].

(** Two messages that both hold the word alpha. *)
Definition echoConversation : list WithParts :=
  [textMessage "m1" "alpha beta"; textMessage "m2" "gamma alpha"].

(** Two messages that hold 19 and 18 of the 20 letters searched for. *)
Definition nearConversation : list WithParts :=
  [textMessage "m1" "abcdefghijklmnopqrs"; textMessage "m2" "abcdefghijklmnopqr"].

(** Two messages that hold the first 12 and the first 19 of 20 letters, and
    thresholds that let both in: under [prefixRatio] they score 60 and 95. *)
Definition apartConversation : list WithParts :=
  [textMessage "m1" "abcdefghijkl"; textMessage "m2" "abcdefghijklmnopqrs"].

Definition lowFloorConfig : FuzzyConfig :=
  {| minScore := 50; minGap := 15 |}.

(** Three messages that hold the first 12, 19 and 11 of 20 letters: under
    [prefixRatio] they score 60, 95 and 55. *)
Definition spreadConversation : list WithParts :=
  [textMessage "m1" "abcdefghijkl"; textMessage "m2" "abcdefghijklmnopqrs";
   textMessage "m3" "abcdefghijk"].

(** A summary whose anchor is no message of the sample conversation. *)
Definition orphanSummary : CompressSummary :=
  {| anchorMessageId := "m9"; summary := "omega delta" |}.

(** A summary that stands for the second message and holds the word alpha. *)
Definition anchoredSummary : CompressSummary :=
  {| anchorMessageId := "m2"; summary := "alpha, in short" |}.

(** A completed tool call whose input is an object. *)
Definition toolMessage : WithParts :=
  {| info := {| id := "m3" |};
     parts := Some [ [("type", JStr "text"); ("text", JStr "running")];
                     [("type", JStr "tool");
                      ("state", JObj [("status", JStr "completed");
                                      ("output", JStr "out");
                                      ("input", JObj [("path", JStr "a.ts");
                                                      ("limit", JNum 10)])])] ] |}.

(** A completed tool call whose input is the number zero. *)
Definition zeroInputMessage : WithParts :=
  {| info := {| id := "m1" |};
     parts := Some [ [("type", JStr "tool");
                      ("state", JObj [("status", JStr "completed");
                                      ("output", JStr "out");
                                      ("input", JNum 0)])] ] |}.

(** A completed tool call whose input is the empty string. *)
Definition emptyInputMessage : WithParts :=
  {| info := {| id := "m2" |};
     parts := Some [ [("type", JStr "tool");
                      ("state", JObj [("status", JStr "completed");
                                      ("output", JStr "out");
                                      ("input", JStr EmptyString)])] ] |}.

(** The input of a tool part is absent ([undefined] or [null]) or truthy. *)
Definition inputAbsentOrTruthy (part : Part) : Prop :=
  let input := getProp (field part "state") "input" in
  isStr (field part "type") "tool" = true →
  input = JUndefined ∨ input = JNull ∨ truthy input = true.

(** ** The argument checks of the distill tool, as the specification words them *)

Fixpoint allWhiteSpace (s : string) : bool :=
  match s with
  | EmptyString => true
  | String c s' => isWhiteSpace c && allWhiteSpace s'
  end.

(** An entry of [ids] that is not a string, or is made of white space only. *)
Definition badId (v : JsVal) : Prop :=
  match v with
  | JStr s => allWhiteSpace s = true
  | _ => True
  end.

Definition notAString (v : JsVal) : Prop :=
  match v with
  | JStr _ => False
  | _ => True
  end.

(** [ids] is missing, not an array, empty, or holds a bad entry. *)
Definition idsRejected (ids : JsVal) : Prop :=
  ids = JUndefined ∨ isArray ids = false ∨ ids = JArr [] ∨
  (∃ items, ids = JArr items ∧ Exists badId items).

(** [distillation] is missing, not an array, empty, or holds an entry that is
    not a string. *)
Definition distillationRejected (distillation : JsVal) : Prop :=
  distillation = JUndefined ∨ isArray distillation = false ∨ distillation = JArr [] ∨
  (∃ items, distillation = JArr items ∧ Exists notAString items).

(** An id made of white space only. *)
Definition blankIdArgs : JsObject :=
  [("ids", JArr [JStr "1"; JStr "  "]); ("distillation", JArr [JStr "one summary"])].

(** Two ids, one distillation string. *)
Definition mismatchedArgs : JsObject :=
  [("ids", JArr [JStr "1"; JStr "2"]); ("distillation", JArr [JStr "one summary"])].

(** ** Frame conditions of the Anthropic descriptor *)

(** The properties of an object other than [content], in their order. *)
Definition siblings (v : JsVal) : list (string * JsVal) :=
  match v with
  | JObj props => List.filter (λ kv, negb (String.eqb kv.1 "content")) props
  | _ => []
  end.

(** What may happen to a content block: a matching tool result gets the new
    content and keeps every other property; any other block is untouched. *)
Definition blockFrame (toolIdLower prunedMessage : string) (b b' : JsVal) : Prop :=
  if anthropicFormat.matchesToolResult toolIdLower b
  then getProp b' "content" = JStr prunedMessage ∧ siblings b' = siblings b ∧
       (∀ k, k ≠ "content" → getProp b' k = getProp b k)
  else b' = b.

(** The message is a user message with a tool result for the identifier. *)
Definition hasToolResult (toolIdLower : string) (m : JsVal) : bool :=
  isStr (getProp m "role") "user" &&
  existsb (anthropicFormat.matchesToolResult toolIdLower)
    (arrayItems (getProp m "content")).

(** What may happen to a message: with a tool result for the identifier, its
    content blocks change within [blockFrame] and its other properties stay;
    any other message is untouched. *)
Definition messageFrame (toolIdLower prunedMessage : string) (m m' : JsVal) : Prop :=
  if hasToolResult toolIdLower m
  then ∃ blocks blocks',
         getProp m "content" = JArr blocks ∧ getProp m' "content" = JArr blocks' ∧
         siblings m' = siblings m ∧
         Forall2 (blockFrame toolIdLower prunedMessage) blocks blocks'
  else m' = m.

(** The bodies of the format tests. *)
Definition stringSystemBody : JsObject :=
  [("system", JStr "Original system"); ("messages", JArr [])].

Definition listSystemBody : JsObject :=
  [("system", JArr [JObj [("type", JStr "text"); ("text", JStr "Original")]]);
   ("messages", JArr [])].

Definition toolResultMessages : list JsVal :=
  [JObj [("role", JStr "user");
         ("content", JArr [JObj [("type", JStr "tool_result");
                                 ("tool_use_id", JStr "toolu_456");
                                 ("content", JStr "Original content");
                                 ("is_error", JBool false)]])]].



(** ** lib/tools/distill.ts: the range collector *)

(** The [TypeError] of reading a property of [messages[i]] when the index is
    outside the list. *)
Inductive RangeError := MessageUndefined (i : Z).

(** [messages[i]]: [None] is [undefined]. *)
Definition messageAt (messages : list WithParts) (i : Z) : option WithParts :=
  if i <? 0 then None else messages !! Z.to_nat i.

(** [for (let i = ...; ...; i++) { const msg = messages[i]; ... }] with
    [steps] iterations left: the loop the three collectors share. Each reads
    a property of [msg] first, which throws when [msg] is [undefined]. *)
Fixpoint rangeLoop {A} (body : A → WithParts → A) (messages : list WithParts)
    (steps : nat) (i : Z) (acc : A) : Result RangeError A :=
  match steps with
  | O => Ok acc
  | S steps' =>
      match messageAt messages i with
      | None => Throw (MessageUndefined i)
      | Some msg => rangeLoop body messages steps' (i + 1) (body acc msg)
      end
  end.

(** [for (let i = startIndex; i <= endIndex; i++)]. *)
Definition forRange {A} (body : A → WithParts → A) (messages : list WithParts)
    (startIndex endIndex : Z) (acc : A) : Result RangeError A :=
  rangeLoop body messages (Z.to_nat (endIndex - startIndex + 1)) startIndex acc.

(** [if (!ids.includes(x)) ids.push(x)]. *)
Definition pushUnique (ids : list string) (x : string) : list string :=
  if bool_decide (x ∈ ids) then ids else ids ++ [x].

(** [a === b] between two values, none of them [NaN], which is what
    [includes] asks of each entry: primitives are equal by value; an object
    or an array is equal to itself only. The values of the embedding are
    trees without sharing, so that an object met in one place of a
    conversation and an object met in another are two objects. *)
Definition sameValueZero (a b : JsVal) : bool :=
  match a, b with
  | JUndefined, JUndefined => true
  | JNull, JNull => true
  | JBool x, JBool y => Bool.eqb x y
  | JNum x, JNum y => x =? y
  | JStr x, JStr y => String.eqb x y
  | _, _ => false
  end.

(** [ids.includes(x)] on a list of values. *)
Definition includesValue (ids : list JsVal) (x : JsVal) : bool :=
  existsb (sameValueZero x) ids.

(** [if (!toolIds.includes(x)) toolIds.push(x)]. *)
Definition pushUniqueValue (ids : list JsVal) (x : JsVal) : list JsVal :=
  if includesValue ids x then ids else ids ++ [x].

(** [part.callID] when it is truthy: a string by the type of a tool part; the
    test is on truthiness alone, so that any other truthy value a part
    carries there is collected as well. *)
Definition callIDOf (part : Part) : option JsVal :=
  if truthy (field part "callID") then Some (field part "callID") else None.

(** Body of the loop over the parts in [collectToolIdsInRange]. *)
Definition collectToolIdStep (toolIds : list JsVal) (part : Part) : list JsVal :=
  if isStr (field part "type") "tool" then
    match callIDOf part with
    | Some callID => pushUniqueValue toolIds callID
    | None => toolIds
    end
  else toolIds.

Definition collectToolIdsInRange (messages : list WithParts)
    (startIndex endIndex : Z) : Result RangeError (list JsVal) :=
  forRange (λ toolIds msg, fold_left collectToolIdStep (partsOf msg) toolIds)
    messages startIndex endIndex [].

Definition collectMessageIdsInRange (messages : list WithParts)
    (startIndex endIndex : Z) : Result RangeError (list string) :=
  forRange (λ messageIds msg, pushUnique messageIds (id (info msg)))
    messages startIndex endIndex [].

(** [typeof v === "string" ? v : JSON.stringify(v)], on a truthy value. *)
Definition stringified `{JSONBuiltin} (v : JsVal) : JsVal :=
  match v with
  | JStr s => JStr s
  | _ => JStr (JSON_stringify v)
  end.

(** What one part pushes on [contents] in [collectContentInRange]: the text
    of a text part as it is (no test on its type); for a tool part the input,
    then the output or the error, each when truthy. *)
Definition partContents `{JSONBuiltin} (part : Part) : list JsVal :=
  if isStr (field part "type") "text" then [field part "text"]
  else if isStr (field part "type") "tool" then
    let toolState := field part "state" in
    (if truthy (getProp toolState "input")
     then [stringified (getProp toolState "input")] else []) ++
    (if isStr (getProp toolState "status") "completed"
        && truthy (getProp toolState "output")
     then [stringified (getProp toolState "output")]
     else if isStr (getProp toolState "status") "error"
             && truthy (getProp toolState "error")
     then [stringified (getProp toolState "error")]
     else [])
  else [].

Definition collectContentInRange `{JSONBuiltin} (messages : list WithParts)
    (startIndex endIndex : Z) : Result RangeError (list JsVal) :=
  forRange (λ contents msg,
              fold_left (λ contents part, contents ++ partContents part)
                (partsOf msg) contents)
    messages startIndex endIndex [].

(** The messages of the inclusive range, when it lies inside the list. *)
Definition slice (messages : list WithParts) (startIndex endIndex : Z)
    : list WithParts :=
  take (Z.to_nat (endIndex - startIndex + 1)) (drop (Z.to_nat startIndex) messages).

(** The range is empty or lies inside the list. *)
Definition inRange (messages : list WithParts) (startIndex endIndex : Z) : Prop :=
  endIndex < startIndex ∨ (0 ≤ startIndex ∧ endIndex < Z.of_nat (length messages)).

(** The elements of a list in the order of their first occurrence. *)
Definition firstSeen (l : list string) : list string :=
  reverse (remove_dups (reverse l)).

(** The index at which a range that leaves the list makes the loop throw. *)
Definition firstOutside (messages : list WithParts) (startIndex : Z) : Z :=
  if startIndex <? 0 then startIndex
  else Z.max startIndex (Z.of_nat (length messages)).

(** A value that is neither an object nor an array. *)
Definition isPrimitive (v : JsVal) : bool :=
  match v with JArr _ | JObj _ => false | _ => true end.

(** A list of values without the primitives that come again later in it. *)
Fixpoint lastSeenValues (l : list JsVal) : list JsVal :=
  match l with
  | [] => []
  | x :: l' => if includesValue l' x then lastSeenValues l' else x :: lastSeenValues l'
  end.

(** The values of a list in the order of their first occurrence: a primitive
    is kept where it comes first, an object or an array every time. *)
Definition firstSeenValues (l : list JsVal) : list JsVal :=
  reverse (lastSeenValues (reverse l)).

(** The truthy [callID] values of the tool parts of a message, in part
    order. *)
Definition toolCallIds (msg : WithParts) : list JsVal :=
  List.flat_map (λ part, if isStr (field part "type") "tool"
                            && truthy (field part "callID")
                         then [field part "callID"]
                         else [])
    (partsOf msg).

(** A message with two tool calls, one of them repeated. *)
Definition toolCallsMessage (mid : string) : WithParts :=
  {| info := {| id := mid |};
     parts := Some [ [("type", JStr "tool"); ("callID", JStr "call_1")];
                     [("type", JStr "text"); ("text", JStr "between")];
                     [("type", JStr "tool"); ("callID", JStr "call_2")];
                     [("type", JStr "tool"); ("callID", JStr "call_1")] ] |}.

Definition rangeConversation : list WithParts :=
  [textMessage "m1" "alpha beta"; toolCallsMessage "m2"; textMessage "m3" "gamma";
   toolCallsMessage "m2"].

(** Tool parts whose [callID] is a number, a string, the same number again,
    zero, the empty string, and an object that comes twice; and a text part
    that carries a [callID]. *)
Definition oddCallsMessage : WithParts :=
  {| info := {| id := "m1" |};
     parts := Some [ [("type", JStr "tool"); ("callID", JNum 7)];
                     [("type", JStr "tool"); ("callID", JStr "call_9")];
                     [("type", JStr "tool"); ("callID", JNum 7)];
                     [("type", JStr "tool"); ("callID", JNum 0)];
                     [("type", JStr "tool"); ("callID", JStr EmptyString)];
                     [("type", JStr "tool"); ("callID", JObj [("n", JNum 1)])];
                     [("type", JStr "text"); ("callID", JStr "call_5")];
                     [("type", JStr "tool"); ("callID", JObj [("n", JNum 1)])];
                     [("type", JStr "tool")] ] |}.

(** ** More on the distill tool and the Anthropic descriptor *)

(** The value is not an array with an element: what the first and the third
    test of [execute] reject. *)
Definition notNonEmptyArray (v : JsVal) : Prop :=
  isArray v = false ∨ v = JArr [].

(** The blocks of the system channel as [injectSystemMessage] sees them: a
    string is one text block, a list is itself, anything else (absent, or a
    value that is neither a string nor a list) is no block. *)
Definition systemBlocks (body : JsObject) : list JsVal :=
  match field body "system" with
  | JStr s => [JObj [("type", JStr "text"); ("text", JStr s)]]
  | JArr items => items
  | _ => []
  end.

(** The body after injecting the texts one after the other. *)
Definition injectAll (body : JsObject) (texts : list string) : JsObject :=
  fold_left (λ b text, (anthropicFormat.injectSystemMessage b text).1) texts body.

(** A body whose system channel is one block object, not in a list. *)
Definition blockSystemBody : JsObject :=
  [("system", JObj [("type", JStr "text"); ("text", JStr "Original system")]);
   ("messages", JArr [])].

(** Both arguments wrong: no ids, and a number among the distillations. *)
Definition doublyWrongArgs : JsObject :=
  [("ids", JArr []); ("distillation", JArr [JNum 1])].

(** ** Model selection and fallback *)

Record ModelInfo := { providerID : string; modelID : string }.

Record ModelTierConfig := {
  tier1Models : list string;
  tier2Models : list string
}.

(** The own properties of the [MODEL_TIERS] object. *)
Definition MODEL_TIERS : list (string * ModelTierConfig) :=
  [ ("openai",
     {| tier1Models := ["gpt-5.1-codex"; "gpt-5.1"; "gpt-5"; "gpt-4o"; "gpt-4-turbo"];
        tier2Models := ["gpt-5.1-codex-mini"; "gpt-5-mini"; "gpt-5-nano";
                        "gpt-4.1-mini"; "gpt-4o-mini"; "gpt-3.5-turbo"] |});
    ("anthropic",
     {| tier1Models := ["claude-sonnet-4.5"; "claude-sonnet-4"; "claude-opus-4.1";
                        "claude-3-5-sonnet-20241022"; "claude-3-opus-20240229"];
        tier2Models := ["claude-haiku-4-5"; "claude-3-5-haiku-20241022";
                        "claude-3-haiku-20240307"] |});
    ("google",
     {| tier1Models := ["gemini-3-pro-preview"; "gemini-2.5-pro"; "gemini-2.0-pro";
                        "gemini-1.5-pro"];
        tier2Models := ["gemini-2.5-flash"; "gemini-2.5-flash-lite";
                        "gemini-2.0-flash-lite"; "gemini-1.5-flash";
                        "gemini-1.5-flash-8b"] |});
    ("deepseek",
     {| tier1Models := ["deepseek-r1"; "deepseek-v3.1"; "deepseek-reasoner";
                        "deepseek-coder"];
        tier2Models := ["deepseek-chat"] |});
    ("xai",
     {| tier1Models := ["grok-4"; "grok-code-fast-1"; "grok-3"];
        tier2Models := ["grok-4-fast"; "grok-3-mini"; "grok-2-mini"] |});
    ("qwen",
     {| tier1Models := ["qwen3-coder-480b"; "qwen3-max"; "qwen2.5-coder-32b"];
        tier2Models := ["qwen3-coder-flash"; "qwen-flash"; "qwen-turbo"] |});
    ("zhipu",
     {| tier1Models := ["glm-4.6"; "glm-4.5"; "glm-4"];
        tier2Models := ["glm-4.5-air"; "glm-4.5-flash"; "glm-4-flash"] |});
    ("bigpickle",
     {| tier1Models := ["big-pickle"]; tier2Models := ["big-pickle"] |}) ].

Definition PROVIDER_PRIORITY : list string :=
  ["openai"; "anthropic"; "google"; "deepseek"; "xai"; "qwen"; "zhipu"; "bigpickle"].

(** The property names every object literal inherits from
    [Object.prototype]: [MODEL_TIERS[key]] finds a function or an object
    under them, not a tier configuration. *)
Definition INHERITED_KEYS : list string :=
  ["constructor"; "__proto__"; "hasOwnProperty"; "isPrototypeOf";
   "propertyIsEnumerable"; "toLocaleString"; "toString"; "valueOf";
   "__defineGetter__"; "__defineSetter__"; "__lookupGetter__"; "__lookupSetter__"].

(** [MODEL_TIERS[key]]. *)
Inductive TierLookup :=
  | OwnTier (config : ModelTierConfig)
  | InheritedValue
  | NoTier.

Fixpoint ownTier (table : list (string * ModelTierConfig)) (key : string)
    : option ModelTierConfig :=
  match table with
  | [] => None
  | (k, config) :: table' => if String.eqb k key then Some config else ownTier table' key
  end.

Definition tierLookup (key : string) : TierLookup :=
  match ownTier MODEL_TIERS key with
  | Some config => OwnTier config
  | None => if existsb (String.eqb key) INHERITED_KEYS then InheritedValue else NoTier
  end.

(** The [TypeError] of reading [length] or [some] of the [undefined] that
    [config.tier2Models] or [config.tier1Models] is on an inherited value. *)
Inductive SelectError := TierConfigTypeError (key : string).

Definition getTier2Model (providerID : string) : Result SelectError (option string) :=
  match tierLookup (toLowerCase providerID) with
  | NoTier => Ok None
  | InheritedValue => Throw (TierConfigTypeError (toLowerCase providerID))
  | OwnTier config =>
      match tier2Models config with
      | [] => Ok None
      | first :: _ => Ok (Some first)
      end
  end.

Definition isTier1Model (providerID modelID : string) : Result SelectError bool :=
  match tierLookup (toLowerCase providerID) with
  | NoTier => Ok false
  | InheritedValue => Throw (TierConfigTypeError (toLowerCase providerID))
  | OwnTier config =>
      Ok (existsb (λ m, includes (toLowerCase modelID) (toLowerCase m))
            (tier1Models config))
  end.

(** The authentication provider: [getLanguageModel] answers the model or
    throws ([None]); it is asked again and again, so its answer may depend on
    the number of the attempt. [authenticated] is the truthiness of
    [providers[providerID]] in the answer of [listProviders], which is taken
    to resolve. [bigPickle] is the model [getBigPickleModel] builds. *)
Class OpencodeAI (Model : Type) := {
  getLanguageModel : nat → string → string → option Model;
  authenticated : string → bool;
  bigPickle : Model
}.

Inductive Tier := primary | tier2_same_provider | tier2_other_provider | fallback.

Record ModelSelectionResult (Model : Type) := {
  model : Model;
  modelInfo : ModelInfo;
  tier : Tier;
  reason : string
}.
Arguments model {Model} _.
Arguments modelInfo {Model} _.
Arguments tier {Model} _.
Arguments reason {Model} _.

(** The loop over [PROVIDER_PRIORITY] of step 3, from a provider on;
    [attempt] counts the calls of [getLanguageModel] made so far. [None]: no
    provider gave a model. *)
Fixpoint tryProviders {Model} `{OpencodeAI Model} (currentModel : option ModelInfo)
    (attempt : nat) (providers : list string)
    : Result SelectError (option (ModelSelectionResult Model)) :=
  match providers with
  | [] => Ok None
  | p :: providers' =>
      if String.eqb p "bigpickle" then tryProviders currentModel attempt providers'
      else if match currentModel with
              | Some current => String.eqb p (providerID current)
              | None => false
              end
      then tryProviders currentModel attempt providers'
      else if negb (authenticated p) then tryProviders currentModel attempt providers'
      else
        match getTier2Model p with
        | Throw e => Throw e
        | Ok None => tryProviders currentModel attempt providers'
        | Ok (Some tier2ModelID) =>
            if String.eqb tier2ModelID EmptyString
            then tryProviders currentModel attempt providers'
            else
              match getLanguageModel attempt p tier2ModelID with
              | Some m =>
                  Ok (Some {| model := m;
                              modelInfo := {| providerID := p; modelID := tier2ModelID |};
                              tier := tier2_other_provider;
                              reason := "Falling back to " +:+ p +:+ "/" +:+ tier2ModelID |})
              | None => tryProviders currentModel (S attempt) providers'
              end
        end
  end.

(** Steps 3 and 4: the other providers, then big-pickle. *)
Definition selectFallback {Model} `{OpencodeAI Model} (currentModel : option ModelInfo)
    (attempt : nat) : Result SelectError (ModelSelectionResult Model) :=
  match tryProviders currentModel attempt PROVIDER_PRIORITY with
  | Throw e => Throw e
  | Ok (Some result) => Ok result
  | Ok None =>
      Ok {| model := bigPickle;
            modelInfo := {| providerID := "bigpickle"; modelID := "big-pickle" |};
            tier := fallback;
            reason := "Using free big-pickle model (no authenticated providers available)" |}
  end.

(** [selectModel(currentModel)], called without a logger: every line of the
    source that only logs is then skipped. [Throw] is the rejection of the
    promise. *)
Definition selectModel {Model} `{OpencodeAI Model} (currentModel : option ModelInfo)
    : Result SelectError (ModelSelectionResult Model) :=
  match currentModel with
  | None => selectFallback None 0
  | Some current =>
      (* Step 1 *)
      match getLanguageModel 0 (providerID current) (modelID current) with
      | Some m =>
          Ok {| model := m; modelInfo := current; tier := primary;
                reason := "Using current session model" |}
      | None =>
          (* Step 2 *)
          match isTier1Model (providerID current) (modelID current) with
          | Throw e => Throw e
          | Ok false => selectFallback currentModel 1
          | Ok true =>
              match getTier2Model (providerID current) with
              | Throw e => Throw e
              | Ok None => selectFallback currentModel 1
              | Ok (Some tier2ModelID) =>
                  if String.eqb tier2ModelID EmptyString
                  then selectFallback currentModel 1
                  else
                    match getLanguageModel 1 (providerID current) tier2ModelID with
                    | Some m =>
                        Ok {| model := m;
                              modelInfo := {| providerID := providerID current;
                                              modelID := tier2ModelID |};
                              tier := tier2_same_provider;
                              reason := "Falling back to faster model from same provider: "
                                        +:+ tier2ModelID |}
                    | None => selectFallback currentModel 2
                    end
              end
          end
      end
  end.

(** [extractModelFromSession(sessionState)], called without a logger; [None]
    is [undefined]. The optional chains read properties as [getProp] does. *)
Definition extractModelFromSession (sessionState : JsVal) : option (JsVal * JsVal) :=
  let sessionModel := getProp sessionState "model" in
  if truthy (getProp sessionModel "providerID") && truthy (getProp sessionModel "modelID")
  then Some (getProp sessionModel "providerID", getProp sessionModel "modelID")
  else
    let messages := getProp sessionState "messages" in
    if truthy messages && isArray messages then
      let lastMessage := default JUndefined (last (arrayItems messages)) in
      let lastModel := getProp lastMessage "model" in
      if truthy (getProp lastModel "providerID") && truthy (getProp lastModel "modelID")
      then Some (getProp lastModel "providerID", getProp lastModel "modelID")
      else None
    else None.

(** A provider that loads nothing but the fast Anthropic model. *)
Definition onlyHaiku : OpencodeAI string :=
  {| getLanguageModel := λ _ p m,
       if String.eqb p "anthropic" && String.eqb m "claude-haiku-4-5"
       then Some "haiku" else None;
     authenticated := λ p, String.eqb p "anthropic" || String.eqb p "google";
     bigPickle := "pickle" |}.

(** A provider that loads nothing. *)
Definition offline : OpencodeAI string :=
  {| getLanguageModel := λ _ _ _, None;
     authenticated := λ _, true;
     bigPickle := "pickle" |}.

(** Why step 3 passed a provider over: it is big-pickle, it is the provider
    of the current model, it is not authenticated, it has no tier-2 model, or
    its tier-2 model did not load. *)
Definition passedOver {Model} `{OpencodeAI Model} (currentModel : option ModelInfo)
    (q : string) : Prop :=
  q = "bigpickle" ∨
  (∃ current, currentModel = Some current ∧ providerID current = q) ∨
  authenticated q = false ∨
  getTier2Model q = Ok None ∨
  (∃ tier2ModelID, getTier2Model q = Ok (Some tier2ModelID) ∧
     (tier2ModelID = EmptyString ∨ ∃ n, getLanguageModel n q tier2ModelID = None)).

(** The result of step 4. *)
Definition bigPickleResult {Model} `{OpencodeAI Model} : ModelSelectionResult Model :=
  {| model := bigPickle;
     modelInfo := {| providerID := "bigpickle"; modelID := "big-pickle" |};
     tier := fallback;
     reason := "Using free big-pickle model (no authenticated providers available)" |}.

(** What stands behind a result, tier by tier. *)
Definition justified {Model} `{OpencodeAI Model} (currentModel : option ModelInfo)
    (r : ModelSelectionResult Model) : Prop :=
  match tier r with
  | primary =>
      ∃ current, currentModel = Some current ∧ modelInfo r = current ∧
        getLanguageModel 0 (providerID current) (modelID current) = Some (model r)
  | tier2_same_provider =>
      ∃ current, currentModel = Some current ∧
        getLanguageModel 0 (providerID current) (modelID current) = None ∧
        isTier1Model (providerID current) (modelID current) = Ok true ∧
        providerID (modelInfo r) = providerID current ∧
        getTier2Model (providerID current) = Ok (Some (modelID (modelInfo r))) ∧
        getLanguageModel 1 (providerID current) (modelID (modelInfo r)) = Some (model r)
  | tier2_other_provider =>
      ∃ before after,
        PROVIDER_PRIORITY = before ++ providerID (modelInfo r) :: after ∧
        Forall (passedOver currentModel) before ∧
        providerID (modelInfo r) ≠ "bigpickle" ∧
        (∀ current, currentModel = Some current →
                    providerID current ≠ providerID (modelInfo r)) ∧
        authenticated (providerID (modelInfo r)) = true ∧
        getTier2Model (providerID (modelInfo r)) = Ok (Some (modelID (modelInfo r))) ∧
        (∃ n, getLanguageModel n (providerID (modelInfo r)) (modelID (modelInfo r))
              = Some (model r))
  | fallback =>
      r = bigPickleResult ∧ Forall (passedOver currentModel) PROVIDER_PRIORITY ∧
      (∀ current, currentModel = Some current →
         getLanguageModel 0 (providerID current) (modelID current) = None)
  end.

(** A session of two messages, the first with a model, the last without. *)
Definition staleModelSession : JsObject :=
  [("messages",
    JArr [JObj [("model", JObj [("providerID", JStr "openai");
                                ("modelID", JStr "gpt-5")])];
          JObj [("role", JStr "user")]])].

(** * Facts *)

(** ** Strings *)

Lemma append_nil_l (b : string) : EmptyString +:+ b = b.
Proof. reflexivity. Qed.

Lemma append_cons (x : ascii) (a b : string) :
  String x a +:+ b = String x (a +:+ b).
Proof. reflexivity. Qed.

Lemma string_app_assoc (a b c : string) : (a +:+ b) +:+ c = a +:+ (b +:+ c).
Proof.
  induction a as [|x a IH]; [done|].
  by rewrite !append_cons, IH.
Qed.

Lemma string_app_empty_r (a : string) : a +:+ EmptyString = a.
Proof.
  induction a as [|x a IH]; [done|].
  by rewrite append_cons, IH.
Qed.

Lemma prefix_nil (s : string) : String.prefix EmptyString s = true.
Proof. by destruct s. Qed.

Lemma prefix_cons (c d : ascii) (sub s : string) :
  String.prefix (String c sub) (String d s) =
  if Ascii.ascii_dec c d then String.prefix sub s else false.
Proof. reflexivity. Qed.

Lemma prefix_app (sub s : string) :
  String.prefix sub s = true ↔ ∃ rest, s = sub +:+ rest.
Proof.
  revert s; induction sub as [|c sub IH]; intros s.
  - rewrite prefix_nil. split; [intros _; by exists s | done].
  - destruct s as [|d s].
    + split; [done | intros [rest Hr]; discriminate].
    + rewrite prefix_cons. destruct (Ascii.ascii_dec c d) as [->|Hne].
      * rewrite IH. split; intros [rest Hr]; exists rest;
          rewrite ?append_cons in *; congruence.
      * split; [done | intros [rest Hr]; rewrite append_cons in Hr; congruence].
Qed.

Lemma includes_unfold (s sub : string) :
  includes s sub =
  if String.prefix sub s then true
  else match s with
       | EmptyString => false
       | String _ s' => includes s' sub
       end.
Proof. by destruct s. Qed.

(** [includes] finds exactly the literal occurrences. *)
Lemma includes_occurs (s sub : string) :
  includes s sub = true ↔ ∃ before after, s = before +:+ sub +:+ after.
Proof.
  induction s as [|c s IH]; rewrite includes_unfold.
  - destruct (String.prefix sub EmptyString) eqn:Hp.
    + apply prefix_app in Hp as [rest Hr]. split; [|done].
      intros _. exists EmptyString, rest. done.
    + split; [done|]. intros ([|x before] & after & Hs).
      * assert (String.prefix sub EmptyString = true) as Hq
          by (apply prefix_app; eauto).
        congruence.
      * discriminate.
  - destruct (String.prefix sub (String c s)) eqn:Hp.
    + apply prefix_app in Hp as [rest Hr]. split; [|done].
      intros _. exists EmptyString, rest. done.
    + rewrite IH. split.
      * intros (before & after & ->). by exists (String c before), after.
      * intros ([|x before] & after & Hs).
        -- assert (String.prefix sub (String c s) = true) as Hq
             by (apply prefix_app; eauto).
           congruence.
        -- rewrite append_cons in Hs. injection Hs as -> ->. eauto.
Qed.
(** ** The content extractor *)

Lemma spaced_app (a b : list string) : spaced (a ++ b) = spaced a +:+ spaced b.
Proof.
  induction a as [|x a IH]; [done|].
  cbn [spaced app]. by rewrite IH, !string_app_assoc.
Qed.

Lemma spaced_one (a : string) : spaced [a] = " " +:+ a.
Proof. cbn [spaced]. by rewrite string_app_empty_r. Qed.

Ltac string_normal :=
  repeat first
    [ rewrite spaced_app | rewrite spaced_one | rewrite string_app_assoc
    | rewrite string_app_empty_r | rewrite append_nil_l
    | progress cbn [spaced app] ].

(** One part appends its kept fragments, each led by a space. *)
Lemma extractPart_fragments `{JSONBuiltin} (content : string) (part : Part) :
  extractPart content part = content +:+ spaced (keptFragments part).
Proof.
  unfold extractPart, keptFragments.
  destruct (isStr (field part "type") "text" || isStr (field part "type") "reasoning").
  { destruct (field part "text"); cbn [asString]; by string_normal. }
  destruct (isStr (field part "type") "tool").
  { destruct (truthy (field part "state")) eqn:Hst; cbn [negb].
    2: { destruct (field part "state"); try discriminate; cbn [getProp isStr];
         cbn [truthy]; by string_normal. }
    destruct (isStr (getProp (field part "state") "status") "completed") eqn:Hc.
    - assert (isStr (getProp (field part "state") "status") "error" = false) as ->.
      { destruct (getProp (field part "state") "status"); try done.
        cbn [isStr] in *. apply String.eqb_eq in Hc as ->. done. }
      destruct (getProp (field part "state") "output"); cbn [asString];
        destruct (truthy (getProp (field part "state") "input")) eqn:Hi;
        try (destruct (getProp (field part "state") "input"); cbn [asString]);
        by string_normal.
    - destruct (isStr (getProp (field part "state") "status") "error");
        [destruct (getProp (field part "state") "error"); cbn [asString]|];
        destruct (truthy (getProp (field part "state") "input")) eqn:Hi;
        try (destruct (getProp (field part "state") "input"); cbn [asString]);
        by string_normal. }
  destruct (isStr (field part "type") "compaction").
  { destruct (field part "summary"); cbn [asString]; by string_normal. }
  destruct (isStr (field part "type") "subtask").
  { destruct (field part "summary"), (field part "result"); cbn [asString];
      by string_normal. }
  by string_normal.
Qed.

Lemma extract_fold `{JSONBuiltin} (ps : list Part) (content : string) :
  fold_left extractPart ps content = content +:+ spaced (List.flat_map keptFragments ps).
Proof.
  revert content; induction ps as [|p ps IH]; intros content; cbn [fold_left List.flat_map].
  - by string_normal.
  - rewrite IH, extractPart_fragments. by string_normal.
Qed.
(** ** [findIndex] *)

Lemma findIndexFrom_none {A} (p : A → bool) (l : list A) (i : Z) :
  existsb p l = false → findIndexFrom p l i = -1.
Proof.
  revert i; induction l as [|x l IH]; intros i; cbn [existsb findIndexFrom]; [done|].
  destruct (p x); [done|]. cbn [orb]. apply IH.
Qed.

Lemma findIndexFrom_some {A} (p : A → bool) (l : list A) (i : Z) :
  existsb p l = true →
  ∃ n x, findIndexFrom p l i = i + Z.of_nat n ∧ l !! n = Some x ∧ p x = true.
Proof.
  revert i; induction l as [|x l IH]; intros i; cbn [existsb findIndexFrom]; [done|].
  destruct (p x) eqn:Hp; cbn [orb].
  - intros _. exists 0%nat, x. split; [lia | done].
  - intros Hl. destruct (IH (i + 1) Hl) as (n & y & Hn & Hy & Hpy).
    exists (S n), y. split; [lia | done].
Qed.

Lemma findIndex_anchored (messages : list WithParts) (s : CompressSummary) :
  negb (anchorIndexOf messages s =? -1) = anchored messages s.
Proof.
  unfold anchorIndexOf, findIndex, anchored.
  destruct (existsb _ messages) eqn:He.
  - destruct (findIndexFrom_some _ _ 0 He) as (n & x & -> & _).
    apply negb_true_iff, Z.eqb_neq. lia.
  - by rewrite (findIndexFrom_none _ _ 0 He).
Qed.

Lemma anchorIndexOf_locates (messages : list WithParts) (s : CompressSummary) :
  anchorIndexOf messages s ≠ (-1) →
  locates messages (anchorMessageId s) (anchorIndexOf messages s).
Proof.
  intros Hne. unfold anchorIndexOf, findIndex in *.
  destruct (existsb (λ m, String.eqb (id (info m)) (anchorMessageId s)) messages) eqn:He.
  - destruct (findIndexFrom_some _ _ 0 He) as (n & x & Hn & Hx & Hp).
    exists x. rewrite Hn. split; [lia|].
    replace (Z.to_nat (0 + Z.of_nat n)) with n by lia.
    split; [done|]. by apply String.eqb_eq.
  - by rewrite (findIndexFrom_none _ _ 0 He) in Hne.
Qed.

(** ** The two loops *)

Lemma accOk_empty : accOk ([], ∅).
Proof.
  split; [|constructor]. intros x; cbn [fst snd map].
  rewrite elem_of_empty, elem_of_nil. tauto.
Qed.

Lemma accOk_push (acc : MatchAcc) (m : MatchResult) :
  accOk acc → messageId m ∉ acc.2 → accOk (push acc m).
Proof.
  intros [Hseen Hnd] Hfresh. unfold push; split; cbn [fst snd].
  - intros x. rewrite map_app, elem_of_app, elem_of_union, elem_of_singleton, Hseen.
    cbn [map]. rewrite list_elem_of_singleton. tauto.
  - rewrite map_app. apply NoDup_app. split; [done|]. split.
    + intros x Hx Hm. cbn [map] in Hm. apply list_elem_of_singleton in Hm as ->.
      by apply Hfresh, Hseen.
    + cbn [map]. apply NoDup_singleton.
Qed.

Section ScanFacts.
Context (sumHit : CompressSummary → option (Z * MatchType)).
Context (msgHit : WithParts → option (Z * MatchType)).
Context (messages : list WithParts).

Lemma scanSummaryStep_cases (acc : MatchAcc) (s : CompressSummary) :
  scanSummaryStep sumHit messages acc s = acc ∨
  (∃ sc ty, sumHit s = Some (sc, ty) ∧ anchorIndexOf messages s ≠ (-1) ∧
            (anchorMessageId s ∉ acc.2) ∧
            scanSummaryStep sumHit messages acc s =
              push acc {| messageId := anchorMessageId s;
                          messageIndex := anchorIndexOf messages s;
                          score := sc; matchType := ty |}).
Proof.
  unfold scanSummaryStep. destruct (sumHit s) as [[sc ty]|]; [|by left].
  destruct (anchorIndexOf messages s =? -1) eqn:Ha; cbn [negb andb]; [by left|].
  case_bool_decide as Hs; cbn [negb]; [by left|].
  right. exists sc, ty. apply Z.eqb_neq in Ha. done.
Qed.

Lemma scanSummaryStep_ok (acc : MatchAcc) (s : CompressSummary) :
  accOk acc → accOk (scanSummaryStep sumHit messages acc s).
Proof.
  intros Hok. destruct (scanSummaryStep_cases acc s)
    as [->|(sc & ty & _ & _ & Hfresh & ->)]; [done|].
  by apply accOk_push.
Qed.

Lemma scanSummaries_fold_ok (sums : list CompressSummary) (acc : MatchAcc) :
  accOk acc → accOk (fold_left (scanSummaryStep sumHit messages) sums acc).
Proof.
  revert acc; induction sums as [|s sums IH]; intros acc Hok; cbn [fold_left]; [done|].
  by apply IH, scanSummaryStep_ok.
Qed.

Lemma scanSummaries_ok (sums : list CompressSummary) :
  accOk (scanSummaries sumHit messages sums).
Proof. apply scanSummaries_fold_ok, accOk_empty. Qed.

Lemma scanSummaries_fold_from (all sums : list CompressSummary) (acc : MatchAcc) :
  sums ⊆ all →
  Forall (fromSummary sumHit messages all) acc.1 →
  Forall (fromSummary sumHit messages all)
    (fold_left (scanSummaryStep sumHit messages) sums acc).1.
Proof.
  revert acc; induction sums as [|s sums IH]; intros acc Hsub Hacc; cbn [fold_left]; [done|].
  apply IH; [set_solver|].
  destruct (scanSummaryStep_cases acc s)
    as [->|(sc & ty & Hhit & Hidx & _ & ->)]; [done|].
  unfold push; cbn [fst]. apply Forall_app. split; [done|].
  apply Forall_singleton. exists s. cbn. split; [set_solver | done].
Qed.

Lemma scanSummaries_from (sums : list CompressSummary) :
  Forall (fromSummary sumHit messages sums) (scanSummaries sumHit messages sums).1.
Proof. by apply scanSummaries_fold_from. Qed.

Lemma scanSummaryStep_mono (acc : MatchAcc) (s : CompressSummary) :
  acc.2 ⊆ (scanSummaryStep sumHit messages acc s).2.
Proof.
  destruct (scanSummaryStep_cases acc s) as [->|(sc & ty & _ & _ & _ & ->)]; [done|].
  unfold push; cbn [snd]. set_solver.
Qed.

Lemma scanSummaries_fold_mono (sums : list CompressSummary) (acc : MatchAcc) :
  acc.2 ⊆ (fold_left (scanSummaryStep sumHit messages) sums acc).2.
Proof.
  revert acc; induction sums as [|s sums IH]; intros acc; cbn [fold_left]; [done|].
  etrans; [apply scanSummaryStep_mono | apply IH].
Qed.

(** An accepted, anchored summary has its anchor among the claimed
    identifiers. *)
Lemma scanSummaries_fold_complete (sums : list CompressSummary) (acc : MatchAcc)
    (s : CompressSummary) :
  s ∈ sums → is_Some (sumHit s) → anchorIndexOf messages s ≠ (-1) →
  anchorMessageId s ∈ (fold_left (scanSummaryStep sumHit messages) sums acc).2.
Proof.
  revert acc; induction sums as [|t sums IH]; intros acc Hin Hhit Hidx.
  { by apply elem_of_nil in Hin. }
  cbn [fold_left]. apply elem_of_cons in Hin as [<-|Hin]; [|by apply IH].
  apply scanSummaries_fold_mono.
  unfold scanSummaryStep. destruct Hhit as [[sc ty] ->].
  apply Z.eqb_neq in Hidx. rewrite Hidx. cbn [negb andb].
  case_bool_decide as Hs; cbn [negb]; [done|].
  unfold push; cbn [snd]. set_solver.
Qed.

(** A summary without an anchor in the message list changes nothing. *)
Lemma scanSummaryStep_orphan (acc : MatchAcc) (s : CompressSummary) :
  anchored messages s = false → scanSummaryStep sumHit messages acc s = acc.
Proof.
  intros Ho. unfold scanSummaryStep. rewrite findIndex_anchored, Ho.
  by destruct (sumHit s) as [[sc ty]|].
Qed.

Lemma scanSummaries_fold_anchored (sums : list CompressSummary) (acc : MatchAcc) :
  fold_left (scanSummaryStep sumHit messages) sums acc =
  fold_left (scanSummaryStep sumHit messages) (List.filter (anchored messages) sums) acc.
Proof.
  revert acc; induction sums as [|s sums IH]; intros acc; cbn [fold_left List.filter]; [done|].
  destruct (anchored messages s) eqn:Ha; cbn [fold_left]; [apply IH|].
  rewrite scanSummaryStep_orphan by done. apply IH.
Qed.

(** A summary the test rejects changes nothing. *)
Lemma scanSummaries_fold_rejected (sums : list CompressSummary) (acc : MatchAcc) :
  Forall (λ s, sumHit s = None ∨ anchored messages s = false) sums →
  fold_left (scanSummaryStep sumHit messages) sums acc = acc.
Proof.
  revert acc; induction sums as [|s sums IH]; intros acc Hall; cbn [fold_left]; [done|].
  apply Forall_cons in Hall as [Hs Hall]. rewrite <- (IH acc Hall) at 2. f_equal.
  destruct Hs as [Hs|Hs]; [|by apply scanSummaryStep_orphan].
  unfold scanSummaryStep. by rewrite Hs.
Qed.
End ScanFacts.

Section MessageLoopFacts.
Context (msgHit : WithParts → option (Z * MatchType)).

Lemma scanMessageLoop_mono (rest : list WithParts) (i : Z) (acc : MatchAcc) :
  acc.2 ⊆ (scanMessageLoop msgHit i rest acc).2.
Proof.
  revert i acc; induction rest as [|msg rest IH]; intros i acc; cbn [scanMessageLoop]; [done|].
  etrans; [|apply IH].
  case_bool_decide; [done|]. destruct (msgHit msg) as [[sc ty]|]; [|done].
  unfold push; cbn [snd]. apply union_subseteq_r.
Qed.

(** A message the test accepts has its identifier among the claimed ones. *)
Lemma scanMessageLoop_complete (rest : list WithParts) (i : Z) (acc : MatchAcc)
    (msg : WithParts) :
  msg ∈ rest → is_Some (msgHit msg) →
  id (info msg) ∈ (scanMessageLoop msgHit i rest acc).2.
Proof.
  revert i acc; induction rest as [|m rest IH]; intros i acc Hin Hhit.
  { by apply elem_of_nil in Hin. }
  cbn [scanMessageLoop]. apply elem_of_cons in Hin as [<-|Hin]; [|by apply IH].
  apply scanMessageLoop_mono.
  case_bool_decide as Hs; [done|]. destruct Hhit as [[sc ty] ->].
  unfold push; cbn [snd messageId]. apply elem_of_union_l, elem_of_singleton. done.
Qed.

Lemma scanMessageLoop_rejected (rest : list WithParts) (i : Z) (acc : MatchAcc) :
  Forall (λ m, msgHit m = None) rest → scanMessageLoop msgHit i rest acc = acc.
Proof.
  revert i acc; induction rest as [|m rest IH]; intros i acc Hall; cbn [scanMessageLoop]; [done|].
  apply Forall_cons in Hall as [Hm Hall]. rewrite Hm.
  case_bool_decide; by apply IH.
Qed.

(** The loop over the messages only appends, and what it appends stands for
    messages whose identifier was not claimed before. *)
Lemma scanMessageLoop_appends (messages pre rest : list WithParts) (acc : MatchAcc) :
  messages = pre ++ rest → accOk acc →
  accOk (scanMessageLoop msgHit (Z.of_nat (length pre)) rest acc) ∧
  ∃ added,
    (scanMessageLoop msgHit (Z.of_nat (length pre)) rest acc).1 = acc.1 ++ added ∧
    Forall (λ c, fromMessage msgHit messages c ∧ messageId c ∉ acc.2) added.
Proof.
  revert pre acc; induction rest as [|msg rest IH]; intros pre acc Hm Hok;
    cbn [scanMessageLoop].
  { split; [done|]. exists []. by rewrite app_nil_r. }
  assert (messages = (pre ++ [msg]) ++ rest) as Hm' by (by rewrite <- app_assoc).
  replace (Z.of_nat (length pre) + 1) with (Z.of_nat (length (pre ++ [msg])))
    by (rewrite length_app; cbn [length]; lia).
  case_bool_decide as Hseen; [by apply IH|].
  destruct (msgHit msg) as [[sc ty]|] eqn:Hhit; [|by apply IH].
  set (c := {| messageId := id (info msg); messageIndex := Z.of_nat (length pre);
               score := sc; matchType := ty |}).
  assert (accOk (push acc c)) as Hok' by (by apply accOk_push).
  destruct (IH (pre ++ [msg]) (push acc c) Hm' Hok') as (Hok'' & added & Hadd & Hall).
  split; [done|]. exists (c :: added). split.
  - rewrite Hadd. unfold push; cbn [fst]. by rewrite <- app_assoc.
  - apply Forall_cons. split.
    + split; [|done]. exists msg. cbn [messageIndex messageId score matchType c].
      split; [lia|]. rewrite Nat2Z.id, Hm. split; [|done].
      by rewrite lookup_app_r, Nat.sub_diag.
    + eapply Forall_impl; [apply Hall|]. intros d [Hd Hfresh]. split; [done|].
      intros Hin. apply Hfresh. unfold push; cbn [snd]. by apply elem_of_union_r.
Qed.
End MessageLoopFacts.

(** ** The candidates of a scan *)

Section ScanResults.
Context (sumHit : CompressSummary → option (Z * MatchType)).
Context (msgHit : WithParts → option (Z * MatchType)).
Context (messages : list WithParts) (sums : list CompressSummary).

(** Summaries first, then messages not yet claimed. *)
Lemma scan_split :
  ∃ added,
    scan sumHit msgHit messages sums = (scanSummaries sumHit messages sums).1 ++ added ∧
    Forall (fromSummary sumHit messages sums) (scanSummaries sumHit messages sums).1 ∧
    Forall (λ c, fromMessage msgHit messages c ∧
                 messageId c ∉ map messageId (scanSummaries sumHit messages sums).1) added.
Proof.
  pose proof (scanSummaries_ok sumHit messages sums) as Hok.
  destruct (scanMessageLoop_appends msgHit messages [] messages _ eq_refl Hok)
    as (_ & added & Hadd & Hall).
  exists added. split; [done|]. split; [apply scanSummaries_from|].
  eapply Forall_impl; [apply Hall|]. intros c [Hc Hfresh]. split; [done|].
  intros Hin. by apply Hfresh, Hok.
Qed.

Lemma scan_NoDup : NoDup (map messageId (scan sumHit msgHit messages sums)).
Proof.
  pose proof (scanSummaries_ok sumHit messages sums) as Hok.
  by destruct (scanMessageLoop_appends msgHit messages [] messages _ eq_refl Hok)
    as ((_ & Hnd) & _).
Qed.

Lemma scan_seen (x : string) :
  x ∈ (scanMessageLoop msgHit 0 messages (scanSummaries sumHit messages sums)).2 ↔
  x ∈ map messageId (scan sumHit msgHit messages sums).
Proof.
  pose proof (scanSummaries_ok sumHit messages sums) as Hok.
  destruct (scanMessageLoop_appends msgHit messages [] messages _ eq_refl Hok)
    as ((Hseen & _) & _).
  apply Hseen.
Qed.

Lemma scan_provenance (c : MatchResult) :
  c ∈ scan sumHit msgHit messages sums →
  fromSummary sumHit messages sums c ∨ fromMessage msgHit messages c.
Proof.
  destruct scan_split as (added & -> & Hs & Hm). intros [Hc|Hc]%elem_of_app.
  - left. by eapply Forall_forall in Hs.
  - right. eapply Forall_forall in Hm as [? _]; done.
Qed.

Lemma scan_locates (c : MatchResult) :
  c ∈ scan sumHit msgHit messages sums →
  locates messages (messageId c) (messageIndex c).
Proof.
  intros [(s & _ & _ & -> & -> & Hidx)|(msg & ? & ? & ? & _)]%scan_provenance.
  - by apply anchorIndexOf_locates.
  - by exists msg.
Qed.

(** An accepted, anchored summary yields a candidate at its anchor, among
    the candidates that come from summaries. *)
Lemma scan_summary_candidate (s : CompressSummary) :
  s ∈ sums → is_Some (sumHit s) → anchorIndexOf messages s ≠ (-1) →
  ∃ c, c ∈ (scanSummaries sumHit messages sums).1 ∧
       messageId c = anchorMessageId s ∧
       messageIndex c = anchorIndexOf messages s.
Proof.
  intros Hin Hhit Hidx.
  pose proof (scanSummaries_fold_complete sumHit messages sums ([], ∅) s Hin Hhit Hidx)
    as Hseen.
  apply (scanSummaries_ok sumHit messages sums) in Hseen.
  apply list_elem_of_fmap in Hseen as (c & Hid & Hc).
  exists c. split; [done|]. split; [done|].
  pose proof (scanSummaries_from sumHit messages sums) as Hfrom.
  eapply Forall_forall in Hfrom as (t & _ & _ & Hct & -> & _); [|done].
  unfold anchorIndexOf. by rewrite <- Hct, <- Hid.
Qed.

(** An accepted message has a candidate with its identifier. *)
Lemma scan_message_candidate (msg : WithParts) :
  msg ∈ messages → is_Some (msgHit msg) →
  ∃ c, c ∈ scan sumHit msgHit messages sums ∧ messageId c = id (info msg).
Proof.
  intros Hin Hhit.
  pose proof (scanMessageLoop_complete msgHit messages 0
                (scanSummaries sumHit messages sums) msg Hin Hhit) as Hseen.
  apply scan_seen, list_elem_of_fmap in Hseen as (c & Hid & Hc). eauto.
Qed.

(** Summaries without an anchor contribute nothing. *)
Lemma scan_anchored :
  scan sumHit msgHit messages sums =
  scan sumHit msgHit messages (List.filter (anchored messages) sums).
Proof. unfold scan, scanSummaries. by rewrite <- scanSummaries_fold_anchored. Qed.

Lemma scan_nil :
  Forall (λ s, sumHit s = None ∨ anchored messages s = false) sums →
  Forall (λ m, msgHit m = None) messages →
  scan sumHit msgHit messages sums = [].
Proof.
  intros Hs Hm. unfold scan, scanSummaries.
  by rewrite scanSummaries_fold_rejected, scanMessageLoop_rejected.
Qed.
End ScanResults.

(** ** The finders are scans *)

Lemma exactSummaryStep_scan (messages : list WithParts) (searchString : string)
    (acc : MatchAcc) (s : CompressSummary) :
  exactSummaryStep messages searchString acc s =
  scanSummaryStep (exactSummaryHit searchString) messages acc s.
Proof.
  unfold exactSummaryStep, scanSummaryStep, exactSummaryHit.
  by destruct (includes (summary s) searchString).
Qed.

Lemma fold_left_ext {A B} (f g : A → B → A) (l : list B) (a : A) :
  (∀ a b, f a b = g a b) → fold_left f l a = fold_left g l a.
Proof.
  intros Hfg. revert a; induction l as [|b l IH]; intros a; cbn [fold_left]; [done|].
  by rewrite Hfg, IH.
Qed.

Lemma exactSummaryMatches_scan (messages : list WithParts) (searchString : string)
    (sums : list CompressSummary) :
  exactSummaryMatches messages searchString sums =
  (scanSummaries (exactSummaryHit searchString) messages sums).1.
Proof.
  unfold exactSummaryMatches, scanSummaries. f_equal.
  apply fold_left_ext. intros; apply exactSummaryStep_scan.
Qed.

Lemma exactMessageLoop_scan `{JSONBuiltin} (searchString : string) (rest : list WithParts)
    (i : Z) (acc : MatchAcc) :
  exactMessageLoop searchString i rest acc =
  scanMessageLoop (exactMessageHit searchString) i rest acc.
Proof.
  revert i acc; induction rest as [|msg rest IH]; intros i acc;
    cbn [exactMessageLoop scanMessageLoop]; [done|].
  rewrite IH. f_equal. unfold exactMessageHit.
  case_bool_decide; [done|].
  by destruct (includes (extractMessageContent msg) searchString).
Qed.

Lemma findExactMatches_scan `{JSONBuiltin} (messages : list WithParts)
    (searchString : string) (sums : list CompressSummary) :
  findExactMatches messages searchString sums =
  scan (exactSummaryHit searchString) (exactMessageHit searchString) messages sums.
Proof.
  unfold findExactMatches, scan, scanSummaries.
  rewrite exactMessageLoop_scan. do 2 f_equal.
  apply fold_left_ext. intros; apply exactSummaryStep_scan.
Qed.

Lemma fuzzySummaryStep_scan `{Fuzzball} (messages : list WithParts)
    (searchString : string) (floor : Z) (acc : MatchAcc) (s : CompressSummary) :
  fuzzySummaryStep messages searchString floor acc s =
  scanSummaryStep (fuzzySummaryHit searchString floor) messages acc s.
Proof.
  unfold fuzzySummaryStep, scanSummaryStep, fuzzySummaryHit.
  by destruct (floor <=? partial_ratio searchString (summary s)).
Qed.

Lemma fuzzyMessageLoop_scan `{JSONBuiltin} `{Fuzzball} (searchString : string)
    (floor : Z) (rest : list WithParts) (i : Z) (acc : MatchAcc) :
  fuzzyMessageLoop searchString floor i rest acc =
  scanMessageLoop (fuzzyMessageHit searchString floor) i rest acc.
Proof.
  revert i acc; induction rest as [|msg rest IH]; intros i acc;
    cbn [fuzzyMessageLoop scanMessageLoop]; [done|].
  rewrite IH. f_equal. unfold fuzzyMessageHit.
  case_bool_decide; [done|].
  by destruct (floor <=? partial_ratio searchString (extractMessageContent msg)).
Qed.

Lemma findFuzzyMatches_scan `{JSONBuiltin} `{Fuzzball} (messages : list WithParts)
    (searchString : string) (sums : list CompressSummary) (floor : Z) :
  findFuzzyMatches messages searchString sums floor =
  scan (fuzzySummaryHit searchString floor) (fuzzyMessageHit searchString floor)
    messages sums.
Proof.
  unfold findFuzzyMatches, scan, scanSummaries.
  rewrite fuzzyMessageLoop_scan. do 2 f_equal.
  apply fold_left_ext. intros; apply fuzzySummaryStep_scan.
Qed.

(** ** Sorting the fuzzy candidates *)

Lemma insertByScore_perm (x : MatchResult) (l : list MatchResult) :
  insertByScore x l ≡ₚ x :: l.
Proof.
  induction l as [|y l IH]; cbn [insertByScore]; [done|].
  destruct (score y <=? score x); [done|].
  rewrite IH. apply Permutation_swap.
Qed.

Lemma sortByScoreDesc_perm (l : list MatchResult) : sortByScoreDesc l ≡ₚ l.
Proof.
  induction l as [|x l IH]; [done|].
  unfold sortByScoreDesc in *; cbn [foldr]. by rewrite insertByScore_perm, IH.
Qed.

Lemma sortByScoreDesc_nil (l : list MatchResult) : sortByScoreDesc l = [] → l = [].
Proof.
  intros Hs. apply Permutation_nil_r. by rewrite <- Hs, sortByScoreDesc_perm.
Qed.

Lemma insertByScore_descending (x : MatchResult) (l : list MatchResult) :
  descending l → descending (insertByScore x l).
Proof.
  unfold descending. induction 1 as [|y l Hl IH Hy]; cbn [insertByScore].
  - repeat constructor.
  - destruct (score y <=? score x) eqn:Hc.
    + apply Z.leb_le in Hc. constructor; [by constructor|].
      constructor; [done|]. eapply Forall_impl; [apply Hy|]. cbn. lia.
    + apply Z.leb_gt in Hc. constructor; [done|].
      rewrite insertByScore_perm. constructor; [lia | done].
  Qed.

Lemma sortByScoreDesc_descending (l : list MatchResult) : descending (sortByScoreDesc l).
Proof.
  induction l as [|x l IH]; [constructor|].
  unfold sortByScoreDesc in *; cbn [foldr]. by apply insertByScore_descending.
Qed.

(** The head of the sorted list is the first candidate, in order of discovery,
    among those of highest score: the sort is stable. *)
Lemma sortByScoreDesc_head (l : list MatchResult) (best : MatchResult)
    (tail : list MatchResult) :
  sortByScoreDesc l = best :: tail →
  ∃ before after, l = before ++ best :: after ∧
    Forall (λ c, score c < score best) before ∧
    Forall (λ c, score c ≤ score best) after.
Proof.
  revert best tail; induction l as [|x l IH]; intros best tail; [done|].
  unfold sortByScoreDesc in *; cbn [foldr].
  destruct (foldr insertByScore [] l) as [|b t] eqn:Hs; cbn [insertByScore].
  - apply sortByScoreDesc_nil in Hs as ->. intros [= <- <-].
    by exists [], [].
  - destruct (IH b t eq_refl) as (before & after & -> & Hb & Ha).
    destruct (score b <=? score x) eqn:Hc.
    + apply Z.leb_le in Hc. intros [= <- <-]. exists [], (before ++ b :: after).
      split; [done|]. split; [constructor|].
      apply Forall_app. split; [|constructor].
      * eapply Forall_impl; [apply Hb|]. cbn. lia.
      * done.
      * eapply Forall_impl; [apply Ha|]. cbn. lia.
    + apply Z.leb_gt in Hc. intros [= <- <-]. exists (x :: before), after.
      split; [done|]. split; [by constructor | done].
Qed.

(** ** [findStringInMessages], phase by phase *)

Section Resolution.
Context `{JSONBuiltin} `{Fuzzball}.
Context (messages : list WithParts) (searchString : string).
Context (sums : list CompressSummary) (stringType : StringType).
Context (cfg : FuzzyConfig).

Lemma resolve_exact_one (m : MatchResult) :
  findExactMatches messages searchString sums = [m] →
  findStringInMessages messages searchString sums stringType cfg =
    ([], Ok {| loc_messageId := messageId m; loc_messageIndex := messageIndex m |}).
Proof. intros He. unfold findStringInMessages. by rewrite He. Qed.

Lemma resolve_exact_many (m1 m2 : MatchResult) (rest : list MatchResult) :
  findExactMatches messages searchString sums = m1 :: m2 :: rest →
  findStringInMessages messages searchString sums stringType cfg =
    ([], Throw (MultipleExactMatches stringType)).
Proof. intros He. unfold findStringInMessages. by rewrite He. Qed.

Lemma resolve_fuzzy_none :
  findExactMatches messages searchString sums = [] →
  findFuzzyMatches messages searchString sums (minScore cfg) = [] →
  findStringInMessages messages searchString sums stringType cfg =
    ([], Throw (NotFoundInConversation stringType)).
Proof. intros He Hf. unfold findStringInMessages. by rewrite He, Hf. Qed.

Lemma resolve_fuzzy_sorted (best : MatchResult) (tail : list MatchResult) :
  findExactMatches messages searchString sums = [] →
  sortByScoreDesc (findFuzzyMatches messages searchString sums (minScore cfg))
    = best :: tail →
  findStringInMessages messages searchString sums stringType cfg =
    match tail with
    | secondBest :: _ =>
        if score best - score secondBest <? minGap cfg
        then ([], Throw (AmbiguousFuzzyMatch stringType (score best) (score secondBest)))
        else ([fuzzyLogLine stringType best],
              Ok {| loc_messageId := messageId best;
                    loc_messageIndex := messageIndex best |})
    | [] => ([fuzzyLogLine stringType best],
             Ok {| loc_messageId := messageId best;
                   loc_messageIndex := messageIndex best |})
    end.
Proof.
  intros He Hs. unfold findStringInMessages. rewrite He.
  destruct (findFuzzyMatches messages searchString sums (minScore cfg)) as [|c cs] eqn:Hf.
  { discriminate. }
  by rewrite Hs.
Qed.
End Resolution.

(** ** The match engine: claims *)

Lemma fuzzy_candidate_locates `{JSONBuiltin} `{Fuzzball} (messages : list WithParts)
    (searchString : string) (sums : list CompressSummary) (floor : Z)
    (best : MatchResult) (tail : list MatchResult) :
  sortByScoreDesc (findFuzzyMatches messages searchString sums floor) = best :: tail →
  locates messages (messageId best) (messageIndex best).
Proof.
  intros Hs. rewrite findFuzzyMatches_scan in Hs.
  eapply scan_locates. rewrite <- sortByScoreDesc_perm, Hs. apply list_elem_of_here.
Qed.

(** C1. Resolution yields at most one locator. When the exact phase has
    exactly one candidate, [findStringInMessages] returns that candidate's
    identifier and index (and the index points at a message with that
    identifier); when it has two or more candidates, which carry distinct
    identifiers, it throws the multiple-exact-matches error, an
    [AmbiguousMatch], instead of choosing; and every locator it returns, in
    either phase, points at a message of the conversation with the returned
    identifier. *)
Theorem exact_phase_resolution `{JSONBuiltin} `{Fuzzball} (messages : list WithParts)
    (searchString : string) (sums : list CompressSummary) (stringType : StringType)
    (cfg : FuzzyConfig) :
  (∀ m, findExactMatches messages searchString sums = [m] →
        findStringInMessages messages searchString sums stringType cfg =
          ([], Ok {| loc_messageId := messageId m; loc_messageIndex := messageIndex m |}) ∧
        locates messages (messageId m) (messageIndex m)) ∧
  (∀ m1 m2 rest, findExactMatches messages searchString sums = m1 :: m2 :: rest →
        findStringInMessages messages searchString sums stringType cfg =
          ([], Throw (MultipleExactMatches stringType)) ∧
        errorKind (MultipleExactMatches stringType) = AmbiguousMatch ∧
        messageId m1 ≠ messageId m2) ∧
  (∀ loc, (findStringInMessages messages searchString sums stringType cfg).2 = Ok loc →
        locates messages (loc_messageId loc) (loc_messageIndex loc)).
Proof.
  split; [|split].
  - intros m He. split; [by apply resolve_exact_one|].
    rewrite findExactMatches_scan in He. eapply scan_locates.
    rewrite He. apply list_elem_of_here.
  - intros m1 m2 rest He. split; [by eapply resolve_exact_many|]. split; [done|].
    pose proof (scan_NoDup (exactSummaryHit searchString) (exactMessageHit searchString)
                  messages sums) as Hnd.
    rewrite <- findExactMatches_scan, He in Hnd. cbn [map] in Hnd.
    apply NoDup_cons in Hnd as [Hnotin _]. intros Heq. apply Hnotin.
    rewrite Heq. apply list_elem_of_here.
  - intros loc.
    destruct (findExactMatches messages searchString sums) as [|m [|m2 rest]] eqn:He.
    + destruct (sortByScoreDesc
                  (findFuzzyMatches messages searchString sums (minScore cfg)))
        as [|best tail] eqn:Hs.
      * apply sortByScoreDesc_nil in Hs.
        rewrite (resolve_fuzzy_none _ _ _ _ _ He Hs). discriminate.
      * rewrite (resolve_fuzzy_sorted _ _ _ _ _ best tail He Hs).
        pose proof (fuzzy_candidate_locates _ _ _ _ _ _ Hs) as Hloc.
        destruct tail as [|second rest];
          [|destruct (score best - score second <? minGap cfg)];
          cbn [snd]; intros [= <-]; done.
    + rewrite (resolve_exact_one _ _ _ _ _ m He). cbn [snd]. intros [= <-].
      rewrite findExactMatches_scan in He. eapply scan_locates.
      rewrite He. apply list_elem_of_here.
    + rewrite (resolve_exact_many _ _ _ _ _ m m2 rest He). discriminate.
Qed.

(** On the sample conversation the word alpha resolves to the first message;
    where two messages hold it, resolution refuses to choose. *)
Lemma exact_phase_resolution_witness :
  @findStringInMessages standardJSON prefixRatio sampleConversation "alpha" []
    startString DEFAULT_FUZZY_CONFIG
  = ([], Ok {| loc_messageId := "m1"; loc_messageIndex := 0 |}) ∧
  @findStringInMessages standardJSON prefixRatio echoConversation "alpha" []
    endString DEFAULT_FUZZY_CONFIG
  = ([], Throw (MultipleExactMatches endString)).
Proof.
  split.
  - apply (proj1 (@exact_phase_resolution standardJSON prefixRatio sampleConversation
                    "alpha" [] startString DEFAULT_FUZZY_CONFIG)
             {| messageId := "m1"; messageIndex := 0; score := 100; matchType := exact |}).
    vm_compute. reflexivity.
  - apply (proj1 (proj2 (@exact_phase_resolution standardJSON prefixRatio echoConversation
                           "alpha" [] endString DEFAULT_FUZZY_CONFIG))
             {| messageId := "m1"; messageIndex := 0; score := 100; matchType := exact |}
             {| messageId := "m2"; messageIndex := 1; score := 100; matchType := exact |}
             []).
    vm_compute. reflexivity.
Defined.

(** X7. When no summary contains the search string and exactly one message
    does, resolution returns that message and its index. *)
Lemma exact_unique_message_resolves `{JSONBuiltin} `{Fuzzball} (messages : list WithParts)
    (searchString : string) (sums : list CompressSummary) (stringType : StringType)
    (cfg : FuzzyConfig) (i : nat) (msg : WithParts) :
  Forall (λ s, includes (summary s) searchString = false) sums →
  messages !! i = Some msg →
  includes (extractMessageContent msg) searchString = true →
  (∀ j other, messages !! j = Some other →
              includes (extractMessageContent other) searchString = true → j = i) →
  findStringInMessages messages searchString sums stringType cfg =
    ([], Ok {| loc_messageId := id (info msg); loc_messageIndex := Z.of_nat i |}).
Proof.
  intros Hsums Hi Hinc Honly.
  pose proof (scan_NoDup (exactSummaryHit searchString) (exactMessageHit searchString)
                messages sums) as Hnd.
  assert (∀ c, c ∈ findExactMatches messages searchString sums →
               messageId c = id (info msg) ∧ messageIndex c = Z.of_nat i) as Hall.
  { intros c Hc. rewrite findExactMatches_scan in Hc.
    apply scan_provenance in Hc
      as [(s & Hs & Hhit & _)|(other & Hpos & Hother & Hid & Hhit)].
    - eapply Forall_forall in Hsums; [|done]. cbn beta in Hsums.
      unfold exactSummaryHit in Hhit. by rewrite Hsums in Hhit.
    - unfold exactMessageHit in Hhit.
      destruct (includes (extractMessageContent other) searchString) eqn:Ho; [|done].
      pose proof (Honly _ _ Hother Ho) as Hj. rewrite Hj in Hother.
      assert (other = msg) as -> by congruence. split; [done | lia]. }
  assert (∃ c, c ∈ findExactMatches messages searchString sums) as [c Hc].
  { rewrite findExactMatches_scan.
    destruct (scan_message_candidate (exactSummaryHit searchString)
                (exactMessageHit searchString) messages sums msg) as (c & Hc & _).
    - by eapply list_elem_of_lookup_2.
    - unfold exactMessageHit. rewrite Hinc. eauto.
    - eauto. }
  rewrite <- findExactMatches_scan in Hnd.
  destruct (findExactMatches messages searchString sums) as [|a [|b rest]] eqn:He.
  - by apply elem_of_nil in Hc.
  - rewrite (resolve_exact_one _ _ _ _ _ a He).
    destruct (Hall a) as [-> ->]; [apply list_elem_of_here | done].
  - destruct (Hall a) as [Ha _]; [apply list_elem_of_here|].
    destruct (Hall b) as [Hb _]; [apply list_elem_of_further, list_elem_of_here|].
    cbn [map] in Hnd. apply NoDup_cons in Hnd as [Hnotin _].
    exfalso. apply Hnotin. rewrite Ha, Hb. apply list_elem_of_here.
Qed.

(** Two accepted messages with different identifiers leave the exact phase
    with two candidates or more. *)
Lemma two_hits_ambiguous `{JSONBuiltin} `{Fuzzball} (messages : list WithParts)
    (searchString : string) (sums : list CompressSummary) (stringType : StringType)
    (cfg : FuzzyConfig) (msg1 msg2 : WithParts) :
  msg1 ∈ messages → msg2 ∈ messages → id (info msg1) ≠ id (info msg2) →
  is_Some (exactMessageHit searchString msg1) →
  is_Some (exactMessageHit searchString msg2) →
  findStringInMessages messages searchString sums stringType cfg =
    ([], Throw (MultipleExactMatches stringType)).
Proof.
  intros Hin1 Hin2 Hne Hhit1 Hhit2.
  destruct (scan_message_candidate (exactSummaryHit searchString)
              (exactMessageHit searchString) messages sums msg1) as (c1 & Hc1 & Hid1);
    [done..|].
  destruct (scan_message_candidate (exactSummaryHit searchString)
              (exactMessageHit searchString) messages sums msg2) as (c2 & Hc2 & Hid2);
    [done..|].
  rewrite <- findExactMatches_scan in Hc1, Hc2.
  destruct (findExactMatches messages searchString sums) as [|a [|b rest]] eqn:He.
  - by apply elem_of_nil in Hc1.
  - apply list_elem_of_singleton in Hc1, Hc2. congruence.
  - by rewrite (resolve_exact_many _ _ _ _ _ a b rest He).
Qed.

(** X8. When two messages with different identifiers contain the search
    string, resolution refuses to choose, whatever the summaries hold. *)
Lemma exact_two_messages_ambiguous `{JSONBuiltin} `{Fuzzball} (messages : list WithParts)
    (searchString : string) (sums : list CompressSummary) (stringType : StringType)
    (cfg : FuzzyConfig) (msg1 msg2 : WithParts) :
  msg1 ∈ messages → msg2 ∈ messages → id (info msg1) ≠ id (info msg2) →
  includes (extractMessageContent msg1) searchString = true →
  includes (extractMessageContent msg2) searchString = true →
  findStringInMessages messages searchString sums stringType cfg =
    ([], Throw (MultipleExactMatches stringType)).
Proof.
  intros Hin1 Hin2 Hne Hinc1 Hinc2.
  apply (two_hits_ambiguous _ _ _ _ _ msg1 msg2); try done.
  - unfold exactMessageHit. rewrite Hinc1. eauto.
  - unfold exactMessageHit. rewrite Hinc2. eauto.
Qed.

(** C5. In the exact phase the candidates from compress summaries come first:
    each stands for a summary whose text contains the search string and sits
    at that summary's anchor message; every anchored summary that contains the
    search string has such a candidate; the candidates that follow stand for
    raw messages whose content contains the search string and whose
    identifier no summary candidate carries; and no two candidates share a
    message identifier. *)
Theorem exact_phase_summaries_first `{JSONBuiltin} (messages : list WithParts)
    (searchString : string) (sums : list CompressSummary) :
  ∃ fromMessages,
    findExactMatches messages searchString sums =
      exactSummaryMatches messages searchString sums ++ fromMessages ∧
    (∀ c, c ∈ exactSummaryMatches messages searchString sums →
       ∃ s, s ∈ sums ∧ includes (summary s) searchString = true ∧
            messageId c = anchorMessageId s ∧
            messageIndex c = anchorIndexOf messages s ∧
            locates messages (messageId c) (messageIndex c)) ∧
    (∀ s, s ∈ sums → includes (summary s) searchString = true →
          anchored messages s = true →
       ∃ c, c ∈ exactSummaryMatches messages searchString sums ∧
            messageId c = anchorMessageId s ∧
            messageIndex c = anchorIndexOf messages s) ∧
    (∀ c, c ∈ fromMessages →
       (messageId c ∉ map messageId (exactSummaryMatches messages searchString sums)) ∧
       ∃ msg, messages !! Z.to_nat (messageIndex c) = Some msg ∧
              id (info msg) = messageId c ∧
              includes (extractMessageContent msg) searchString = true) ∧
    NoDup (map messageId (findExactMatches messages searchString sums)).
Proof.
  rewrite findExactMatches_scan, exactSummaryMatches_scan.
  destruct (scan_split (exactSummaryHit searchString) (exactMessageHit searchString)
              messages sums) as (added & Hsplit & Hsum & Hmsg).
  exists added. split; [done|]. split; [|split; [|split]].
  - intros c Hc. eapply Forall_forall in Hsum as (s & Hs & Hhit & Hid & Hidx & Hne); [|done].
    exists s. split; [done|]. unfold exactSummaryHit in Hhit.
    destruct (includes (summary s) searchString); [|done].
    split; [done|]. split; [done|]. split; [done|].
    rewrite Hid, Hidx. by apply anchorIndexOf_locates.
  - intros s Hs Hinc Hanch. apply scan_summary_candidate; [done| |].
    + unfold exactSummaryHit. rewrite Hinc. eauto.
    + rewrite <- findIndex_anchored in Hanch.
      by apply negb_true_iff, Z.eqb_neq in Hanch.
  - intros c Hc. eapply Forall_forall in Hmsg as [(msg & _ & Hmsg & Hid & Hhit) Hfresh]; [|done].
    split; [done|]. exists msg. split; [done|]. split; [done|].
    unfold exactMessageHit in Hhit.
    by destruct (includes (extractMessageContent msg) searchString).
  - apply scan_NoDup.
Qed.

(** Both messages hold the word alpha and a summary of the second holds it
    too: the summary claims the second message, at index 1, and the
    identifiers of the candidates stay distinct. *)
Lemma exact_phase_summaries_first_witness :
  (∃ c, c ∈ exactSummaryMatches echoConversation "alpha" [anchoredSummary] ∧
        messageId c = "m2" ∧ messageIndex c = 1) ∧
  NoDup (map messageId
           (@findExactMatches standardJSON echoConversation "alpha" [anchoredSummary])).
Proof.
  destruct (@exact_phase_summaries_first standardJSON echoConversation "alpha"
              [anchoredSummary]) as (fromMessages & _ & _ & Hsummary & _ & Hdistinct).
  split; [|exact Hdistinct].
  apply (Hsummary anchoredSummary); [apply list_elem_of_here | reflexivity..].
Defined.

(** C3. In the fuzzy phase, with the candidates sorted by score, highest
    first: the head has the highest score of all; when a second candidate
    exists and the best score minus the second-best score is strictly below
    [minGap] (15 by default), resolution throws the ambiguous-fuzzy-match
    error, an [AmbiguousMatch], whether or not the best score is unique, and
    logs nothing; otherwise the best candidate is returned and exactly one
    info line goes to the logger, whose text holds the kind of string
    searched for, the score of the best candidate in decimal followed by a
    percent sign, and the index of its message. *)
Theorem fuzzy_confidence_gap `{JSONBuiltin} `{Fuzzball} (messages : list WithParts)
    (searchString : string) (sums : list CompressSummary) (stringType : StringType)
    (cfg : FuzzyConfig) (best : MatchResult) (tail : list MatchResult) :
  findExactMatches messages searchString sums = [] →
  sortByScoreDesc (findFuzzyMatches messages searchString sums (minScore cfg))
    = best :: tail →
  (∀ c, c ∈ findFuzzyMatches messages searchString sums (minScore cfg) →
        score c ≤ score best) ∧
  descending (best :: tail) ∧
  (∀ second rest, tail = second :: rest →
     score best - score second < minGap cfg →
     findStringInMessages messages searchString sums stringType cfg =
       ([], Throw (AmbiguousFuzzyMatch stringType (score best) (score second))) ∧
     errorKind (AmbiguousFuzzyMatch stringType (score best) (score second))
       = AmbiguousMatch) ∧
  (tail = [] ∨ (∃ second rest, tail = second :: rest ∧
                               minGap cfg ≤ score best - score second) →
     findStringInMessages messages searchString sums stringType cfg =
       ([LogInfo ("Fuzzy matched " +:+
                  match stringType with
                  | startString => "startString"
                  | endString => "endString"
                  end +:+
                  " with " +:+ pretty (score best) +:+
                  "% confidence at message index " +:+ pretty (messageIndex best))],
        Ok {| loc_messageId := messageId best; loc_messageIndex := messageIndex best |})) ∧
  minGap DEFAULT_FUZZY_CONFIG = 15.
Proof.
  intros He Hs.
  pose proof (sortByScoreDesc_descending
                (findFuzzyMatches messages searchString sums (minScore cfg))) as Hd.
  rewrite Hs in Hd.
  split; [|split; [done|split; [|split; [|done]]]].
  - intros c Hc. rewrite <- sortByScoreDesc_perm, Hs in Hc.
    apply elem_of_cons in Hc as [->|Hc]; [lia|].
    apply StronglySorted_inv in Hd as [_ Hall].
    by eapply Forall_forall in Hall.
  - intros second rest -> Hgap.
    rewrite (resolve_fuzzy_sorted _ _ _ _ _ best (second :: rest) He Hs).
    apply Z.ltb_lt in Hgap. by rewrite Hgap.
  - intros Htail.
    rewrite (resolve_fuzzy_sorted _ _ _ _ _ best tail He Hs).
    assert (fuzzyLogLine stringType best =
            LogInfo ("Fuzzy matched " +:+
                     match stringType with
                     | startString => "startString"
                     | endString => "endString"
                     end +:+
                     " with " +:+ pretty (score best) +:+
                     "% confidence at message index " +:+ pretty (messageIndex best)))
      as -> by (by destruct stringType).
    destruct Htail as [->|(second & rest & -> & Hgap)]; [done|].
    apply Z.ltb_ge in Hgap. by rewrite Hgap.
Qed.

(** Scores 95 and 90 against the default gap of 15: the best score is unique,
    and the resolution is still refused, without a log line. Scores 95 and 60
    against a floor of 50: the first message is returned and the line logged
    carries the 95. *)
Lemma fuzzy_confidence_gap_witness :
  @findStringInMessages standardJSON prefixRatio nearConversation
    "abcdefghijklmnopqrst" [] startString DEFAULT_FUZZY_CONFIG
  = ([], Throw (AmbiguousFuzzyMatch startString 95 90)) ∧
  @findStringInMessages standardJSON prefixRatio apartConversation
    "abcdefghijklmnopqrst" [] endString lowFloorConfig
  = ([LogInfo "Fuzzy matched endString with 95% confidence at message index 1"],
     Ok {| loc_messageId := "m2"; loc_messageIndex := 1 |}).
Proof.
  split.
  - pose (best := {| messageId := "m1"; messageIndex := 0; score := 95;
                     matchType := fuzzy |}).
    pose (second := {| messageId := "m2"; messageIndex := 1; score := 90;
                       matchType := fuzzy |}).
    assert (@findExactMatches standardJSON nearConversation "abcdefghijklmnopqrst" [] = [])
      as He by (vm_compute; reflexivity).
    assert (sortByScoreDesc
              (@findFuzzyMatches standardJSON prefixRatio nearConversation
                 "abcdefghijklmnopqrst" [] (minScore DEFAULT_FUZZY_CONFIG))
            = best :: [second]) as Hs by (vm_compute; reflexivity).
    destruct (@fuzzy_confidence_gap standardJSON prefixRatio nearConversation
                "abcdefghijklmnopqrst" [] startString DEFAULT_FUZZY_CONFIG
                best [second] He Hs) as (_ & _ & Hamb & _).
    apply (Hamb second [] eq_refl). vm_compute. reflexivity.
  - pose (best := {| messageId := "m2"; messageIndex := 1; score := 95;
                     matchType := fuzzy |}).
    pose (second := {| messageId := "m1"; messageIndex := 0; score := 60;
                       matchType := fuzzy |}).
    assert (@findExactMatches standardJSON apartConversation "abcdefghijklmnopqrst" [] = [])
      as He by (vm_compute; reflexivity).
    assert (sortByScoreDesc
              (@findFuzzyMatches standardJSON prefixRatio apartConversation
                 "abcdefghijklmnopqrst" [] (minScore lowFloorConfig))
            = best :: [second]) as Hs by (vm_compute; reflexivity).
    destruct (@fuzzy_confidence_gap standardJSON prefixRatio apartConversation
                "abcdefghijklmnopqrst" [] endString lowFloorConfig
                best [second] He Hs) as (_ & _ & _ & Hacc & _).
    rewrite Hacc; [reflexivity|].
    right. exists second, []. split; [reflexivity|]. vm_compute. discriminate.
Defined.

(** C4. The fuzzy phase runs only when the exact phase has no candidate: with
    an exact candidate the outcome does not depend on the scorer. Every fuzzy
    candidate reaches [minScore] (85 by default) with the score of the summary
    or message it stands for. When the exact phase has no candidate and every
    summary and every message scores below [minScore], resolution throws the
    not-found error. *)
Theorem fuzzy_floor `{JSONBuiltin} `{Fuzzball} (messages : list WithParts)
    (searchString : string) (sums : list CompressSummary) (stringType : StringType)
    (cfg : FuzzyConfig) :
  (findExactMatches messages searchString sums ≠ [] →
   ∀ other : Fuzzball,
     @findStringInMessages _ other messages searchString sums stringType cfg =
     findStringInMessages messages searchString sums stringType cfg) ∧
  (∀ c, c ∈ findFuzzyMatches messages searchString sums (minScore cfg) →
     minScore cfg ≤ score c ∧ matchType c = fuzzy ∧
     ((∃ s, s ∈ sums ∧ messageId c = anchorMessageId s ∧
            score c = partial_ratio searchString (summary s)) ∨
      (∃ msg, messages !! Z.to_nat (messageIndex c) = Some msg ∧
              id (info msg) = messageId c ∧
              score c = partial_ratio searchString (extractMessageContent msg)))) ∧
  (findExactMatches messages searchString sums = [] →
   Forall (λ s, partial_ratio searchString (summary s) < minScore cfg) sums →
   Forall (λ m, partial_ratio searchString (extractMessageContent m) < minScore cfg)
     messages →
   findFuzzyMatches messages searchString sums (minScore cfg) = [] ∧
   findStringInMessages messages searchString sums stringType cfg =
     ([], Throw (NotFoundInConversation stringType)) ∧
   errorKind (NotFoundInConversation stringType) = NotFound) ∧
  minScore DEFAULT_FUZZY_CONFIG = 85.
Proof.
  split; [|split; [|split; [|done]]].
  - intros Hne other. unfold findStringInMessages.
    by destruct (findExactMatches messages searchString sums) as [|m [|m2 rest]].
  - intros c Hc. rewrite findFuzzyMatches_scan in Hc.
    apply scan_provenance in Hc as [(s & Hs & Hhit & Hid & _)|(msg & _ & Hm & Hid & Hhit)].
    + unfold fuzzySummaryHit in Hhit.
      destruct (minScore cfg <=? partial_ratio searchString (summary s)) eqn:Hfloor; [|done].
      apply Z.leb_le in Hfloor. injection Hhit as Hsc Hty.
      split; [lia|]. split; [done|]. left. exists s. done.
    + unfold fuzzyMessageHit in Hhit.
      destruct (minScore cfg <=? partial_ratio searchString (extractMessageContent msg))
        eqn:Hfloor; [|done].
      apply Z.leb_le in Hfloor. injection Hhit as Hsc Hty.
      split; [lia|]. split; [done|]. right. exists msg. done.
  - intros He Hsums Hmsgs.
    assert (findFuzzyMatches messages searchString sums (minScore cfg) = []) as Hf.
    { rewrite findFuzzyMatches_scan. apply scan_nil.
      - eapply Forall_impl; [apply Hsums|]. intros s Hs. cbn beta in Hs. left.
        unfold fuzzySummaryHit.
        destruct (minScore cfg <=? partial_ratio searchString (summary s)) eqn:Hfloor;
          [apply Z.leb_le in Hfloor; lia | done].
      - eapply Forall_impl; [apply Hmsgs|]. intros m Hm. cbn beta in Hm.
        unfold fuzzyMessageHit.
        destruct (minScore cfg <=? partial_ratio searchString (extractMessageContent m))
          eqn:Hfloor; [apply Z.leb_le in Hfloor; lia | done]. }
    split; [done|]. split; [by apply resolve_fuzzy_none | done].
Qed.

(** The misspelt word of the specification's example reaches 60 on the first
    message and 0 on the second: not found. *)
Lemma fuzzy_floor_witness :
  @findStringInMessages standardJSON prefixRatio sampleConversation "alpah" []
    startString DEFAULT_FUZZY_CONFIG
  = ([], Throw (NotFoundInConversation startString)).
Proof.
  apply (proj1 (proj2 (proj2 (@fuzzy_floor standardJSON prefixRatio sampleConversation
                                "alpah" [] startString DEFAULT_FUZZY_CONFIG)))).
  - vm_compute. reflexivity.
  - constructor.
  - repeat constructor.
Defined.

(** C9. A compress summary whose anchor is no message of the list contributes
    no candidate in either phase: both finders, and so the resolution, give
    what they give without such summaries. When every summary is orphaned, or
    neither contains the search string nor reaches the floor, and no raw
    message contains the search string or reaches the floor, resolution
    throws the not-found error. *)
Theorem orphaned_summaries_ignored `{JSONBuiltin} `{Fuzzball} (messages : list WithParts)
    (searchString : string) (sums : list CompressSummary) (stringType : StringType)
    (cfg : FuzzyConfig) :
  findExactMatches messages searchString sums =
    findExactMatches messages searchString (List.filter (anchored messages) sums) ∧
  findFuzzyMatches messages searchString sums (minScore cfg) =
    findFuzzyMatches messages searchString (List.filter (anchored messages) sums)
      (minScore cfg) ∧
  findStringInMessages messages searchString sums stringType cfg =
    findStringInMessages messages searchString (List.filter (anchored messages) sums)
      stringType cfg ∧
  (Forall (λ s, anchored messages s = false) sums →
   findExactMatches messages searchString sums = findExactMatches messages searchString [] ∧
   findFuzzyMatches messages searchString sums (minScore cfg) =
     findFuzzyMatches messages searchString [] (minScore cfg)) ∧
  (Forall (λ s, anchored messages s = false ∨
                (includes (summary s) searchString = false ∧
                 partial_ratio searchString (summary s) < minScore cfg)) sums →
   Forall (λ m, includes (extractMessageContent m) searchString = false) messages →
   Forall (λ m, partial_ratio searchString (extractMessageContent m) < minScore cfg)
     messages →
   findExactMatches messages searchString sums = [] ∧
   findStringInMessages messages searchString sums stringType cfg =
     ([], Throw (NotFoundInConversation stringType))).
Proof.
  assert (findExactMatches messages searchString sums =
          findExactMatches messages searchString (List.filter (anchored messages) sums))
    as Hexact by (rewrite !findExactMatches_scan; apply scan_anchored).
  assert (findFuzzyMatches messages searchString sums (minScore cfg) =
          findFuzzyMatches messages searchString (List.filter (anchored messages) sums)
            (minScore cfg))
    as Hfuzzy by (rewrite !findFuzzyMatches_scan; apply scan_anchored).
  split; [done|]. split; [done|]. split; [|split].
  - unfold findStringInMessages. by rewrite <- Hexact, <- Hfuzzy.
  - intros Horphan.
    assert (List.filter (anchored messages) sums = []) as Hnone.
    { clear Hexact Hfuzzy. induction sums as [|s l IH]; [done|].
      apply Forall_cons in Horphan as [Hs Hl]. cbn [List.filter].
      rewrite Hs. by apply IH. }
    by rewrite Hexact, Hfuzzy, Hnone.
  - intros Hsums Hinc Hlow.
    assert (findExactMatches messages searchString sums = []) as He.
    { rewrite findExactMatches_scan. apply scan_nil.
      - eapply Forall_impl; [apply Hsums|]. intros s [Hs|[Hs _]]; [by right|left].
        unfold exactSummaryHit. by rewrite Hs.
      - eapply Forall_impl; [apply Hinc|]. intros m Hm. cbn beta in Hm.
        unfold exactMessageHit. by rewrite Hm. }
    split; [done|]. apply resolve_fuzzy_none; [done|].
    rewrite findFuzzyMatches_scan. apply scan_nil.
    + eapply Forall_impl; [apply Hsums|]. intros s [Hs|[_ Hs]]; [by right|left].
      unfold fuzzySummaryHit.
      destruct (minScore cfg <=? partial_ratio searchString (summary s)) eqn:Hfloor;
        [apply Z.leb_le in Hfloor; lia | done].
    + eapply Forall_impl; [apply Hlow|]. intros m Hm. cbn beta in Hm.
      unfold fuzzyMessageHit.
      destruct (minScore cfg <=? partial_ratio searchString (extractMessageContent m))
        eqn:Hfloor; [apply Z.leb_le in Hfloor; lia | done].
Qed.

(** The text of an orphaned summary, searched for in the sample conversation,
    is not found. *)
Lemma orphaned_summaries_ignored_witness :
  @findStringInMessages standardJSON prefixRatio sampleConversation "omega delta"
    [orphanSummary] startString DEFAULT_FUZZY_CONFIG
  = ([], Throw (NotFoundInConversation startString)).
Proof.
  apply (@orphaned_summaries_ignored standardJSON prefixRatio sampleConversation
           "omega delta" [orphanSummary] startString DEFAULT_FUZZY_CONFIG).
  - constructor; [by left | constructor].
  - repeat constructor.
  - repeat constructor.
Defined.

(** C8 (as amended). The content extractor maps a message to the
    concatenation, every fragment led by one space and in part order, of the
    fragments the source keeps ([keptFragments]): those the specification
    lists, with the input of a tool part counted only when it is truthy. On a
    message whose tool inputs are all absent or truthy this is the
    concatenation the specification describes. *)
Theorem extractMessageContent_fragments `{JSONBuiltin} (msg : WithParts) :
  extractMessageContent msg = spaced (List.flat_map keptFragments (partsOf msg)) ∧
  (Forall inputAbsentOrTruthy (partsOf msg) → extractMessageContent msg = specExtract msg).
Proof.
  assert (extractMessageContent msg = spaced (List.flat_map keptFragments (partsOf msg)))
    as Hkept.
  { unfold extractMessageContent. fold (partsOf msg).
    by rewrite extract_fold, append_nil_l. }
  split; [done|]. intros Hall. rewrite Hkept. unfold specExtract. f_equal.
  clear Hkept. induction (partsOf msg) as [|part ps IH]; [done|].
  apply Forall_cons in Hall as [Hpart Hps]. cbn [List.flat_map].
  rewrite (IH Hps). f_equal.
  unfold keptFragments, specFragments, inputAbsentOrTruthy in *. cbn zeta in Hpart.
  destruct (isStr (field part "type") "text" || isStr (field part "type") "reasoning");
    [done|].
  destruct (isStr (field part "type") "tool"); [|done].
  f_equal. destruct (Hpart eq_refl) as [->|[->|Ht]]; [done|done|].
  rewrite Ht. by destruct (getProp (field part "state") "input").
Qed.

(** On a tool call with an object for input the source and the specification
    agree. *)
Lemma extractMessageContent_fragments_witness :
  @extractMessageContent standardJSON toolMessage = @specExtract standardJSON toolMessage.
Proof.
  apply (proj2 (@extractMessageContent_fragments standardJSON toolMessage)).
  apply List.Forall_cons; [|apply List.Forall_cons; [|apply List.Forall_nil]].
  - intros Htool. vm_compute in Htool. discriminate Htool.
  - intros _. right. right. reflexivity.
Defined.

(** A message with a completed tool call, output [out] and input [0]: the
    specification's extractor gives the output followed by the input as JSON,
    the source gives the output alone, because [0] is falsy. The same happens
    to an input that is a string already, the empty one. *)
Lemma extractMessageContent_drops_falsy_input :
  @extractMessageContent standardJSON zeroInputMessage = " out" ∧
  List.flat_map (@specFragments standardJSON) (partsOf zeroInputMessage) = ["out"; "0"] ∧
  @specExtract standardJSON zeroInputMessage = " out 0" ∧
  @extractMessageContent standardJSON emptyInputMessage = " out" ∧
  List.flat_map (@specFragments standardJSON) (partsOf emptyInputMessage)
    = ["out"; EmptyString] ∧
  @specExtract standardJSON emptyInputMessage = " out ".
Proof. vm_compute. repeat split. Qed.

(** ** The distill tool *)

Lemma trimEnd_cons_nonempty (c : ascii) (s : string) :
  isWhiteSpace c = false → trimEnd (String c s) ≠ EmptyString.
Proof. intros Hc. cbn [trimEnd]. rewrite Hc. by destruct (trimEnd s). Qed.

(** [trim] leaves nothing exactly of the strings made of white space. *)
Lemma trim_empty (s : string) : trim s = EmptyString ↔ allWhiteSpace s = true.
Proof.
  unfold trim. induction s as [|c s IH]; [done|].
  cbn [trimStart allWhiteSpace]. destruct (isWhiteSpace c) eqn:Hc; cbn [andb]; [done|].
  split; [|done]. intros Ht. by apply trimEnd_cons_nonempty in Ht.
Qed.

Lemma validId_false (v : JsVal) : validId v = false ↔ badId v.
Proof.
  unfold validId, badId. destruct v; cbn [asString]; try done.
  rewrite negb_false_iff, String.eqb_eq. apply trim_empty.
Qed.

Lemma validDistillation_false (v : JsVal) : validDistillation v = false ↔ notAString v.
Proof. unfold validDistillation, notAString. by destruct v. Qed.

Lemma forallb_false_Exists {A} (p : A → bool) (P : A → Prop) (l : list A) :
  (∀ x, p x = false ↔ P x) → forallb p l = false ↔ Exists P l.
Proof.
  intros Hp. induction l as [|x l IH]; cbn [forallb].
  - split; [done | by intros ?%Exists_nil].
  - rewrite Exists_cons, andb_false_iff, IH, Hp. done.
Qed.

(** The first and the third test of [execute]: the value is not a non-empty
    array. *)
Lemma missing_test (v : JsVal) :
  negb (truthy v) || negb (isArray v) || (length (arrayItems v) =? 0)%nat = true ↔
  v = JUndefined ∨ isArray v = false ∨ v = JArr [].
Proof.
  destruct v as [| |b|n|s|items|props]; cbn [truthy isArray arrayItems negb orb].
  1-5, 7: by (split; [auto | intros; apply orb_true_r || done]).
  destruct items; cbn [length Nat.eqb]; split; auto; intros [?|[?|?]]; done.
Qed.

(** C10. [execute] throws, without reaching the prune operation, exactly when
    [ids] is missing, not an array, empty or holds an entry that is not a
    string or is white space only, or [distillation] is missing, not an
    array, empty or holds an entry that is not a string; otherwise it hands
    both arrays, as they are, to the prune operation. The lengths of the two
    arrays are never compared: two ids with one distillation string pass. *)
Theorem distill_execute_validation `{JSONBuiltin} (args : JsObject) :
  ((∃ message, (execute args).2 = Throw message) ↔
   idsRejected (field args "ids") ∨ distillationRejected (field args "distillation")) ∧
  ((∃ message, (execute args).2 = Throw message) ∨
   execute args =
     ([], Ok {| call_ids := arrayItems (field args "ids");
                call_reason := "extraction"; call_toolName := "Distill";
                call_distillation := arrayItems (field args "distillation") |})) ∧
  (length (arrayItems (field mismatchedArgs "ids")) = 2%nat ∧
   length (arrayItems (field mismatchedArgs "distillation")) = 1%nat ∧
   execute mismatchedArgs =
     ([], Ok {| call_ids := [JStr "1"; JStr "2"];
                call_reason := "extraction"; call_toolName := "Distill";
                call_distillation := [JStr "one summary"] |})).
Proof.
  split; [|split; [|done]].
  - unfold execute, idsRejected, distillationRejected.
    pose proof (missing_test (field args "ids")) as Hids.
    pose proof (missing_test (field args "distillation")) as Hdist.
    pose proof (forallb_false_Exists validId badId (arrayItems (field args "ids"))
                  validId_false) as Hbad.
    pose proof (forallb_false_Exists validDistillation notAString
                  (arrayItems (field args "distillation")) validDistillation_false)
      as Hnot.
    destruct (negb (truthy (field args "ids")) || negb (isArray (field args "ids"))
              || (length (arrayItems (field args "ids")) =? 0)%nat) eqn:H1.
    { cbn [snd]. split; [|eauto]. intros _. left.
      destruct (proj1 Hids eq_refl) as [?|[?|?]]; auto. }
    assert (∃ ids, field args "ids" = JArr ids ∧ ids ≠ []) as (ids & Eids & Hne).
    { destruct (field args "ids") as [| |b|n|s|items|props]; cbn in H1;
        rewrite ?orb_true_r in H1; try discriminate.
      exists items. split; [done|]. by destruct items. }
    rewrite Eids in *. cbn [arrayItems] in *.
    destruct (forallb validId ids) eqn:H2; cbn [negb].
    2: { cbn [snd]. split; [|eauto]. intros _. left. do 3 right.
         exists ids. split; [done|]. by apply Hbad. }
    assert (¬ (JArr ids = JUndefined ∨ isArray (JArr ids) = false ∨ JArr ids = JArr [] ∨
               (∃ items, JArr ids = JArr items ∧ Exists badId items))) as Hidsok.
    { intros [?|[?|[?|(items & [= <-] & Hex)]]]; try done; try congruence.
      apply Hbad in Hex. congruence. }
    destruct (negb (truthy (field args "distillation"))
              || negb (isArray (field args "distillation"))
              || (length (arrayItems (field args "distillation")) =? 0)%nat) eqn:H3.
    { cbn [snd]. split; [|eauto]. intros _. right.
      destruct (proj1 Hdist eq_refl) as [?|[?|?]]; auto. }
    assert (∃ ds, field args "distillation" = JArr ds ∧ ds ≠ []) as (ds & Eds & Hdne).
    { destruct (field args "distillation") as [| |b|n|s|items|props]; cbn in H3;
        rewrite ?orb_true_r in H3; try discriminate.
      exists items. split; [done|]. by destruct items. }
    rewrite Eds in *. cbn [arrayItems] in *.
    destruct (forallb validDistillation ds) eqn:H4; cbn [negb snd].
    2: { split; [|eauto]. intros _. right. do 3 right.
         exists ds. split; [done|]. by apply Hnot. }
    split; [intros [message Hm]; discriminate|].
    intros [Hrej|[?|[?|[?|(items & [= <-] & Hex)]]]]; try done; try congruence.
    apply Hnot in Hex. congruence.
  - unfold execute.
    repeat match goal with
           | |- context [if ?b then _ else _] => destruct b; cbn [snd]; eauto
           end.
Qed.

(** An id of two spaces is rejected. *)
Lemma distill_execute_validation_witness :
  ∃ message, (@execute standardJSON blankIdArgs).2 = Throw message.
Proof.
  apply (proj1 (@distill_execute_validation standardJSON blankIdArgs)).
  left. do 3 right. exists [JStr "1"; JStr "  "]. split; [reflexivity|].
  apply Exists_cons_tl, Exists_cons_hd. reflexivity.
Defined.

(** ** Objects *)

Lemma field_setField_eq (o : JsObject) (k : string) (v : JsVal) :
  field (setField o k v) k = v.
Proof.
  induction o as [|[k' v'] o IH]; cbn [setField field].
  - by rewrite String.eqb_refl.
  - destruct (String.eqb k' k) eqn:Hk; cbn [field]; by rewrite Hk.
Qed.

Lemma field_setField_ne (o : JsObject) (k k' : string) (v : JsVal) :
  k ≠ k' → field (setField o k v) k' = field o k'.
Proof.
  intros Hne. induction o as [|[k0 v0] o IH]; cbn [setField field].
  - by apply String.eqb_neq in Hne as ->.
  - destruct (String.eqb k0 k) eqn:Hk; cbn [field]; [|by rewrite IH].
    apply String.eqb_eq in Hk as ->. by apply String.eqb_neq in Hne as ->.
Qed.

Lemma setField_setField (o : JsObject) (k : string) (v w : JsVal) :
  setField (setField o k v) k w = setField o k w.
Proof.
  induction o as [|[k' v'] o IH]; cbn [setField].
  - by rewrite String.eqb_refl.
  - destruct (String.eqb k' k) eqn:Hk; cbn [setField]; rewrite Hk; [done|].
    by rewrite IH.
Qed.

Lemma filter_setField (o : JsObject) (k : string) (v : JsVal) :
  List.filter (λ kv, negb (String.eqb kv.1 k)) (setField o k v) =
  List.filter (λ kv, negb (String.eqb kv.1 k)) o.
Proof.
  induction o as [|[k' v'] o IH]; cbn [setField List.filter fst].
  - by rewrite String.eqb_refl.
  - destruct (String.eqb k' k) eqn:Hk; cbn [List.filter fst]; rewrite Hk; cbn [negb];
      [done | by rewrite IH].
Qed.

(** ** The Anthropic descriptor: system injection *)

(** C6. Injecting into a string system channel gives the list of two text
    blocks, objects with the type [text] and a text: the first carries the
    original string, the second the injected text. Injecting into a list
    gives the list with such a block for the injected text appended; into an
    absent channel, the list of that block alone. The injection answers true,
    leaves every other property of the body as it was, and always ends with
    the system channel in list form, the injected block last. *)
Theorem inject_system_message (body : JsObject) (injection : string) :
  (∀ s, field body "system" = JStr s →
     anthropicFormat.injectSystemMessage body injection =
       (setField body "system"
          (JArr [JObj [("type", JStr "text"); ("text", JStr s)];
                 JObj [("type", JStr "text"); ("text", JStr injection)]]), true)) ∧
  (∀ items, field body "system" = JArr items →
     anthropicFormat.injectSystemMessage body injection =
       (setField body "system"
          (JArr (items ++ [JObj [("type", JStr "text"); ("text", JStr injection)]])),
        true)) ∧
  (field body "system" = JUndefined →
     anthropicFormat.injectSystemMessage body injection =
       (setField body "system"
          (JArr [JObj [("type", JStr "text"); ("text", JStr injection)]]), true)) ∧
  (anthropicFormat.injectSystemMessage body injection).2 = true ∧
  (∀ k, k ≠ "system" →
     field (anthropicFormat.injectSystemMessage body injection).1 k = field body k) ∧
  (∃ items, field (anthropicFormat.injectSystemMessage body injection).1 "system" =
              JArr (items ++ [JObj [("type", JStr "text"); ("text", JStr injection)]])).
Proof.
  unfold anthropicFormat.injectSystemMessage.
  split; [|split; [|split; [|split; [done|split]]]].
  - intros s Hs. rewrite Hs, field_setField_eq, setField_setField. done.
  - intros items Hs. by rewrite Hs, Hs.
  - intros Hs. rewrite Hs, field_setField_eq, setField_setField. done.
  - intros k Hk. cbn [fst]. rewrite field_setField_ne by done.
    destruct (field body "system"); by rewrite ?field_setField_ne.
  - cbn [fst]. rewrite field_setField_eq.
    by exists (arrayItems
                 (field match field body "system" with
                        | JStr s => setField body "system" (JArr [textBlock s])
                        | JArr _ => body
                        | _ => setField body "system" (JArr [])
                        end "system")).
Qed.

(** The string system of the format test becomes a list of two blocks, and
    the list system of the format test gets the injected block as its second
    element. *)
Lemma inject_system_message_witness :
  anthropicFormat.injectSystemMessage stringSystemBody "Injected message" =
    ([("system", JArr [JObj [("type", JStr "text"); ("text", JStr "Original system")];
                       JObj [("type", JStr "text"); ("text", JStr "Injected message")]]);
      ("messages", JArr [])], true) ∧
  anthropicFormat.injectSystemMessage listSystemBody "Injected" =
    ([("system", JArr [JObj [("type", JStr "text"); ("text", JStr "Original")];
                       JObj [("type", JStr "text"); ("text", JStr "Injected")]]);
      ("messages", JArr [])], true).
Proof.
  split.
  - apply (proj1 (inject_system_message stringSystemBody "Injected message")
             "Original system").
    reflexivity.
  - apply (proj1 (proj2 (inject_system_message listSystemBody "Injected"))
             [JObj [("type", JStr "text"); ("text", JStr "Original")]]).
    reflexivity.
Defined.

(** ** The Anthropic descriptor: tool-output replacement *)

Lemma prunedBlock_frame (toolIdLower prunedMessage : string) (b : JsVal) :
  anthropicFormat.matchesToolResult toolIdLower b = true →
  getProp (anthropicFormat.prunedBlock prunedMessage b) "content" = JStr prunedMessage ∧
  siblings (anthropicFormat.prunedBlock prunedMessage b) = siblings b ∧
  (∀ k, k ≠ "content" →
     getProp (anthropicFormat.prunedBlock prunedMessage b) k = getProp b k).
Proof.
  intros Hm. destruct b as [| | | | | |props]; try discriminate.
  cbn [anthropicFormat.prunedBlock getProp siblings].
  split; [apply field_setField_eq|]. split; [apply filter_setField|].
  intros k Hk. by apply field_setField_ne.
Qed.

Lemma replaceInBlocks_frame (toolIdLower prunedMessage : string) (blocks : list JsVal) :
  Forall2 (blockFrame toolIdLower prunedMessage) blocks
    (anthropicFormat.replaceInBlocks toolIdLower prunedMessage blocks).
Proof.
  induction blocks as [|b blocks IH]; cbn [anthropicFormat.replaceInBlocks map]; [constructor|].
  constructor; [|apply IH]. unfold blockFrame.
  destruct (anthropicFormat.matchesToolResult toolIdLower b) eqn:Hm; [|done].
  by apply (prunedBlock_frame toolIdLower).
Qed.

Lemma replaceInMessage_frame (toolIdLower prunedMessage : string) (m : JsVal) :
  messageFrame toolIdLower prunedMessage m
    (anthropicFormat.replaceInMessage toolIdLower prunedMessage m).1 ∧
  (anthropicFormat.replaceInMessage toolIdLower prunedMessage m).2 =
    hasToolResult toolIdLower m.
Proof.
  unfold messageFrame, anthropicFormat.replaceInMessage, hasToolResult.
  destruct m as [| | | | | |props]; cbn [getProp isStr fst snd andb]; try done.
  destruct (isStr (field props "role") "user") eqn:Hrole; cbn [andb];
    [|by destruct (field props "content")].
  destruct (field props "content") as [| | | | |blocks|] eqn:Hc;
    cbn [arrayItems existsb fst snd]; try done.
  destruct (existsb (anthropicFormat.matchesToolResult toolIdLower) blocks) eqn:Hex;
    cbn [fst snd]; [|done].
  split; [|done].
  exists blocks, (anthropicFormat.replaceInBlocks toolIdLower prunedMessage blocks).
  cbn [getProp siblings]. split; [done|].
  split; [apply field_setField_eq|]. split; [apply filter_setField|].
  apply replaceInBlocks_frame.
Qed.

(** C7. [replaceToolOutput] rewrites the request message by message, within
    [messageFrame]: in a user message that holds a tool result for the
    identifier (compared in lower case), each such tool result gets the new
    content and keeps every other property, every other block is untouched,
    and the other properties of the message stay; every other message is
    untouched. It answers whether some user message held a tool result for
    the identifier, and when it answers false it returns the messages
    unchanged. *)
Theorem replace_tool_output_frame (data : list JsVal) (toolId prunedMessage : string) :
  Forall2 (messageFrame (toLowerCase toolId) prunedMessage) data
    (anthropicFormat.replaceToolOutput data toolId prunedMessage).1 ∧
  (anthropicFormat.replaceToolOutput data toolId prunedMessage).2 =
    existsb (hasToolResult (toLowerCase toolId)) data ∧
  ((anthropicFormat.replaceToolOutput data toolId prunedMessage).2 = false →
   (anthropicFormat.replaceToolOutput data toolId prunedMessage).1 = data).
Proof.
  unfold anthropicFormat.replaceToolOutput. cbn [fst snd].
  induction data as [|m data (IH1 & IH2 & IH3)]; cbn [map existsb].
  { split; [constructor | done]. }
  destruct (replaceInMessage_frame (toLowerCase toolId) prunedMessage m) as (H1 & H2).
  split; [by constructor|]. split; [by rewrite H2, IH2|].
  intros [Hm Hd]%orb_false_iff. rewrite IH3 by done. f_equal.
  unfold messageFrame in H1. by rewrite <- H2, Hm in H1.
Qed.

(** The tool result of the format test: the content is replaced, the error
    flag stays; an identifier the request does not hold changes nothing. *)
Lemma replace_tool_output_frame_witness :
  anthropicFormat.replaceToolOutput toolResultMessages "TOOLU_456" "[PRUNED]" =
    ([JObj [("role", JStr "user");
            ("content", JArr [JObj [("type", JStr "tool_result");
                                    ("tool_use_id", JStr "toolu_456");
                                    ("content", JStr "[PRUNED]");
                                    ("is_error", JBool false)]])]], true) ∧
  anthropicFormat.replaceToolOutput toolResultMessages "toolu_999" "[PRUNED]" =
    (toolResultMessages, false).
Proof.
  split; [reflexivity|].
  pose proof (proj2 (proj2 (replace_tool_output_frame toolResultMessages "toolu_999"
                              "[PRUNED]"))) as Hsame.
  apply injective_projections; [apply Hsame|]; reflexivity.
Defined.

(** ** The detection chain *)




(** * Further facts *)

(** ** The range collector *)

Lemma messageAt_inside (messages : list WithParts) (i : Z) :
  0 ≤ i → i < Z.of_nat (length messages) →
  ∃ msg, messageAt messages i = Some msg ∧ messages !! Z.to_nat i = Some msg.
Proof.
  intros Hlo Hhi. unfold messageAt.
  destruct (i <? 0) eqn:Hneg; [apply Z.ltb_lt in Hneg; lia|].
  destruct (lookup_lt_is_Some_2 messages (Z.to_nat i)) as [msg Hmsg]; [lia|].
  eauto.
Qed.

Lemma messageAt_outside (messages : list WithParts) (i : Z) :
  i < 0 ∨ Z.of_nat (length messages) ≤ i → messageAt messages i = None.
Proof.
  intros Hout. unfold messageAt.
  destruct (i <? 0) eqn:Hneg; [done|]. apply Z.ltb_ge in Hneg.
  apply lookup_ge_None_2. lia.
Qed.

(** Inside the list the loop is a fold over the messages it visits. *)
Lemma rangeLoop_inside {A} (body : A → WithParts → A) (messages : list WithParts)
    (steps : nat) (i : Z) (acc : A) :
  0 ≤ i → Z.of_nat steps + i ≤ Z.of_nat (length messages) →
  rangeLoop body messages steps i acc =
    Ok (fold_left body (take steps (drop (Z.to_nat i) messages)) acc).
Proof.
  revert i acc; induction steps as [|steps IH]; intros i acc Hlo Hhi.
  { by rewrite take_0. }
  cbn [rangeLoop].
  destruct (messageAt_inside messages i) as (msg & -> & Hmsg); [lia..|].
  rewrite IH by lia.
  rewrite (drop_S _ _ _ Hmsg). cbn [take fold_left].
  by replace (Z.to_nat (i + 1)) with (S (Z.to_nat i)) by lia.
Qed.

Lemma rangeLoop_outside {A} (body : A → WithParts → A) (messages : list WithParts)
    (steps : nat) (i : Z) (acc : A) :
  (0 < steps)%nat → i < 0 ∨ Z.of_nat (length messages) < Z.of_nat steps + i →
  rangeLoop body messages steps i acc =
    Throw (MessageUndefined (firstOutside messages i)).
Proof.
  revert i acc; induction steps as [|steps IH]; intros i acc Hpos Hout; [lia|].
  cbn [rangeLoop]. unfold firstOutside.
  destruct (i <? 0) eqn:Hneg.
  { apply Z.ltb_lt in Hneg. by rewrite messageAt_outside by lia. }
  apply Z.ltb_ge in Hneg.
  destruct (decide (Z.of_nat (length messages) ≤ i)) as [Hge|Hlt].
  { rewrite messageAt_outside by lia. do 2 f_equal. lia. }
  destruct (messageAt_inside messages i) as (msg & -> & _); [lia..|].
  rewrite IH; [|lia|lia]. unfold firstOutside.
  destruct (i + 1 <? 0) eqn:Hneg'; [apply Z.ltb_lt in Hneg'; lia|].
  do 2 f_equal. lia.
Qed.

Lemma forRange_inside {A} (body : A → WithParts → A) (messages : list WithParts)
    (startIndex endIndex : Z) (acc : A) :
  inRange messages startIndex endIndex →
  forRange body messages startIndex endIndex acc =
    Ok (fold_left body (slice messages startIndex endIndex) acc).
Proof.
  intros [Hempty|[Hlo Hhi]]; unfold forRange, slice.
  - replace (Z.to_nat (endIndex - startIndex + 1)) with 0%nat by lia.
    by rewrite take_0.
  - destruct (decide (endIndex < startIndex)) as [Hempty|Hne].
    + replace (Z.to_nat (endIndex - startIndex + 1)) with 0%nat by lia.
      by rewrite take_0.
    + apply rangeLoop_inside; lia.
Qed.

Lemma forRange_outside {A} (body : A → WithParts → A) (messages : list WithParts)
    (startIndex endIndex : Z) (acc : A) :
  startIndex ≤ endIndex →
  startIndex < 0 ∨ Z.of_nat (length messages) ≤ endIndex →
  forRange body messages startIndex endIndex acc =
    Throw (MessageUndefined (firstOutside messages startIndex)).
Proof.
  intros Hne Hout. unfold forRange. apply rangeLoop_outside; lia.
Qed.

(** Pushing when new keeps the order of first occurrence. *)
Lemma firstSeen_snoc (l : list string) (x : string) :
  firstSeen (l ++ [x]) = pushUnique (firstSeen l) x.
Proof.
  unfold firstSeen, pushUnique. rewrite reverse_snoc. cbn [remove_dups].
  destruct (decide_rel elem_of x (reverse l)) as [Hin|Hnotin].
  - rewrite bool_decide_eq_true_2; [done|].
    by rewrite elem_of_reverse, elem_of_remove_dups.
  - rewrite bool_decide_eq_false_2; [by rewrite reverse_cons|].
    by rewrite elem_of_reverse, elem_of_remove_dups.
Qed.

Lemma pushUnique_fold (seen l : list string) :
  fold_left pushUnique l (firstSeen seen) = firstSeen (seen ++ l).
Proof.
  revert seen; induction l as [|x l IH]; intros seen; cbn [fold_left].
  - by rewrite app_nil_r.
  - rewrite <- firstSeen_snoc, IH. by rewrite <- app_assoc.
Qed.

Lemma firstSeen_NoDup (l : list string) : NoDup (firstSeen l).
Proof. unfold firstSeen. rewrite reverse_Permutation. apply NoDup_remove_dups. Qed.

Lemma firstSeen_elem (l : list string) (x : string) : x ∈ firstSeen l ↔ x ∈ l.
Proof.
  unfold firstSeen. by rewrite elem_of_reverse, elem_of_remove_dups, elem_of_reverse.
Qed.

Lemma sameValueZero_true (a b : JsVal) :
  sameValueZero a b = true ↔ a = b ∧ isPrimitive a = true.
Proof.
  destruct a as [| |x|x|x|x|x], b as [| |y|y|y|y|y]; cbn [sameValueZero isPrimitive];
    try (split; [discriminate | by intros [? ?]]); try done.
  - rewrite Bool.eqb_true_iff. split; [by intros -> | by intros [[= ->] _]].
  - rewrite Z.eqb_eq. split; [by intros -> | by intros [[= ->] _]].
  - rewrite String.eqb_eq. split; [by intros -> | by intros [[= ->] _]].
Qed.

Lemma includesValue_true (l : list JsVal) (x : JsVal) :
  includesValue l x = true ↔ isPrimitive x = true ∧ x ∈ l.
Proof.
  unfold includesValue. rewrite existsb_exists. split.
  - intros (y & Hy & Hsame). apply sameValueZero_true in Hsame as [-> Hprim].
    split; [done|]. by apply list_elem_of_In.
  - intros [Hprim Hx]. exists x. split; [by apply list_elem_of_In|].
    by apply sameValueZero_true.
Qed.

Lemma includesValue_same (l l' : list JsVal) (x : JsVal) :
  (x ∈ l ↔ x ∈ l') → includesValue l x = includesValue l' x.
Proof.
  intros Hiff. apply Bool.eq_iff_eq_true. rewrite !includesValue_true. tauto.
Qed.

Lemma lastSeenValues_elem (l : list JsVal) (x : JsVal) : x ∈ lastSeenValues l ↔ x ∈ l.
Proof.
  induction l as [|y l IH]; cbn [lastSeenValues]; [done|].
  destruct (includesValue l y) eqn:Hy.
  - rewrite IH, elem_of_cons. split; [tauto|]. intros [->|?]; [|done].
    by apply includesValue_true in Hy as [_ ?].
  - by rewrite !elem_of_cons, IH.
Qed.

Lemma firstSeenValues_elem (l : list JsVal) (x : JsVal) : x ∈ firstSeenValues l ↔ x ∈ l.
Proof.
  unfold firstSeenValues. by rewrite elem_of_reverse, lastSeenValues_elem, elem_of_reverse.
Qed.

(** Pushing when new keeps the order of first occurrence. *)
Lemma firstSeenValues_snoc (l : list JsVal) (x : JsVal) :
  firstSeenValues (l ++ [x]) = pushUniqueValue (firstSeenValues l) x.
Proof.
  unfold pushUniqueValue.
  rewrite (includesValue_same (firstSeenValues l) (reverse l) x)
    by (by rewrite firstSeenValues_elem, elem_of_reverse).
  unfold firstSeenValues. rewrite reverse_snoc. cbn [lastSeenValues].
  destruct (includesValue (reverse l) x); [done|]. by rewrite reverse_cons.
Qed.

Lemma pushUniqueValue_fold (seen l : list JsVal) :
  fold_left pushUniqueValue l (firstSeenValues seen) = firstSeenValues (seen ++ l).
Proof.
  revert seen; induction l as [|x l IH]; intros seen; cbn [fold_left].
  - by rewrite app_nil_r.
  - rewrite <- firstSeenValues_snoc, IH. by rewrite <- app_assoc.
Qed.

(** No primitive comes twice. *)
Lemma firstSeenValues_NoDup (l : list JsVal) :
  NoDup (filter (λ x, isPrimitive x = true) (firstSeenValues l)).
Proof.
  unfold firstSeenValues. rewrite filter_reverse, reverse_Permutation.
  induction (reverse l) as [|x k IH]; cbn [lastSeenValues]; [constructor|].
  destruct (includesValue k x) eqn:Hx; [done|].
  rewrite filter_cons. case_decide as Hprim; [|done].
  constructor; [|done]. rewrite list_elem_of_filter, lastSeenValues_elem.
  intros [_ Hin].
  assert (includesValue k x = true) by (by apply includesValue_true). congruence.
Qed.

Lemma collectToolIdStep_fold (ps : list Part) (toolIds : list JsVal) :
  fold_left collectToolIdStep ps toolIds =
  fold_left pushUniqueValue
    (List.flat_map (λ part, if isStr (field part "type") "tool"
                               && truthy (field part "callID")
                            then [field part "callID"]
                            else []) ps) toolIds.
Proof.
  revert toolIds; induction ps as [|part ps IH]; intros toolIds;
    cbn [fold_left List.flat_map]; [done|].
  rewrite fold_left_app, IH. f_equal. unfold collectToolIdStep, callIDOf.
  destruct (isStr (field part "type") "tool"); [|done].
  by destruct (truthy (field part "callID")).
Qed.

Lemma toolIds_fold (msgs : list WithParts) (seen : list JsVal) :
  fold_left (λ toolIds msg, fold_left collectToolIdStep (partsOf msg) toolIds)
    msgs (firstSeenValues seen) =
  firstSeenValues (seen ++ List.flat_map toolCallIds msgs).
Proof.
  revert seen; induction msgs as [|msg msgs IH]; intros seen;
    cbn [fold_left List.flat_map].
  - by rewrite app_nil_r.
  - rewrite collectToolIdStep_fold. fold (toolCallIds msg).
    rewrite pushUniqueValue_fold, IH. by rewrite <- app_assoc.
Qed.

Lemma messageIds_fold (msgs : list WithParts) (seen : list string) :
  fold_left (λ messageIds msg, pushUnique messageIds (id (info msg)))
    msgs (firstSeen seen) =
  firstSeen (seen ++ map (λ m, id (info m)) msgs).
Proof.
  revert seen; induction msgs as [|msg msgs IH]; intros seen; cbn [fold_left map].
  - by rewrite app_nil_r.
  - rewrite <- firstSeen_snoc, IH. by rewrite <- app_assoc.
Qed.

Lemma contents_fold `{JSONBuiltin} (msgs : list WithParts) (contents : list JsVal) :
  fold_left (λ contents msg,
               fold_left (λ contents part, contents ++ partContents part)
                 (partsOf msg) contents) msgs contents =
  contents ++ List.flat_map (λ msg, List.flat_map partContents (partsOf msg)) msgs.
Proof.
  assert (∀ ps c, fold_left (λ contents part, contents ++ partContents part) ps c
                  = c ++ List.flat_map partContents ps) as Hparts.
  { induction ps as [|p ps IH]; intros c; cbn [fold_left List.flat_map].
    - by rewrite app_nil_r.
    - by rewrite IH, app_assoc. }
  revert contents; induction msgs as [|msg msgs IH]; intros contents;
    cbn [fold_left List.flat_map].
  - by rewrite app_nil_r.
  - by rewrite Hparts, IH, app_assoc.
Qed.

(** A range cut in two visits the same messages. *)
Lemma slice_split (messages : list WithParts) (startIndex middle endIndex : Z) :
  0 ≤ startIndex → startIndex ≤ middle + 1 → middle ≤ endIndex →
  slice messages startIndex endIndex =
  slice messages startIndex middle ++ slice messages (middle + 1) endIndex.
Proof.
  intros Hlo Hsm Hme. unfold slice.
  replace (Z.to_nat (endIndex - startIndex + 1))
    with (Z.to_nat (middle - startIndex + 1) + Z.to_nat (endIndex - (middle + 1) + 1))%nat
    by lia.
  rewrite <- take_take_drop, drop_drop. do 3 f_equal. lia.
Qed.

(** X1. For a range that is empty or lies inside the list,
    [collectMessageIdsInRange] returns the identifiers of the messages of the
    range in the order of their first occurrence: no identifier twice, and an
    identifier is returned exactly when a message of the range carries it. *)
Theorem collectMessageIdsInRange_first_seen (messages : list WithParts)
    (startIndex endIndex : Z) :
  inRange messages startIndex endIndex →
  ∃ ids,
    collectMessageIdsInRange messages startIndex endIndex = Ok ids ∧
    ids = firstSeen (map (λ m, id (info m)) (slice messages startIndex endIndex)) ∧
    NoDup ids ∧
    (∀ x, x ∈ ids ↔ ∃ msg, msg ∈ slice messages startIndex endIndex ∧ id (info msg) = x).
Proof.
  intros Hin. eexists. split; [|split; [reflexivity|split]].
  - unfold collectMessageIdsInRange. rewrite forRange_inside by done.
    f_equal. apply (messageIds_fold _ []).
  - apply firstSeen_NoDup.
  - intros x. rewrite firstSeen_elem, list_elem_of_fmap. split.
    + intros (msg & -> & Hmsg). eauto.
    + intros (msg & Hmsg & <-). eauto.
Qed.

(** The second to fourth message of the sample: the repeated identifier is
    returned once, where it is first seen. *)
Lemma collectMessageIdsInRange_first_seen_witness :
  collectMessageIdsInRange rangeConversation 1 3 = Ok ["m2"; "m3"].
Proof.
  destruct (collectMessageIdsInRange_first_seen rangeConversation 1 3)
    as (ids & -> & -> & _).
  - right. cbn. lia.
  - vm_compute. reflexivity.
Defined.

(** X2. For a range that is empty or lies inside the list,
    [collectToolIdsInRange] returns the truthy [callID] values of the tool
    parts of the messages of the range, in message and part order, where
    they are first seen: a value is returned exactly when a tool part of the
    range carries it and it is truthy, whatever its type, and no string,
    number or boolean is returned twice. Parts of another type and tool
    parts with a falsy or absent [callID] add nothing. *)
Theorem collectToolIdsInRange_first_seen (messages : list WithParts)
    (startIndex endIndex : Z) :
  inRange messages startIndex endIndex →
  ∃ ids,
    collectToolIdsInRange messages startIndex endIndex = Ok ids ∧
    ids = firstSeenValues
            (List.flat_map toolCallIds (slice messages startIndex endIndex)) ∧
    NoDup (filter (λ x, isPrimitive x = true) ids) ∧
    (∀ x, x ∈ ids ↔
          ∃ msg part, msg ∈ slice messages startIndex endIndex ∧ part ∈ partsOf msg ∧
                      isStr (field part "type") "tool" = true ∧
                      field part "callID" = x ∧ truthy x = true).
Proof.
  intros Hin. eexists. split; [|split; [reflexivity|split]].
  - unfold collectToolIdsInRange. rewrite forRange_inside by done.
    f_equal. apply (toolIds_fold _ []).
  - apply firstSeenValues_NoDup.
  - intros x. rewrite firstSeenValues_elem, list_elem_of_In, in_flat_map. split.
    + intros (msg & Hmsg & Hx). unfold toolCallIds in Hx.
      apply in_flat_map in Hx as (part & Hpart & Hx).
      exists msg, part. rewrite !list_elem_of_In. split; [done|]. split; [done|].
      destruct (isStr (field part "type") "tool"); [|done].
      destruct (truthy (field part "callID")) eqn:Ht; [|done].
      destruct Hx as [<-|[]]. done.
    + intros (msg & part & Hmsg & Hpart & Htool & <- & Ht).
      exists msg. rewrite <- list_elem_of_In. split; [done|].
      unfold toolCallIds. apply in_flat_map. exists part.
      rewrite <- list_elem_of_In. split; [done|]. rewrite Htool, Ht. by left.
Qed.

(** The whole sample: two call identifiers, each once. And the message with
    the odd identifiers: the number and the string once each, nothing for the
    zero, the empty string, the missing identifier and the text part, and
    the two objects both. *)
Lemma collectToolIdsInRange_first_seen_witness :
  collectToolIdsInRange rangeConversation 0 3 = Ok [JStr "call_1"; JStr "call_2"] ∧
  collectToolIdsInRange [oddCallsMessage] 0 0 =
    Ok [JNum 7; JStr "call_9"; JObj [("n", JNum 1)]; JObj [("n", JNum 1)]].
Proof.
  split.
  - destruct (collectToolIdsInRange_first_seen rangeConversation 0 3)
      as (ids & -> & -> & _).
    + right. cbn. lia.
    + vm_compute. reflexivity.
  - destruct (collectToolIdsInRange_first_seen [oddCallsMessage] 0 0)
      as (ids & -> & -> & _).
    + right. cbn. lia.
    + vm_compute. reflexivity.
Defined.

(** X3. A range that is not empty and leaves the list makes the three
    collectors throw, at the first index without a message: the start index
    when it is negative or past the end, the length of the list otherwise.
    Nothing of what was collected before is returned. *)
Theorem collectors_throw_outside `{JSONBuiltin} (messages : list WithParts)
    (startIndex endIndex : Z) :
  startIndex ≤ endIndex →
  startIndex < 0 ∨ Z.of_nat (length messages) ≤ endIndex →
  collectToolIdsInRange messages startIndex endIndex =
    Throw (MessageUndefined (firstOutside messages startIndex)) ∧
  collectMessageIdsInRange messages startIndex endIndex =
    Throw (MessageUndefined (firstOutside messages startIndex)) ∧
  collectContentInRange messages startIndex endIndex =
    Throw (MessageUndefined (firstOutside messages startIndex)) ∧
  messageAt messages (firstOutside messages startIndex) = None ∧
  startIndex ≤ firstOutside messages startIndex ≤ endIndex.
Proof.
  intros Hne Hout.
  unfold collectToolIdsInRange, collectMessageIdsInRange, collectContentInRange.
  rewrite !forRange_outside by done. repeat (split; [done|]).
  unfold firstOutside. destruct (startIndex <? 0) eqn:Hneg.
  - apply Z.ltb_lt in Hneg. split; [|lia]. apply messageAt_outside. lia.
  - apply Z.ltb_ge in Hneg. split; [|lia]. apply messageAt_outside. lia.
Qed.

(** A range that ends one past the last message throws at the length. *)
Lemma collectors_throw_outside_witness :
  collectMessageIdsInRange rangeConversation 2 4 = Throw (MessageUndefined 4).
Proof.
  apply (@collectors_throw_outside standardJSON rangeConversation 2 4).
  - lia.
  - right. cbn. lia.
Defined.

(** X4. Collecting the content of a range inside the list is collecting the
    content of its two halves, one after the other. *)
Theorem collectContentInRange_split `{JSONBuiltin} (messages : list WithParts)
    (startIndex middle endIndex : Z) :
  0 ≤ startIndex → startIndex ≤ middle + 1 → middle ≤ endIndex →
  endIndex < Z.of_nat (length messages) →
  ∃ before after,
    collectContentInRange messages startIndex middle = Ok before ∧
    collectContentInRange messages (middle + 1) endIndex = Ok after ∧
    collectContentInRange messages startIndex endIndex = Ok (before ++ after).
Proof.
  intros Hlo Hsm Hme Hhi. unfold collectContentInRange.
  rewrite !forRange_inside by (right; lia).
  do 2 eexists. split; [reflexivity|]. split; [reflexivity|]. f_equal.
  rewrite !contents_fold. cbn [app].
  rewrite (slice_split messages startIndex middle endIndex) by done.
  by rewrite flat_map_app.
Qed.

Lemma collectContentInRange_split_witness :
  @collectContentInRange standardJSON sampleConversation 0 1 =
    Ok [JStr "alpha beta"; JStr "gamma"].
Proof.
  destruct (@collectContentInRange_split standardJSON sampleConversation 0 0 1)
    as (before & after & Hb & Ha & ->); [cbn; lia..|].
  vm_compute in Hb, Ha. injection Hb as <-. injection Ha as <-. reflexivity.
Defined.

Lemma pushUnique_fold_elem (l acc : list string) (x : string) :
  x ∈ fold_left pushUnique l acc ↔ x ∈ acc ∨ x ∈ l.
Proof.
  revert acc; induction l as [|y l IH]; intros acc; cbn [fold_left].
  - rewrite elem_of_nil. tauto.
  - rewrite IH, elem_of_cons. unfold pushUnique. case_bool_decide as Hy.
    + split; [tauto|]. intros [?|[->|?]]; tauto.
    + rewrite elem_of_app, list_elem_of_singleton. tauto.
Qed.

Lemma pushUnique_old (ids : list string) (x : string) :
  x ∈ ids → pushUnique ids x = ids.
Proof. intros Hx. unfold pushUnique. by rewrite bool_decide_eq_true_2. Qed.

Lemma pushUnique_new (ids : list string) (x : string) :
  x ∉ ids → pushUnique ids x = ids ++ [x].
Proof. intros Hx. unfold pushUnique. by rewrite bool_decide_eq_false_2. Qed.

(** Pushing a list and pushing its first occurrences come to the same. *)
Lemma pushUnique_fold_firstSeen (l acc : list string) :
  fold_left pushUnique (firstSeen l) acc = fold_left pushUnique l acc.
Proof.
  induction l as [|x l IH] using rev_ind; [done|].
  rewrite firstSeen_snoc, (fold_left_app _ l [x]). cbn [fold_left].
  destruct (decide (x ∈ firstSeen l)) as [Hx|Hx].
  - rewrite (pushUnique_old (firstSeen l)), IH by done.
    rewrite pushUnique_old; [done|].
    apply pushUnique_fold_elem. right. by apply firstSeen_elem.
  - rewrite (pushUnique_new (firstSeen l)) by done.
    rewrite (fold_left_app _ (firstSeen l) [x]). cbn [fold_left]. by rewrite IH.
Qed.

Lemma firstSeen_merge (a b : list string) :
  firstSeen (firstSeen a ++ firstSeen b) = firstSeen (a ++ b).
Proof.
  rewrite <- (pushUnique_fold a b), <- (pushUnique_fold (firstSeen a) (firstSeen b)).
  rewrite pushUnique_fold_firstSeen. f_equal.
  change (firstSeen (firstSeen a)) with (firstSeen ([] ++ firstSeen a)).
  rewrite <- (pushUnique_fold [] (firstSeen a)), pushUnique_fold_firstSeen.
  apply (pushUnique_fold [] a).
Qed.

Lemma pushUniqueValue_fold_includes (l acc : list JsVal) (x : JsVal) :
  includesValue (fold_left pushUniqueValue l acc) x =
  includesValue acc x || includesValue l x.
Proof.
  revert acc; induction l as [|y l IH]; intros acc; cbn [fold_left].
  - cbn. by rewrite orb_false_r.
  - rewrite IH. unfold pushUniqueValue. destruct (includesValue acc y) eqn:Hy.
    + apply Bool.eq_iff_eq_true. rewrite !orb_true_iff, !includesValue_true.
      apply includesValue_true in Hy as [_ Hy]. rewrite elem_of_cons.
      split; [tauto|]. intros [?|[? [->|?]]]; tauto.
    + apply Bool.eq_iff_eq_true. rewrite !orb_true_iff, !includesValue_true.
      rewrite elem_of_app, list_elem_of_singleton, elem_of_cons. tauto.
Qed.

(** Pushing a list and pushing its first occurrences come to the same. *)
Lemma pushUniqueValue_fold_firstSeen (l acc : list JsVal) :
  fold_left pushUniqueValue (firstSeenValues l) acc = fold_left pushUniqueValue l acc.
Proof.
  induction l as [|x l IH] using rev_ind; [done|].
  rewrite firstSeenValues_snoc, (fold_left_app _ l [x]). cbn [fold_left].
  assert (pushUniqueValue (firstSeenValues l) x =
          if includesValue (firstSeenValues l) x
          then firstSeenValues l else firstSeenValues l ++ [x]) as -> by done.
  destruct (includesValue (firstSeenValues l) x) eqn:Hx.
  - rewrite IH.
    assert (pushUniqueValue (fold_left pushUniqueValue l acc) x =
            if includesValue (fold_left pushUniqueValue l acc) x
            then fold_left pushUniqueValue l acc
            else fold_left pushUniqueValue l acc ++ [x]) as -> by done.
    rewrite pushUniqueValue_fold_includes.
    rewrite (includesValue_same l (firstSeenValues l) x)
      by (by rewrite firstSeenValues_elem).
    by rewrite Hx, orb_true_r.
  - rewrite (fold_left_app _ (firstSeenValues l) [x]). cbn [fold_left]. by rewrite IH.
Qed.

Lemma firstSeenValues_merge (a b : list JsVal) :
  firstSeenValues (firstSeenValues a ++ firstSeenValues b) = firstSeenValues (a ++ b).
Proof.
  rewrite <- (pushUniqueValue_fold a b),
    <- (pushUniqueValue_fold (firstSeenValues a) (firstSeenValues b)).
  rewrite pushUniqueValue_fold_firstSeen. f_equal.
  change (firstSeenValues (firstSeenValues a))
    with (firstSeenValues ([] ++ firstSeenValues a)).
  rewrite <- (pushUniqueValue_fold [] (firstSeenValues a)), pushUniqueValue_fold_firstSeen.
  apply (pushUniqueValue_fold [] a).
Qed.

(** X5. The identifiers of a range inside the list are those of its two
    halves, the second half's after the first half's, each identifier kept
    where it is first seen; the same holds of the tool call identifiers. *)
Theorem collectIdsInRange_split (messages : list WithParts)
    (startIndex middle endIndex : Z) :
  0 ≤ startIndex → startIndex ≤ middle + 1 → middle ≤ endIndex →
  endIndex < Z.of_nat (length messages) →
  (∃ before after,
     collectMessageIdsInRange messages startIndex middle = Ok before ∧
     collectMessageIdsInRange messages (middle + 1) endIndex = Ok after ∧
     collectMessageIdsInRange messages startIndex endIndex
       = Ok (firstSeen (before ++ after))) ∧
  (∃ before after,
     collectToolIdsInRange messages startIndex middle = Ok before ∧
     collectToolIdsInRange messages (middle + 1) endIndex = Ok after ∧
     collectToolIdsInRange messages startIndex endIndex
       = Ok (firstSeenValues (before ++ after))).
Proof.
  intros Hlo Hsm Hme Hhi.
  unfold collectMessageIdsInRange, collectToolIdsInRange.
  rewrite !forRange_inside by (right; lia).
  rewrite (slice_split messages startIndex middle endIndex) by done.
  split; do 2 eexists; (split; [reflexivity|]); (split; [reflexivity|]); f_equal.
  - rewrite !(messageIds_fold _ []). cbn [app].
    by rewrite firstSeen_merge, map_app.
  - rewrite !(toolIds_fold _ []). cbn [app].
    by rewrite firstSeenValues_merge, flat_map_app.
Qed.

(** The sample cut after its second message: the identifier seen in both
    halves is kept once. *)
Lemma collectIdsInRange_split_witness :
  collectMessageIdsInRange rangeConversation 0 3 = Ok ["m1"; "m2"; "m3"].
Proof.
  destruct (collectIdsInRange_split rangeConversation 0 1 3)
    as [(before & after & Hb & Ha & ->) _]; [cbn; lia..|].
  vm_compute in Hb, Ha. injection Hb as <-. injection Ha as <-.
  vm_compute. reflexivity.
Defined.

(** ** Resolution and the range collector together *)

Lemma returned_locator_locates `{JSONBuiltin} `{Fuzzball} (messages : list WithParts)
    (searchString : string) (sums : list CompressSummary) (stringType : StringType)
    (cfg : FuzzyConfig) (loc : Locator) :
  (findStringInMessages messages searchString sums stringType cfg).2 = Ok loc →
  locates messages (loc_messageId loc) (loc_messageIndex loc).
Proof.
  destruct (findExactMatches messages searchString sums) as [|m [|m2 rest]] eqn:He.
  - destruct (sortByScoreDesc
                (findFuzzyMatches messages searchString sums (minScore cfg)))
      as [|best tail] eqn:Hs.
    + apply sortByScoreDesc_nil in Hs.
      rewrite (resolve_fuzzy_none _ _ _ _ _ He Hs). discriminate.
    + rewrite (resolve_fuzzy_sorted _ _ _ _ _ best tail He Hs).
      pose proof (fuzzy_candidate_locates _ _ _ _ _ _ Hs) as Hloc.
      destruct tail as [|second rest];
        [|destruct (score best - score second <? minGap cfg)];
        cbn [snd]; intros [= <-]; done.
  - rewrite (resolve_exact_one _ _ _ _ _ m He). cbn [snd]. intros [= <-].
    rewrite findExactMatches_scan in He. eapply scan_locates.
    rewrite He. apply list_elem_of_here.
  - rewrite (resolve_exact_many _ _ _ _ _ m m2 rest He). discriminate.
Qed.

Lemma pushUnique_fold_head (l : list string) (x : string) (acc : list string) :
  head (fold_left pushUnique l (x :: acc)) = Some x.
Proof.
  revert acc; induction l as [|y l IH]; intros acc; cbn [fold_left]; [done|].
  unfold pushUnique. case_bool_decide; [apply IH|]. apply (IH (acc ++ [y])).
Qed.

(** X6. When the start string and the end string both resolve, the start not
    after the end, the three collectors return on the range between the two
    locators; the message identifiers begin with the start locator's and hold
    the end locator's. *)
Theorem resolved_range_collects `{JSONBuiltin} `{Fuzzball} (messages : list WithParts)
    (startSearch endSearch : string) (sums : list CompressSummary)
    (cfg : FuzzyConfig) (startLoc endLoc : Locator) :
  (findStringInMessages messages startSearch sums startString cfg).2 = Ok startLoc →
  (findStringInMessages messages endSearch sums endString cfg).2 = Ok endLoc →
  loc_messageIndex startLoc ≤ loc_messageIndex endLoc →
  ∃ messageIds toolIds contents,
    collectMessageIdsInRange messages (loc_messageIndex startLoc)
      (loc_messageIndex endLoc) = Ok messageIds ∧
    collectToolIdsInRange messages (loc_messageIndex startLoc)
      (loc_messageIndex endLoc) = Ok toolIds ∧
    collectContentInRange messages (loc_messageIndex startLoc)
      (loc_messageIndex endLoc) = Ok contents ∧
    head messageIds = Some (loc_messageId startLoc) ∧
    loc_messageId endLoc ∈ messageIds.
Proof.
  intros Hstart Hend Hle.
  apply returned_locator_locates in Hstart as (first & Hs0 & Hfirst & Hsid).
  apply returned_locator_locates in Hend as (last & He0 & Hlast & Heid).
  assert (loc_messageIndex endLoc < Z.of_nat (length messages)) as Hhi.
  { apply lookup_lt_Some in Hlast. lia. }
  assert (inRange messages (loc_messageIndex startLoc) (loc_messageIndex endLoc))
    as Hin by (right; lia).
  unfold collectMessageIdsInRange, collectToolIdsInRange, collectContentInRange.
  rewrite !forRange_inside by done.
  do 3 eexists. split; [reflexivity|]. split; [reflexivity|]. split; [reflexivity|].
  assert (∃ rest, slice messages (loc_messageIndex startLoc) (loc_messageIndex endLoc)
                  = first :: rest) as [rest Hslice].
  { unfold slice. rewrite (drop_S _ _ _ Hfirst).
    destruct (Z.to_nat (loc_messageIndex endLoc - loc_messageIndex startLoc + 1))
      as [|n] eqn:Hn; [lia|]. cbn [take]. eauto. }
  split.
  - rewrite (messageIds_fold _ []), Hslice. cbn [app map].
    change (id (info first) :: map (λ m, id (info m)) rest)
      with ([id (info first)] ++ map (λ m, id (info m)) rest).
    rewrite <- pushUnique_fold, Hsid. apply pushUnique_fold_head.
  - rewrite (messageIds_fold _ []). cbn [app].
    rewrite firstSeen_elem, list_elem_of_fmap. exists last. split; [done|].
    unfold slice. apply list_elem_of_lookup.
    exists (Z.to_nat (loc_messageIndex endLoc) - Z.to_nat (loc_messageIndex startLoc))%nat.
    rewrite lookup_take_lt by lia. rewrite lookup_drop. rewrite <- Hlast. f_equal. lia.
Qed.

(** From alpha to gamma in the sample conversation. *)
Lemma resolved_range_collects_witness :
  ∃ messageIds,
    collectMessageIdsInRange sampleConversation 0 1 = Ok messageIds ∧
    head messageIds = Some "m1" ∧ "m2" ∈ messageIds.
Proof.
  destruct (@resolved_range_collects standardJSON prefixRatio sampleConversation
              "alpha" "gamma" [] DEFAULT_FUZZY_CONFIG
              {| loc_messageId := "m1"; loc_messageIndex := 0 |}
              {| loc_messageId := "m2"; loc_messageIndex := 1 |})
    as (messageIds & _ & _ & Hids & _ & _ & Hhead & Hlast).
  - vm_compute. reflexivity.
  - vm_compute. reflexivity.
  - cbn. lia.
  - exists messageIds. cbn in Hids, Hhead, Hlast. done.
Defined.

(** ** Edge cases of the resolution *)

(** The word gamma is in the second message of the sample only. *)
Lemma exact_unique_message_resolves_witness :
  @findStringInMessages standardJSON prefixRatio sampleConversation "gamma" []
    endString DEFAULT_FUZZY_CONFIG
  = ([], Ok {| loc_messageId := "m2"; loc_messageIndex := 1 |}).
Proof.
  apply (@exact_unique_message_resolves standardJSON prefixRatio sampleConversation
           "gamma" [] endString DEFAULT_FUZZY_CONFIG 1%nat (textMessage "m2" "gamma")).
  - constructor.
  - reflexivity.
  - reflexivity.
  - intros [|[|j]] other Hother Hinc; [|reflexivity|discriminate Hother].
    injection Hother as <-. vm_compute in Hinc. discriminate Hinc.
Defined.

(** Both messages of the second sample hold the word alpha. *)
Lemma exact_two_messages_ambiguous_witness :
  @findStringInMessages standardJSON prefixRatio echoConversation "alpha" []
    startString DEFAULT_FUZZY_CONFIG
  = ([], Throw (MultipleExactMatches startString)).
Proof.
  apply (@exact_two_messages_ambiguous standardJSON prefixRatio echoConversation
           "alpha" [] startString DEFAULT_FUZZY_CONFIG
           (textMessage "m1" "alpha beta") (textMessage "m2" "gamma alpha")).
  - apply list_elem_of_here.
  - apply list_elem_of_further, list_elem_of_here.
  - discriminate.
  - reflexivity.
  - reflexivity.
Defined.

Lemma anchored_nil (s : CompressSummary) : anchored [] s = false.
Proof. reflexivity. Qed.

(** X9. In a conversation without messages nothing is found, whatever the
    search string, the summaries and the thresholds: a summary has no anchor
    there, so even one whose text is the search string gives no candidate. *)
Theorem empty_conversation_not_found `{JSONBuiltin} `{Fuzzball} (searchString : string)
    (sums : list CompressSummary) (stringType : StringType) (cfg : FuzzyConfig) :
  findExactMatches [] searchString sums = [] ∧
  findFuzzyMatches [] searchString sums (minScore cfg) = [] ∧
  findStringInMessages [] searchString sums stringType cfg =
    ([], Throw (NotFoundInConversation stringType)).
Proof.
  assert (findExactMatches [] searchString sums = []) as He.
  { rewrite findExactMatches_scan. apply scan_nil; [|constructor].
    apply Forall_forall. intros s _. right. apply anchored_nil. }
  assert (findFuzzyMatches [] searchString sums (minScore cfg) = []) as Hf.
  { rewrite findFuzzyMatches_scan. apply scan_nil; [|constructor].
    apply Forall_forall. intros s _. right. apply anchored_nil. }
  split; [done|]. split; [done|]. by apply resolve_fuzzy_none.
Qed.

Lemma includes_empty (s : string) : includes s EmptyString = true.
Proof. rewrite includes_unfold. by rewrite prefix_nil. Qed.

(** X10. The empty search string is contained in every text. In a
    conversation with a message it is therefore settled in the exact phase,
    without a log line: it resolves or is refused as ambiguous, and is never
    reported as not found; with two messages of different identifiers it is
    refused. *)
Theorem empty_search_string `{JSONBuiltin} `{Fuzzball} (messages : list WithParts)
    (sums : list CompressSummary) (stringType : StringType) (cfg : FuzzyConfig) :
  (messages ≠ [] →
   (findStringInMessages messages EmptyString sums stringType cfg).1 = [] ∧
   ((∃ m, findExactMatches messages EmptyString sums = [m] ∧
          (findStringInMessages messages EmptyString sums stringType cfg).2 =
            Ok {| loc_messageId := messageId m; loc_messageIndex := messageIndex m |}) ∨
    (findStringInMessages messages EmptyString sums stringType cfg).2 =
      Throw (MultipleExactMatches stringType))) ∧
  (∀ msg1 msg2, msg1 ∈ messages → msg2 ∈ messages →
     id (info msg1) ≠ id (info msg2) →
     findStringInMessages messages EmptyString sums stringType cfg =
       ([], Throw (MultipleExactMatches stringType))).
Proof.
  split.
  - intros Hne. destruct messages as [|msg rest]; [done|].
    destruct (scan_message_candidate (exactSummaryHit EmptyString)
                (exactMessageHit EmptyString) (msg :: rest) sums msg) as (c & Hc & _).
    { apply list_elem_of_here. }
    { unfold exactMessageHit. rewrite includes_empty. eauto. }
    rewrite <- findExactMatches_scan in Hc.
    destruct (findExactMatches (msg :: rest) EmptyString sums) as [|a [|b more]] eqn:He.
    + by apply elem_of_nil in Hc.
    + rewrite (resolve_exact_one _ _ _ _ _ a He). split; [done|]. left. eauto.
    + rewrite (resolve_exact_many _ _ _ _ _ a b more He). split; [done|]. by right.
  - intros msg1 msg2 Hin1 Hin2 Hdiff.
    apply (two_hits_ambiguous _ _ _ _ _ msg1 msg2); try done;
      unfold exactMessageHit; rewrite includes_empty; eauto.
Qed.

(** The empty string against the sample conversation. *)
Lemma empty_search_string_witness :
  @findStringInMessages standardJSON prefixRatio sampleConversation EmptyString []
    startString DEFAULT_FUZZY_CONFIG
  = ([], Throw (MultipleExactMatches startString)).
Proof.
  apply (proj2 (@empty_search_string standardJSON prefixRatio sampleConversation []
                  startString DEFAULT_FUZZY_CONFIG)
           (textMessage "m1" "alpha beta") (textMessage "m2" "gamma")).
  - apply list_elem_of_here.
  - apply list_elem_of_further, list_elem_of_here.
  - discriminate.
Defined.

(** ** The distill tool: which error *)

(** X11. [execute] checks [ids] before [distillation]: when [ids] is not an
    array with an element the error is the missing-ids one, when it holds a
    bad entry the invalid-ids one, whatever [distillation] is; the two
    distillation errors are thrown only for acceptable ids. Each throw comes
    with exactly one debug line, which ends with the arguments as JSON; a
    call that reaches the prune operation logs nothing; and the four error
    messages differ, so the message tells which check failed. *)
Theorem distill_execute_error_order `{JSONBuiltin} (args : JsObject) :
  (notNonEmptyArray (field args "ids") →
   execute args =
     ([LogDebug ("Distill tool called without ids: " +:+ JSON_stringify (JObj args))],
      Throw MISSING_IDS)) ∧
  (∀ ids, field args "ids" = JArr ids → ids ≠ [] → Exists badId ids →
   execute args =
     ([LogDebug ("Distill tool called with invalid ids: " +:+ JSON_stringify (JObj args))],
      Throw INVALID_IDS)) ∧
  (∀ message, (execute args).2 = Throw message →
     (message = MISSING_DISTILLATION ∨ message = INVALID_DISTILLATION) →
     ¬ idsRejected (field args "ids")) ∧
  (∀ message, (execute args).2 = Throw message →
     ∃ line, (execute args).1 = [LogDebug (line +:+ JSON_stringify (JObj args))]) ∧
  (∀ call, (execute args).2 = Ok call → (execute args).1 = []) ∧
  NoDup [MISSING_IDS; INVALID_IDS; MISSING_DISTILLATION; INVALID_DISTILLATION].
Proof.
  split; [|split; [|split; [|split; [|split]]]].
  - intros Hbad. unfold execute.
    assert (negb (truthy (field args "ids")) || negb (isArray (field args "ids"))
            || (length (arrayItems (field args "ids")) =? 0)%nat = true) as ->; [|done].
    apply missing_test. destruct Hbad; auto.
  - intros ids Hids Hne Hbad. unfold execute. rewrite Hids.
    cbn [truthy isArray arrayItems negb orb].
    destruct ids as [|v ids]; [done|]. cbn [length Nat.eqb].
    assert (forallb validId (v :: ids) = false) as ->; [|done].
    by apply (forallb_false_Exists validId badId _ validId_false).
  - intros message Hthrow Hkind Hrej.
    assert ((execute args).2 = Throw MISSING_IDS ∨ (execute args).2 = Throw INVALID_IDS)
      as Hids.
    { unfold execute. destruct Hrej as [Hu|[Hn|[He|(items & Hitems & Hex)]]].
      - rewrite Hu. by left.
      - left.
        assert (negb (truthy (field args "ids")) || negb (isArray (field args "ids"))
                || (length (arrayItems (field args "ids")) =? 0)%nat = true) as ->; [|done].
        apply missing_test. auto.
      - rewrite He. by left.
      - rewrite Hitems. cbn [truthy isArray arrayItems negb orb].
        destruct items as [|v items]; [by left|]. cbn [length Nat.eqb].
        assert (forallb validId (v :: items) = false) as ->; [|by right].
        by apply (forallb_false_Exists validId badId _ validId_false). }
    rewrite Hthrow in Hids.
    destruct Hids as [[= ->]|[= ->]], Hkind as [Hk|Hk]; vm_compute in Hk; discriminate Hk.
  - intros message. unfold execute.
    repeat match goal with
           | |- context [if ?b then _ else _] => destruct b; cbn [fst snd]; eauto
           end.
    discriminate.
  - intros call. unfold execute.
    repeat match goal with
           | |- context [if ?b then _ else _] => destruct b; cbn [fst snd]; try discriminate
           end.
    done.
  - repeat (apply NoDup_cons; split;
            [rewrite ?elem_of_cons, elem_of_nil; vm_compute; intuition discriminate|]).
    apply NoDup_nil_2.
Qed.

(** No ids and a number for a distillation: the error is about the ids. *)
Lemma distill_execute_error_order_witness :
  (@execute standardJSON doublyWrongArgs).2 = Throw MISSING_IDS.
Proof.
  pose proof (proj1 (@distill_execute_error_order standardJSON doublyWrongArgs)) as Hfirst.
  rewrite Hfirst; [reflexivity|]. right. reflexivity.
Defined.

(** ** The Anthropic descriptor: repeated injection *)

Lemma injectSystemMessage_blocks (body : JsObject) (injection : string) :
  field (anthropicFormat.injectSystemMessage body injection).1 "system" =
    JArr (systemBlocks body ++ [JObj [("type", JStr "text"); ("text", JStr injection)]]) ∧
  (∀ k, k ≠ "system" →
     field (anthropicFormat.injectSystemMessage body injection).1 k = field body k).
Proof.
  unfold anthropicFormat.injectSystemMessage, systemBlocks. cbn [fst]. split.
  - rewrite field_setField_eq.
    destruct (field body "system") eqn:Hs; rewrite ?field_setField_eq, ?Hs; done.
  - intros k Hk. rewrite field_setField_ne by done.
    destruct (field body "system"); by rewrite ?field_setField_ne.
Qed.

(** X12. Injections accumulate: after injecting texts one after the other
    the system channel is a list that holds the original blocks (a string
    counts as one text block, an object with the type [text] and the string
    as its text) followed by one such text block per injected text, in the
    order of injection, and every other property of the body is as before. A
    system value that is neither a string nor a list, such as a single block
    object or [null], is dropped by the first injection. *)
Theorem inject_system_messages_accumulate (body : JsObject) (texts : list string) :
  systemBlocks (injectAll body texts) =
    systemBlocks body ++
    map (λ text, JObj [("type", JStr "text"); ("text", JStr text)]) texts ∧
  (texts ≠ [] →
   field (injectAll body texts) "system" =
     JArr (systemBlocks body ++
           map (λ text, JObj [("type", JStr "text"); ("text", JStr text)]) texts)) ∧
  (∀ s, field body "system" = JStr s → texts ≠ [] →
   field (injectAll body texts) "system" =
     JArr (JObj [("type", JStr "text"); ("text", JStr s)] ::
           map (λ text, JObj [("type", JStr "text"); ("text", JStr text)]) texts)) ∧
  (∀ k, k ≠ "system" → field (injectAll body texts) k = field body k) ∧
  (∀ text, (∀ s, field body "system" ≠ JStr s) →
           (∀ items, field body "system" ≠ JArr items) →
     field (anthropicFormat.injectSystemMessage body text).1 "system" =
       JArr [JObj [("type", JStr "text"); ("text", JStr text)]]).
Proof.
  assert (∀ texts body,
            systemBlocks (injectAll body texts) =
              systemBlocks body ++
              map (λ text, JObj [("type", JStr "text"); ("text", JStr text)]) texts ∧
            (texts ≠ [] →
             field (injectAll body texts) "system" =
               JArr (systemBlocks body ++
                     map (λ text, JObj [("type", JStr "text"); ("text", JStr text)])
                       texts)) ∧
            (∀ k, k ≠ "system" → field (injectAll body texts) k = field body k)) as Hall.
  { clear. induction texts as [|text texts IH]; intros body.
    { unfold injectAll. cbn [fold_left map]. rewrite app_nil_r. done. }
    unfold injectAll. cbn [fold_left map].
    destruct (injectSystemMessage_blocks body text) as [Hsys Hrest].
    destruct (IH (anthropicFormat.injectSystemMessage body text).1) as (IH1 & IH2 & IH3).
    unfold injectAll in IH1, IH2, IH3.
    assert (systemBlocks (anthropicFormat.injectSystemMessage body text).1 =
            systemBlocks body ++ [JObj [("type", JStr "text"); ("text", JStr text)]])
      as Hblocks.
    { unfold systemBlocks at 1. by rewrite Hsys. }
    rewrite Hblocks, <- app_assoc in IH1, IH2. cbn [app] in IH1, IH2.
    split; [done|]. split.
    - intros _. destruct texts as [|t texts]; [|by apply IH2].
      cbn [fold_left map]. done.
    - intros k Hk. rewrite IH3 by done. by apply Hrest. }
  destruct (Hall texts body) as (H1 & H2 & H3).
  split; [done|]. split; [done|]. split; [|split; [done|]].
  - intros s Hs Htexts. rewrite (H2 Htexts). unfold systemBlocks. by rewrite Hs.
  - intros text Hnostr Hnoarr.
    destruct (injectSystemMessage_blocks body text) as [-> _].
    unfold systemBlocks. destruct (field body "system") eqn:Hs; try done.
    + by destruct (Hnostr s).
    + by destruct (Hnoarr items).
Qed.

(** Two injections into the string system of the format test; and one into a
    system that is a block object, which is lost. *)
Lemma inject_system_messages_accumulate_witness :
  field (injectAll stringSystemBody ["first"; "second"]) "system" =
    JArr [JObj [("type", JStr "text"); ("text", JStr "Original system")];
          JObj [("type", JStr "text"); ("text", JStr "first")];
          JObj [("type", JStr "text"); ("text", JStr "second")]] ∧
  field (anthropicFormat.injectSystemMessage blockSystemBody "Injected").1 "system" =
    JArr [JObj [("type", JStr "text"); ("text", JStr "Injected")]].
Proof.
  split.
  - apply (proj1 (proj2 (proj2 (inject_system_messages_accumulate stringSystemBody
                                  ["first"; "second"]))) "Original system").
    + reflexivity.
    + discriminate.
  - apply (proj2 (proj2 (proj2 (proj2
             (inject_system_messages_accumulate blockSystemBody []))))).
    + intros s Hs. vm_compute in Hs. discriminate Hs.
    + intros items Hs. vm_compute in Hs. discriminate Hs.
Defined.

(** X13. After an injection the body has a system channel, so the Anthropic
    predicate holds of it exactly when its messages are an array, whether or
    not it held before: a body without a system field, which the predicate
    rejects, is accepted once injected into. *)
Theorem inject_then_detect (body : JsObject) (injection : string) :
  anthropicFormat.detect (anthropicFormat.injectSystemMessage body injection).1 =
    isArray (field body "messages") ∧
  (anthropicFormat.detect body = true →
   anthropicFormat.detect (anthropicFormat.injectSystemMessage body injection).1 = true) ∧
  (field body "system" = JUndefined → anthropicFormat.detect body = false).
Proof.
  destruct (injectSystemMessage_blocks body injection) as [Hsys Hrest].
  assert (anthropicFormat.detect (anthropicFormat.injectSystemMessage body injection).1 =
          isArray (field body "messages")) as Hdetect.
  { unfold anthropicFormat.detect. rewrite Hsys, Hrest by discriminate. done. }
  split; [done|]. split.
  - rewrite Hdetect. unfold anthropicFormat.detect. by intros [_ ?]%andb_true_iff.
  - intros Hs. unfold anthropicFormat.detect. by rewrite Hs.
Qed.

(** The OpenAI-shaped body of the third format test: rejected before the
    injection, accepted after. *)
Lemma inject_then_detect_witness :
  anthropicFormat.detect [("model", JStr "gpt-4"); ("messages", JArr [])] = false ∧
  anthropicFormat.detect
    (anthropicFormat.injectSystemMessage
       [("model", JStr "gpt-4"); ("messages", JArr [])] "Injected").1 = true.
Proof.
  destruct (inject_then_detect [("model", JStr "gpt-4"); ("messages", JArr [])]
              "Injected") as (Hafter & _ & Hbefore).
  split; [apply Hbefore; reflexivity | rewrite Hafter; reflexivity].
Defined.

(** ** Model selection: the tier table *)

Lemma lowerChar_idem (c : ascii) : lowerChar (lowerChar c) = lowerChar c.
Proof. destruct c as [[] [] [] [] [] [] [] []]; vm_compute; reflexivity. Qed.

Lemma toLowerCase_idem (s : string) : toLowerCase (toLowerCase s) = toLowerCase s.
Proof.
  induction s as [|c s IH]; [done|]. cbn [toLowerCase]. by rewrite lowerChar_idem, IH.
Qed.

Lemma toLowerCase_app (a b : string) :
  toLowerCase (a +:+ b) = toLowerCase a +:+ toLowerCase b.
Proof.
  induction a as [|c a IH]; [done|].
  rewrite append_cons. cbn [toLowerCase]. by rewrite IH, append_cons.
Qed.

(** Among the inherited names only two are in lower case, so only they can
    be met by a key in lower case. *)
Lemma tierLookup_inherited (p : string) :
  tierLookup (toLowerCase p) = InheritedValue ↔
  toLowerCase p = "constructor" ∨ toLowerCase p = "__proto__".
Proof.
  split.
  - unfold tierLookup. destruct (ownTier MODEL_TIERS (toLowerCase p)); [done|].
    destruct (existsb (String.eqb (toLowerCase p)) INHERITED_KEYS) eqn:Hex; [|done].
    intros _. apply existsb_exists in Hex as (k & Hk & Heq).
    apply String.eqb_eq in Heq. pose proof (toLowerCase_idem p) as Hidem.
    rewrite Heq in Hidem |- *.
    repeat (destruct Hk as [<-|Hk]; [first [by left | by right | (vm_compute in Hidem; discriminate Hidem)]|]).
    destruct Hk.
  - intros [->| ->]; reflexivity.
Qed.

Lemma getTier2Model_throws (provider : string) :
  (∃ e, getTier2Model provider = Throw e) ↔
  toLowerCase provider = "constructor" ∨ toLowerCase provider = "__proto__".
Proof.
  unfold getTier2Model. rewrite <- tierLookup_inherited.
  destruct (tierLookup (toLowerCase provider)) as [config| |].
  - split; [|done]. destruct (tier2Models config); intros [e He]; discriminate.
  - split; eauto.
  - split; [intros [e He]; discriminate | done].
Qed.

Lemma isTier1Model_throws (provider modelName : string) :
  (∃ e, isTier1Model provider modelName = Throw e) ↔
  toLowerCase provider = "constructor" ∨ toLowerCase provider = "__proto__".
Proof.
  unfold isTier1Model. rewrite <- tierLookup_inherited.
  destruct (tierLookup (toLowerCase provider)) as [config| |].
  - split; [intros [e He]; discriminate | done].
  - split; eauto.
  - split; [intros [e He]; discriminate | done].
Qed.

(** X14. The tier table is consulted without regard to case: the provider
    name is folded to lower case, and so is the model name. A model counts as
    tier 1 as soon as its name contains the name of a tier-1 model of the
    provider. A provider the table does not know has no tier-2 model and no
    tier-1 model; and both lookups throw exactly for the two provider names
    that fold to a name every object inherits. *)
Theorem tier_lookup_by_name (provider modelName : string) :
  getTier2Model (toLowerCase provider) = getTier2Model provider ∧
  isTier1Model (toLowerCase provider) modelName = isTier1Model provider modelName ∧
  isTier1Model provider (toLowerCase modelName) = isTier1Model provider modelName ∧
  (∀ config name before after,
     tierLookup (toLowerCase provider) = OwnTier config → name ∈ tier1Models config →
     isTier1Model provider (before +:+ name +:+ after) = Ok true) ∧
  (tierLookup (toLowerCase provider) = NoTier →
   getTier2Model provider = Ok None ∧ isTier1Model provider modelName = Ok false) ∧
  ((∃ e, getTier2Model provider = Throw e) ↔
   toLowerCase provider = "constructor" ∨ toLowerCase provider = "__proto__") ∧
  ((∃ e, isTier1Model provider modelName = Throw e) ↔
   toLowerCase provider = "constructor" ∨ toLowerCase provider = "__proto__").
Proof.
  split; [|split; [|split; [|split; [|split; [|split]]]]].
  - unfold getTier2Model. by rewrite toLowerCase_idem.
  - unfold isTier1Model. by rewrite toLowerCase_idem.
  - unfold isTier1Model. by rewrite toLowerCase_idem.
  - intros config name before after Hown Hname. unfold isTier1Model. rewrite Hown.
    f_equal. apply existsb_exists. exists name. split; [by apply list_elem_of_In|].
    rewrite !toLowerCase_app. apply includes_occurs. eauto.
  - unfold getTier2Model, isTier1Model. by intros ->.
  - apply getTier2Model_throws.
  - apply isTier1Model_throws.
Qed.

(** A dated Claude Sonnet under a capitalised provider name is tier 1. *)
Lemma tier_lookup_by_name_witness :
  isTier1Model "Anthropic" ("us." +:+ "claude-sonnet-4" +:+ "-20250514") = Ok true.
Proof.
  apply (proj1 (proj2 (proj2 (proj2 (tier_lookup_by_name "Anthropic" EmptyString))))
           {| tier1Models := ["claude-sonnet-4.5"; "claude-sonnet-4"; "claude-opus-4.1";
                              "claude-3-5-sonnet-20241022"; "claude-3-opus-20240229"];
              tier2Models := ["claude-haiku-4-5"; "claude-3-5-haiku-20241022";
                              "claude-3-haiku-20240307"] |}).
  - reflexivity.
  - apply list_elem_of_further, list_elem_of_here.
Defined.

(** ** Model selection: the steps *)

Section Selection.
Context {Model : Type} `{OpencodeAI Model}.

Lemma tryProviders_result (currentModel : option ModelInfo) (providers : list string)
    (attempt : nat) :
  match tryProviders currentModel attempt providers with
  | Throw e => ∃ p, p ∈ providers ∧ getTier2Model p = Throw e
  | Ok None => Forall (passedOver currentModel) providers
  | Ok (Some r) =>
      tier r = tier2_other_provider ∧
      ∃ before after,
        providers = before ++ providerID (modelInfo r) :: after ∧
        Forall (passedOver currentModel) before ∧
        providerID (modelInfo r) ≠ "bigpickle" ∧
        (∀ current, currentModel = Some current →
                    providerID current ≠ providerID (modelInfo r)) ∧
        authenticated (providerID (modelInfo r)) = true ∧
        getTier2Model (providerID (modelInfo r)) = Ok (Some (modelID (modelInfo r))) ∧
        (∃ n, getLanguageModel n (providerID (modelInfo r)) (modelID (modelInfo r))
              = Some (model r))
  end.
Proof.
  revert attempt; induction providers as [|p providers IH]; intros attempt;
    cbn [tryProviders]; [constructor|].
  assert (∀ n, passedOver currentModel p →
            match tryProviders currentModel n providers with
            | Throw e => ∃ q, q ∈ p :: providers ∧ getTier2Model q = Throw e
            | Ok None => Forall (passedOver currentModel) (p :: providers)
            | Ok (Some r) =>
                tier r = tier2_other_provider ∧
                ∃ before after,
                  p :: providers = before ++ providerID (modelInfo r) :: after ∧
                  Forall (passedOver currentModel) before ∧
                  providerID (modelInfo r) ≠ "bigpickle" ∧
                  (∀ current, currentModel = Some current →
                              providerID current ≠ providerID (modelInfo r)) ∧
                  authenticated (providerID (modelInfo r)) = true ∧
                  getTier2Model (providerID (modelInfo r))
                    = Ok (Some (modelID (modelInfo r))) ∧
                  (∃ n, getLanguageModel n (providerID (modelInfo r))
                          (modelID (modelInfo r)) = Some (model r))
            end) as Hskip.
  { intros n Hp. specialize (IH n).
    destruct (tryProviders currentModel n providers) as [[r|]|e].
    - destruct IH as (Ht & before & after & -> & Hb & Hrest).
      split; [done|]. exists (p :: before), after. split; [done|].
      split; [by constructor | done].
    - by constructor.
    - destruct IH as (q & Hq & He). exists q. split; [by apply list_elem_of_further | done]. }
  destruct (String.eqb p "bigpickle") eqn:Hbig.
  { apply Hskip. left. by apply String.eqb_eq. }
  destruct (match currentModel with
            | Some current => String.eqb p (providerID current)
            | None => false
            end) eqn:Hcur.
  { apply Hskip. right; left. destruct currentModel as [current|]; [|done].
    apply String.eqb_eq in Hcur. eauto. }
  destruct (authenticated p) eqn:Hauth; cbn [negb];
    [|apply Hskip; right; right; left; done].
  destruct (getTier2Model p) as [[tier2ModelID|]|e] eqn:Htier.
  - destruct (String.eqb tier2ModelID EmptyString) eqn:Hempty.
    { apply Hskip. do 4 right. exists tier2ModelID.
      apply String.eqb_eq in Hempty. split; [done | by left]. }
    destruct (getLanguageModel attempt p tier2ModelID) as [m|] eqn:Hload.
    + cbn [tier modelInfo providerID modelID model]. split; [done|].
      exists [], providers. split; [done|]. split; [constructor|].
      split; [by apply String.eqb_neq|]. split.
      * intros current ->. apply String.eqb_neq in Hcur. congruence.
      * split; [done|]. split; [done|]. by exists attempt.
    + apply Hskip. do 4 right. exists tier2ModelID. split; [done|]. right.
      by exists attempt.
  - apply Hskip. do 3 right. by left.
  - exists p. split; [apply list_elem_of_here | done].
Qed.

Lemma selectFallback_result (currentModel : option ModelInfo) (attempt : nat) :
  ∃ r, selectFallback currentModel attempt = Ok r ∧
       ((tier r = tier2_other_provider ∧
         ∃ before after,
           PROVIDER_PRIORITY = before ++ providerID (modelInfo r) :: after ∧
           Forall (passedOver currentModel) before ∧
           providerID (modelInfo r) ≠ "bigpickle" ∧
           (∀ current, currentModel = Some current →
                       providerID current ≠ providerID (modelInfo r)) ∧
           authenticated (providerID (modelInfo r)) = true ∧
           getTier2Model (providerID (modelInfo r)) = Ok (Some (modelID (modelInfo r))) ∧
           (∃ n, getLanguageModel n (providerID (modelInfo r)) (modelID (modelInfo r))
                 = Some (model r))) ∨
        (r = bigPickleResult ∧ Forall (passedOver currentModel) PROVIDER_PRIORITY)).
Proof.
  unfold selectFallback.
  pose proof (tryProviders_result currentModel PROVIDER_PRIORITY attempt) as Hres.
  destruct (tryProviders currentModel attempt PROVIDER_PRIORITY) as [[r|]|e].
  - exists r. split; [done|]. by left.
  - eexists. split; [done|]. right. done.
  - destruct Hres as (p & Hp & He). exfalso.
    unfold PROVIDER_PRIORITY in Hp.
    repeat (apply elem_of_cons in Hp as [->|Hp]; [vm_compute in He; discriminate He|]).
    by apply elem_of_nil in Hp.
Qed.

(** X15. [selectModel] rejects in one case only: a current model is given,
    it does not load, and the name of its provider folds to [constructor] or
    [__proto__], for which the tier table answers an inherited value instead
    of a configuration. In every other case it returns a model. *)
Theorem selectModel_rejects (currentModel : option ModelInfo) :
  (∃ e, selectModel currentModel = Throw e) ↔
  (∃ current, currentModel = Some current ∧
     getLanguageModel 0 (providerID current) (modelID current) = None ∧
     (toLowerCase (providerID current) = "constructor" ∨
      toLowerCase (providerID current) = "__proto__")).
Proof.
  unfold selectModel. destruct currentModel as [current|].
  2: { destruct (selectFallback_result None 0) as (r & -> & _).
       split; [intros [e He]; discriminate | intros (c & Hc & _); discriminate]. }
  destruct (getLanguageModel 0 (providerID current) (modelID current)) as [m|] eqn:Hload.
  { split; [intros [e He]; discriminate | intros (c & [= <-] & Hc & _); congruence]. }
  pose proof (getTier2Model_throws (providerID current)) as Htier2.
  pose proof (isTier1Model_throws (providerID current) (modelID current)) as Htier1.
  destruct (isTier1Model (providerID current) (modelID current)) as [[|]|e] eqn:Hone.
  - assert (∀ e, getTier2Model (providerID current) ≠ Throw e) as Hok.
    { intros e He. destruct (proj1 Htier2 (ex_intro _ e He)) as [Hk|Hk];
        destruct (proj2 Htier1) as [e' He']; auto; discriminate. }
    assert (¬ (toLowerCase (providerID current) = "constructor"
               ∨ toLowerCase (providerID current) = "__proto__")) as Hnot.
    { intros Hk. destruct (proj2 Htier1 Hk) as [e' He']. discriminate. }
    destruct (getTier2Model (providerID current)) as [[tier2ModelID|]|e]; [| |by destruct (Hok e)].
    + destruct (String.eqb tier2ModelID EmptyString).
      * destruct (selectFallback_result (Some current) 1) as (r & -> & _).
        split; [intros [e He]; discriminate | intros (c & [= <-] & _ & Hk); tauto].
      * destruct (getLanguageModel 1 (providerID current) tier2ModelID).
        -- split; [intros [e He]; discriminate | intros (c & [= <-] & _ & Hk); tauto].
        -- destruct (selectFallback_result (Some current) 2) as (r & -> & _).
           split; [intros [e He]; discriminate | intros (c & [= <-] & _ & Hk); tauto].
    + destruct (selectFallback_result (Some current) 1) as (r & -> & _).
      split; [intros [e He]; discriminate | intros (c & [= <-] & _ & Hk); tauto].
  - destruct (selectFallback_result (Some current) 1) as (r & -> & _).
    split; [intros [e He]; discriminate|]. intros (c & [= <-] & _ & Hk).
    destruct (proj2 Htier1 Hk) as [e' He']. discriminate.
  - split; [|eauto]. intros _. exists current. split; [done|]. split; [done|].
    apply Htier1. eauto.
Qed.

(** X16. Every model [selectModel] returns is justified by its tier: the
    primary one is the current model, loaded at the first attempt; the
    same-provider one is the first tier-2 model of the current provider,
    loaded after the current model failed and was found to be tier 1; the
    other-provider one comes from an authenticated provider of the priority
    list, neither big-pickle nor the current provider, whose first tier-2
    model loaded, every provider before it in the list having been passed
    over; the fallback is big-pickle, every provider of the list having been
    passed over. *)
Theorem selectModel_justified (currentModel : option ModelInfo)
    (r : ModelSelectionResult Model) :
  selectModel currentModel = Ok r → justified currentModel r.
Proof.
  assert (∀ attempt r,
            (∀ current, currentModel = Some current →
               getLanguageModel 0 (providerID current) (modelID current) = None) →
            selectFallback currentModel attempt = Ok r → justified currentModel r)
    as Hfallback.
  { intros attempt r' Hfailed Hr.
    destruct (selectFallback_result currentModel attempt) as (r0 & Hr0 & Hcase).
    rewrite Hr0 in Hr. injection Hr as <-. unfold justified.
    destruct Hcase as [[-> Hother]|[-> Hall]]; [done|]. cbn [tier bigPickleResult]. done. }
  unfold selectModel. destruct currentModel as [current|].
  2: { apply Hfallback. intros c Hc. discriminate. }
  destruct (getLanguageModel 0 (providerID current) (modelID current)) as [m|] eqn:Hload.
  { intros [= <-]. unfold justified. cbn [tier]. exists current. done. }
  assert (∀ c, Some current = Some c →
               getLanguageModel 0 (providerID c) (modelID c) = None) as Hfailed
    by (by intros c [= <-]).
  destruct (isTier1Model (providerID current) (modelID current)) as [[|]|e] eqn:Hone;
    [| by apply Hfallback | discriminate].
  destruct (getTier2Model (providerID current)) as [[tier2ModelID|]|e] eqn:Htwo;
    [| by apply Hfallback | discriminate].
  destruct (String.eqb tier2ModelID EmptyString); [by apply Hfallback|].
  destruct (getLanguageModel 1 (providerID current) tier2ModelID) as [m|] eqn:Hload2;
    [|by apply Hfallback].
  intros [= <-]. unfold justified. cbn [tier modelInfo providerID modelID model].
  exists current. done.
Qed.

Lemma selectFallback_offline (currentModel : option ModelInfo) (attempt : nat) :
  (∀ n p m, getLanguageModel n p m = None) →
  selectFallback currentModel attempt = Ok bigPickleResult.
Proof.
  intros Hoff. destruct (selectFallback_result currentModel attempt) as (r & -> & Hcase).
  destruct Hcase as [(_ & before & after & _ & _ & _ & _ & _ & _ & n & Hload)|[-> _]];
    [|done].
  by rewrite Hoff in Hload.
Qed.

(** X17. When no model loads, [selectModel] still answers, with big-pickle,
    unless the provider name of the current model makes it reject. *)
Theorem selectModel_offline (currentModel : option ModelInfo) :
  (∀ n p m, getLanguageModel n p m = None) →
  (∀ current, currentModel = Some current →
     toLowerCase (providerID current) ≠ "constructor" ∧
     toLowerCase (providerID current) ≠ "__proto__") →
  selectModel currentModel = Ok bigPickleResult.
Proof.
  intros Hoff Hname. unfold selectModel.
  destruct currentModel as [current|]; [|by apply selectFallback_offline].
  rewrite Hoff. destruct (Hname current eq_refl) as [Hc Hp].
  pose proof (getTier2Model_throws (providerID current)) as Htier2.
  pose proof (isTier1Model_throws (providerID current) (modelID current)) as Htier1.
  destruct (isTier1Model (providerID current) (modelID current)) as [[|]|e].
  - destruct (getTier2Model (providerID current)) as [[tier2ModelID|]|e].
    + destruct (String.eqb tier2ModelID EmptyString);
        rewrite ?Hoff; by apply selectFallback_offline.
    + by apply selectFallback_offline.
    + exfalso. destruct (proj1 Htier2) as [?|?]; eauto.
  - by apply selectFallback_offline.
  - exfalso. destruct (proj1 Htier1) as [?|?]; eauto.
Qed.
End Selection.

(** A provider name that folds to [constructor], offline: rejection. *)
Lemma selectModel_rejects_witness :
  ∃ e, @selectModel string offline
         (Some {| providerID := "Constructor"; modelID := "gpt-5" |}) = Throw e.
Proof.
  apply (@selectModel_rejects string offline).
  exists {| providerID := "Constructor"; modelID := "gpt-5" |}.
  split; [reflexivity|]. split; [reflexivity|]. left. reflexivity.
Defined.

(** No current model, and a provider that is authenticated for Anthropic and
    Google and loads the fast Anthropic model only: OpenAI is passed over,
    Anthropic gives the model. *)
Lemma selectModel_justified_witness :
  @justified string onlyHaiku None
    {| model := "haiku";
       modelInfo := {| providerID := "anthropic"; modelID := "claude-haiku-4-5" |};
       tier := tier2_other_provider;
       reason := "Falling back to anthropic/claude-haiku-4-5" |}.
Proof.
  apply (@selectModel_justified string onlyHaiku). vm_compute. reflexivity.
Defined.

(** Offline with a current OpenAI model: big-pickle. *)
Lemma selectModel_offline_witness :
  @selectModel string offline (Some {| providerID := "openai"; modelID := "gpt-5" |})
  = Ok (@bigPickleResult string offline).
Proof.
  apply (@selectModel_offline string offline).
  - reflexivity.
  - intros current [= <-]. split; discriminate.
Defined.

(** ** The model of a session *)

(** X18. [extractModelFromSession] answers a model only with a truthy
    provider and a truthy model identifier. The model of the session itself
    comes first, whatever the messages hold; without it only the last message
    is looked at, so a model carried by an earlier message is never
    answered; and a session without messages answers nothing. *)
Theorem extractModelFromSession_precedence (sessionState : JsVal) :
  (∀ p m, extractModelFromSession sessionState = Some (p, m) →
          truthy p = true ∧ truthy m = true) ∧
  (truthy (getProp (getProp sessionState "model") "providerID") = true →
   truthy (getProp (getProp sessionState "model") "modelID") = true →
   extractModelFromSession sessionState =
     Some (getProp (getProp sessionState "model") "providerID",
           getProp (getProp sessionState "model") "modelID")) ∧
  (∀ props earlier lastMessage,
     sessionState = JObj props →
     field props "messages" = JArr (earlier ++ [lastMessage]) →
     extractModelFromSession sessionState =
     extractModelFromSession (JObj (setField props "messages" (JArr [lastMessage])))) ∧
  (truthy (getProp (getProp sessionState "model") "providerID")
   && truthy (getProp (getProp sessionState "model") "modelID") = false →
   arrayItems (getProp sessionState "messages") = [] →
   extractModelFromSession sessionState = None).
Proof.
  split; [|split; [|split]].
  - intros p m. unfold extractModelFromSession.
    destruct (truthy (getProp (getProp sessionState "model") "providerID")
              && truthy (getProp (getProp sessionState "model") "modelID")) eqn:Hs.
    { intros [= <- <-]. by apply andb_true_iff. }
    destruct (truthy (getProp sessionState "messages")
              && isArray (getProp sessionState "messages")); [|done].
    match goal with
    | |- context [if ?b then _ else _] => destruct b eqn:Hl; [|done]
    end.
    intros [= <- <-]. by apply andb_true_iff.
  - intros Hp Hm. unfold extractModelFromSession. by rewrite Hp, Hm.
  - intros props earlier lastMessage -> Hmsgs. unfold extractModelFromSession.
    cbn [getProp]. rewrite field_setField_ne by discriminate.
    rewrite field_setField_eq, Hmsgs. cbn [truthy isArray arrayItems andb].
    by rewrite last_snoc.
  - intros Hs Hempty. unfold extractModelFromSession. rewrite Hs, Hempty.
    cbn [last default getProp truthy andb].
    by destruct (truthy (getProp sessionState "messages")
                 && isArray (getProp sessionState "messages")).
Qed.

(** The model of the first message of the stale session is not answered. *)
Lemma extractModelFromSession_precedence_witness :
  extractModelFromSession (JObj staleModelSession) = None.
Proof.
  rewrite (proj1 (proj2 (proj2 (extractModelFromSession_precedence
                                  (JObj staleModelSession))))
             staleModelSession
             [JObj [("model", JObj [("providerID", JStr "openai");
                                    ("modelID", JStr "gpt-5")])]]
             (JObj [("role", JStr "user")]) eq_refl eq_refl).
  reflexivity.
Defined.

(** ** More on the resolution *)

(** X19. A search that is settled in the fuzzy phase by accepting a
    candidate returns a candidate that reaches the floor and beats every
    other fuzzy candidate by the gap at least, not the second-best alone; and
    it logs exactly one info line, with the kind of string searched for, the
    score of the candidate and the index of its message. *)
Theorem fuzzy_accept_beats_all `{JSONBuiltin} `{Fuzzball} (messages : list WithParts)
    (searchString : string) (sums : list CompressSummary) (stringType : StringType)
    (cfg : FuzzyConfig) (loc : Locator) :
  findExactMatches messages searchString sums = [] →
  (findStringInMessages messages searchString sums stringType cfg).2 = Ok loc →
  ∃ best others,
    findFuzzyMatches messages searchString sums (minScore cfg) ≡ₚ best :: others ∧
    loc = {| loc_messageId := messageId best; loc_messageIndex := messageIndex best |} ∧
    minScore cfg ≤ score best ∧
    Forall (λ c, minGap cfg ≤ score best - score c) others ∧
    (findStringInMessages messages searchString sums stringType cfg).1
      = [LogInfo ("Fuzzy matched " +:+
                  match stringType with
                  | startString => "startString"
                  | endString => "endString"
                  end +:+
                  " with " +:+ pretty (score best) +:+
                  "% confidence at message index " +:+ pretty (messageIndex best))].
Proof.
  intros He Hok.
  destruct (sortByScoreDesc (findFuzzyMatches messages searchString sums (minScore cfg)))
    as [|best tail] eqn:Hs.
  { apply sortByScoreDesc_nil in Hs.
    rewrite (resolve_fuzzy_none _ _ _ _ _ He Hs) in Hok. discriminate. }
  rewrite (resolve_fuzzy_sorted _ _ _ _ _ best tail He Hs) in Hok |- *.
  pose proof (sortByScoreDesc_descending
                (findFuzzyMatches messages searchString sums (minScore cfg))) as Hd.
  rewrite Hs in Hd. apply StronglySorted_inv in Hd as [Htail Hbest].
  assert (minScore cfg ≤ score best) as Hfloor.
  { assert (best ∈ findFuzzyMatches messages searchString sums (minScore cfg)) as Hin
      by (rewrite <- sortByScoreDesc_perm, Hs; apply list_elem_of_here).
    rewrite findFuzzyMatches_scan in Hin.
    apply scan_provenance in Hin as [(s & _ & Hhit & _)|(msg & _ & _ & _ & Hhit)].
    - unfold fuzzySummaryHit in Hhit.
      destruct (minScore cfg <=? partial_ratio searchString (summary s)) eqn:Hf; [|done].
      apply Z.leb_le in Hf. injection Hhit as Hsc _. lia.
    - unfold fuzzyMessageHit in Hhit.
      destruct (minScore cfg <=? partial_ratio searchString (extractMessageContent msg))
        eqn:Hf; [|done].
      apply Z.leb_le in Hf. injection Hhit as Hsc _. lia. }
  assert (fuzzyLogLine stringType best =
          LogInfo ("Fuzzy matched " +:+
                   match stringType with
                   | startString => "startString"
                   | endString => "endString"
                   end +:+
                   " with " +:+ pretty (score best) +:+
                   "% confidence at message index " +:+ pretty (messageIndex best)))
    as Hline by (by destruct stringType).
  rewrite Hline in Hok |- *.
  exists best, tail. split; [by rewrite <- Hs, sortByScoreDesc_perm|].
  destruct tail as [|second rest].
  - cbn [fst snd] in *. injection Hok as <-. done.
  - destruct (score best - score second <? minGap cfg) eqn:Hgap; [discriminate|].
    cbn [fst snd] in *. injection Hok as <-. apply Z.ltb_ge in Hgap.
    split; [done|]. split; [done|]. split; [|done].
    apply StronglySorted_inv in Htail as [_ Hsecond].
    constructor; [done|]. eapply Forall_impl; [apply Hsecond|]. cbn. lia.
Qed.

(** Three fuzzy candidates, with the scores 60, 95 and 55 in message order,
    against a floor of 50 and a gap of 15: the second message is returned,
    the two others are both candidates and both at least 15 below it. *)
Lemma fuzzy_accept_beats_all_witness :
  ∃ best others,
    @findFuzzyMatches standardJSON prefixRatio spreadConversation
      "abcdefghijklmnopqrst" [] 50 ≡ₚ best :: others ∧
    messageId best = "m2" ∧ length others = 2%nat ∧ 50 ≤ score best ∧
    Forall (λ c, 15 ≤ score best - score c) others ∧
    (@findStringInMessages standardJSON prefixRatio spreadConversation
       "abcdefghijklmnopqrst" [] startString lowFloorConfig).1
      = [LogInfo ("Fuzzy matched startString with " +:+ pretty (score best) +:+
                  "% confidence at message index 1")].
Proof.
  destruct (@fuzzy_accept_beats_all standardJSON prefixRatio spreadConversation
              "abcdefghijklmnopqrst" [] startString lowFloorConfig
              {| loc_messageId := "m2"; loc_messageIndex := 1 |})
    as (best & others & Hperm & Hloc & Hfloor & Hgap & Hlog).
  - vm_compute. reflexivity.
  - vm_compute. reflexivity.
  - exists best, others. injection Hloc as Hid Hidx.
    split; [exact Hperm|]. split; [by symmetry|]. split.
    { apply Permutation_length in Hperm.
      assert (length (@findFuzzyMatches standardJSON prefixRatio spreadConversation
                        "abcdefghijklmnopqrst" [] 50) = 3%nat) as Hlen
        by (vm_compute; reflexivity).
      change (minScore lowFloorConfig) with 50 in Hperm.
      rewrite Hlen in Hperm. cbn [length] in Hperm. by injection Hperm as <-. }
    split; [exact Hfloor|]. split; [exact Hgap|].
    rewrite Hlog, <- Hidx. reflexivity.
Defined.

(** X20. A hit in a summary resolves to its anchor message: when no message
    contains the search string and the summaries that contain it all stand
    for one message of the list, resolution returns that message's
    identifier, at the index of the first message that carries it. *)
Theorem summary_hit_resolves_to_anchor `{JSONBuiltin} `{Fuzzball}
    (messages : list WithParts) (searchString : string) (sums : list CompressSummary)
    (stringType : StringType) (cfg : FuzzyConfig) (s : CompressSummary) :
  s ∈ sums → includes (summary s) searchString = true → anchored messages s = true →
  (∀ t, t ∈ sums → includes (summary t) searchString = true →
        anchorMessageId t = anchorMessageId s) →
  Forall (λ m, includes (extractMessageContent m) searchString = false) messages →
  findStringInMessages messages searchString sums stringType cfg =
    ([], Ok {| loc_messageId := anchorMessageId s;
               loc_messageIndex := anchorIndexOf messages s |}) ∧
  locates messages (anchorMessageId s) (anchorIndexOf messages s).
Proof.
  intros Hs Hinc Hanch Hsame Hmsgs.
  assert (anchorIndexOf messages s ≠ (-1)) as Hidx.
  { rewrite <- findIndex_anchored in Hanch. by apply negb_true_iff, Z.eqb_neq in Hanch. }
  split; [|by apply anchorIndexOf_locates].
  pose proof (scan_NoDup (exactSummaryHit searchString) (exactMessageHit searchString)
                messages sums) as Hnd.
  assert (∀ c, c ∈ findExactMatches messages searchString sums →
               messageId c = anchorMessageId s ∧
               messageIndex c = anchorIndexOf messages s) as Hall.
  { intros c Hc. rewrite findExactMatches_scan in Hc.
    apply scan_provenance in Hc
      as [(t & Ht & Hhit & Hid & Hix & _)|(msg & _ & Hmsg & _ & Hhit)].
    - unfold exactSummaryHit in Hhit.
      destruct (includes (summary t) searchString) eqn:Hti; [|done].
      pose proof (Hsame t Ht Hti) as Heq. split; [congruence|].
      rewrite Hix. unfold anchorIndexOf. by rewrite Heq.
    - apply list_elem_of_lookup_2 in Hmsg.
      eapply Forall_forall in Hmsgs; [|done]. cbn beta in Hmsgs.
      unfold exactMessageHit in Hhit. by rewrite Hmsgs in Hhit. }
  destruct (scan_summary_candidate (exactSummaryHit searchString) messages sums s)
    as (c & Hc & _);
    [done | by (unfold exactSummaryHit; rewrite Hinc; eauto) | done |].
  assert (c ∈ findExactMatches messages searchString sums) as Hc'.
  { rewrite findExactMatches_scan.
    destruct (scan_split (exactSummaryHit searchString) (exactMessageHit searchString)
                messages sums) as (added & -> & _).
    apply elem_of_app. by left. }
  rewrite <- findExactMatches_scan in Hnd.
  destruct (findExactMatches messages searchString sums) as [|a [|b rest]] eqn:He.
  - by apply elem_of_nil in Hc'.
  - rewrite (resolve_exact_one _ _ _ _ _ a He).
    destruct (Hall a) as [-> ->]; [apply list_elem_of_here | done].
  - destruct (Hall a) as [Ha _]; [apply list_elem_of_here|].
    destruct (Hall b) as [Hb _]; [apply list_elem_of_further, list_elem_of_here|].
    cbn [map] in Hnd. apply NoDup_cons in Hnd as [Hnotin _].
    exfalso. apply Hnotin. rewrite Ha, Hb. apply list_elem_of_here.
Qed.

(** A word that only the summary of the second message holds. *)
Lemma summary_hit_resolves_to_anchor_witness :
  @findStringInMessages standardJSON prefixRatio sampleConversation "in short"
    [anchoredSummary] startString DEFAULT_FUZZY_CONFIG
  = ([], Ok {| loc_messageId := "m2"; loc_messageIndex := 1 |}).
Proof.
  apply (@summary_hit_resolves_to_anchor standardJSON prefixRatio sampleConversation
           "in short" [anchoredSummary] startString DEFAULT_FUZZY_CONFIG anchoredSummary).
  - apply list_elem_of_here.
  - reflexivity.
  - reflexivity.
  - intros t Ht _. apply list_elem_of_singleton in Ht. by rewrite Ht.
  - repeat constructor.
Defined.
